(** * Token codec, structural validator and prior masks of the GP regression task

    A shallow embedding of [dsr/task/regression/gp_regression.py]:
    the name tables [TRIG_TOKENS] and [INVERSE_TOKENS], the validators
    [check_inv] and [check_trig], the [checkConstraint] decorator, the codec
    [DEAP_to_tokens] / [tokens_to_DEAP], the mask generator [generate_priors]
    and the constant-optimisation objective [obj]; further the
    [popConstraint] decorator, [check_const], the evaluator's [__call__] and
    the printer [stringify_for_sympy] with [convert_inverse_prim].

    Python values are modelled as follows: [int] as [Z], numpy [int32] cells
    as [Z] with the conversion of a store written out (a C [long] of 64
    bits, cut to 32 bits), [float] as binary64 ([PrimFloat.float]), [str] as
    [string] with code points below 256, exceptions as the [Raise] case of
    [result]. The name of a terminal is kept as an object, with the flag of
    being the interned string, since [DEAP_to_tokens] compares it with [is].
    Objects that the code shares and assigns to (the terminals of the
    primitive set) live in an explicit store.

    Not part of the sources at hand and therefore parameters or models:
    the token library [Program.library], [_finish_tokens] of [dsr.program],
    the name sets [UNARY_TOKENS] and [BINARY_TOKENS] of [dsr.functions], the
    evaluation toolbox of the constant optimiser, and [_finish_eval] of
    [gp_base] with the optimiser [const_opt]. *)

From Stdlib Require Import ZArith Ascii String List Bool Lia PrimFloat FloatOps SpecFloat.
From stdpp Require Import base option list strings gmap pretty.

Open Scope string_scope.
Open Scope list_scope.
Open Scope Z_scope.

(* ===================================================================== *)
(** ** Python run-time conventions *)
(* ===================================================================== *)

Module Py.

(** The exceptions the modelled code can raise. *)
Inductive exn : Set :=
| IndexError | ValueError | TypeError | KeyError | AttributeError
| OverflowError | NameError | UnboundLocalError.

(** A computation either returns or raises. *)
Inductive result (A : Type) : Type :=
| Ok (a : A)
| Raise (e : exn).
Arguments Ok {A} a.
Arguments Raise {A} e.

Definition bind {A B : Type} (m : result A) (k : A -> result B) : result B :=
  match m with
  | Ok a => k a
  | Raise e => Raise e
  end.

(** [seq[i]] for a Python list or a numpy vector: a negative index counts
    from the end, anything outside [-len, len) raises [IndexError]. *)
Definition index {A : Type} (l : list A) (i : Z) : result A :=
  let n := Z.of_nat (length l) in
  let j := if i <? 0 then i + n else i in
  if (0 <=? j) && (j <? n) then
    match l !! Z.to_nat j with
    | Some x => Ok x
    | None => Raise IndexError
    end
  else Raise IndexError.

(** [enumerate(l)]. *)
Definition enumerate {A : Type} (l : list A) : list (nat * A) :=
  zip (seq 0 (length l)) l.

(** [l[:-1]]. *)
Definition but_last {A : Type} (l : list A) : list A :=
  take (length l - 1)%nat l.

(** A [dict] from [str] to [str], kept in insertion order as CPython does:
    assigning to a present key replaces its value in place, assigning to a
    new key appends. *)
Definition dict := list (string * string).

Fixpoint dict_get (d : dict) (k : string) : option string :=
  match d with
  | [] => None
  | (k', v) :: d' => if String.eqb k k' then Some v else dict_get d' k
  end.

Fixpoint dict_set (d : dict) (k v : string) : dict :=
  match d with
  | [] => [(k, v)]
  | (k', v') :: d' =>
      if String.eqb k k' then (k', v) :: d' else (k', v') :: dict_set d' k v
  end.

(** [{k : v for k, v in items}]: later items win. *)
Definition dict_of_items (items : list (string * string)) : dict :=
  fold_left (fun acc kv => dict_set acc (fst kv) (snd kv)) items [].

(** [d.update(other)]. *)
Definition dict_update (d other : dict) : dict :=
  fold_left (fun acc kv => dict_set acc (fst kv) (snd kv)) other d.

(** [d.items()]. *)
Definition dict_items (d : dict) : list (string * string) := d.

End Py.

Import Py.

Notation "x <- m ;; k" := (Py.bind m (fun x => k))
  (at level 20, m at level 99, k at level 200).

(* ===================================================================== *)
(** ** Name tables (lines 31-52) *)
(* ===================================================================== *)

Definition TRIG_TOKENS : list string :=
  ["sin"; "cos"; "tan"; "csc"; "sec"; "cot"].

(** The dict literal of line 35. *)
Definition INVERSE_TOKENS_literal : dict :=
  dict_of_items [("exp", "log"); ("neg", "neg"); ("inv", "inv"); ("sqrt", "n2")].

(** After [INVERSE_TOKENS.update({t : "arc" + t for t in TRIG_TOKENS})]. *)
Definition INVERSE_TOKENS_trig : dict :=
  dict_update INVERSE_TOKENS_literal
    (dict_of_items (map (fun t => (t, "arc" +:+ t)) TRIG_TOKENS)).

(** After [INVERSE_TOKENS.update({v : k for k, v in INVERSE_TOKENS.items()})]. *)
Definition INVERSE_TOKENS : dict :=
  dict_update INVERSE_TOKENS_trig
    (dict_of_items (map (fun kv => (snd kv, fst kv)) (dict_items INVERSE_TOKENS_trig))).

(* ===================================================================== *)
(** ** The validators on name sequences (lines 67-96) *)
(* ===================================================================== *)

(** The test of line 71 at position [i]:
    [name in INVERSE_TOKENS and names[i+1] == INVERSE_TOKENS[name]].
    The loop runs over [names[:-1]], so [names[i+1]] always exists. *)
Definition inv_pair_at (names : list string) (ix : nat * string) : bool :=
  match dict_get INVERSE_TOKENS (snd ix), names !! S (fst ix) with
  | Some inverse, Some next => String.eqb next inverse
  | _, _ => false
  end.

(** [check_inv]: the first position passing the test returns [True]. *)
Definition check_inv (names : list string) : bool :=
  existsb (inv_pair_at names) (enumerate (but_last names)).

Section NameTables.

(** [UNARY_TOKENS] and [BINARY_TOKENS] are imported from [dsr.functions]; the
    validators only test membership in them. *)
Variables UNARY_TOKENS BINARY_TOKENS : list string.

(** The two loop variables of [check_trig]. [trig_dangling] is unbound in
    Python until the first trig token assigns it and is read only while
    [trig_descendant] holds; it starts at 0 here. *)
Record trig_state : Set := TrigState {
  trig_descendant : bool;
  trig_dangling : Z
}.

Definition trig_init : trig_state := TrigState false 0.

(** Lines 89-94: the update made for a non-trig token under a trig token. *)
Definition trig_under (name_binary name_unary : bool) (d : Z) : trig_state :=
  let d' := if name_binary then d + 1
            else if negb name_unary then d - 1
            else d in
  TrigState (negb (d' =? 0)) d'.

Fixpoint check_trig_loop (st : trig_state) (names : list string) : bool :=
  match names with
  | [] => false
  | name :: rest =>
      if bool_decide (name ∈ TRIG_TOKENS) then
        if trig_descendant st then true
        else check_trig_loop (TrigState true 1) rest
      else if trig_descendant st then
        check_trig_loop
          (trig_under (bool_decide (name ∈ BINARY_TOKENS))
                      (bool_decide (name ∈ UNARY_TOKENS))
                      (trig_dangling st)) rest
      else check_trig_loop st rest
  end.

Definition check_trig (names : list string) : bool :=
  check_trig_loop trig_init names.

End NameTables.

(* ===================================================================== *)
(** ** DEAP individuals *)
(* ===================================================================== *)

(** The value slot of a [gp.Terminal]: a float for constants, the symbol's
    name for terminals registered by name. *)
Inductive pyvalue : Set :=
| VFloat (f : float)
| VStr (s : string).

(** A [str] object that serves as the name of a terminal: its text, and
    whether the object is the interned one of that text. CPython interns
    the string literals of a module that look like identifiers and keeps one
    object per text, so [s is "literal"] holds exactly when [s] is the
    interned object and has the literal's text; an equal string built at run
    time is another object. *)
Record pystr : Set := PyStr {
  text : string;
  interned : bool
}.

(** A string literal of the source, as the object it denotes. *)
Definition literal (s : string) : pystr := PyStr s true.
Coercion literal : string >-> pystr.

(** [s is "lit"] (lines 180 and 183). *)
Definition is_literal (s : pystr) (lit : string) : bool :=
  interned s && String.eqb (text s) lit.

(** A node of a [gp.PrimitiveTree]: a [gp.Primitive] with its name and arity,
    or a [gp.Terminal] with its name and value. A tree is the list of its
    nodes in prefix order, which is how DEAP stores it. The name of a
    terminal is kept as an object, since [DEAP_to_tokens] tests it with
    [is]; everything else reads its text. *)
Inductive node : Set :=
| Primitive (name : string) (arity : nat)
| Terminal (name : pystr) (value : pyvalue).

Definition node_name (nd : node) : string :=
  match nd with
  | Primitive name _ => name
  | Terminal name _ => text name
  end.

Definition node_arity (nd : node) : nat :=
  match nd with
  | Primitive _ arity => arity
  | Terminal _ _ => 0%nat
  end.

Abbreviation Individual := (list node).

(** [PrimitiveTree.height] of DEAP: a stack of pending depths, popped once
    per node and extended with [arity] copies of [depth + 1]. The head of
    the list is the top of the stack; popping an empty stack raises. *)
Fixpoint height_loop (stack : list Z) (max_depth : Z) (ind : Individual)
  : result Z :=
  match ind with
  | [] => Ok max_depth
  | elem :: rest =>
      match stack with
      | [] => Raise IndexError
      | depth :: stack' =>
          height_loop (replicate (node_arity elem) (depth + 1) ++ stack')
                      (Z.max max_depth depth) rest
      end
  end.

Definition height (ind : Individual) : result Z := height_loop [0] 0 ind.

(* ===================================================================== *)
(** ** The [checkConstraint] decorator (lines 100-135) *)
(* ===================================================================== *)

(** The state of module [random]: the stream of raw draws and the number of
    draws consumed so far. *)
Record rng : Type := Rng {
  draws : nat -> nat;
  consumed : nat
}.

(** [random.choice(seq)]: raises on an empty sequence, else returns the
    element at a drawn index below [len(seq)]. *)
Definition random_choice {A : Type} (l : list A) (g : rng) : result (A * rng) :=
  match l with
  | [] => Raise IndexError
  | _ :: _ =>
      match l !! (draws g (consumed g) mod length l)%nat with
      | Some x => Ok (x, Rng (draws g) (S (consumed g)))
      | None => Raise IndexError
      end
  end.

Section CheckConstraint.

Variables UNARY_TOKENS BINARY_TOKENS : list string.
Variables max_length min_length max_depth : Z.

(** The wrapped mutate or mate operator: it receives the individuals and may
    draw random numbers, returns the new individuals or raises. *)
Variable func : list Individual -> rng -> result (list Individual * rng).

(** One turn of the loop of lines 113-129 for [new_inds[i] = ind]. *)
Definition constrain (keep_inds : list Individual) (ind : Individual) (g : rng)
  : result (Individual * rng) :=
  let l := Z.of_nat (length ind) in
  if l >? max_length then random_choice keep_inds g
  else if l <? min_length then random_choice keep_inds g
  else
    h <- height ind ;;
    if h >? max_depth then random_choice keep_inds g
    else
      let names := map node_name ind in
      if check_inv names then random_choice keep_inds g
      else if check_trig UNARY_TOKENS BINARY_TOKENS names then
        random_choice keep_inds g
      else Ok (ind, g).

Fixpoint constrain_all (keep_inds new_inds : list Individual) (g : rng)
  : result (list Individual * rng) :=
  match new_inds with
  | [] => Ok ([], g)
  | ind :: rest =>
      r <- constrain keep_inds ind g ;;
      rs <- constrain_all keep_inds rest (snd r) ;;
      Ok (fst r :: fst rs, snd rs)
  end.

(** The wrapper called on [args]: [keep_inds] are deep copies of the arguments taken
    before [func] runs; individuals are values here, so a copy is the
    individual itself. *)
Definition wrapper (args : list Individual) (g : rng)
  : result (list Individual * rng) :=
  let keep_inds := args in
  r <- func args g ;;
  constrain_all keep_inds (fst r) (snd r).

(** The five constraints of the decorator, as a predicate. *)
Definition satisfies_constraints (ind : Individual) : Prop :=
  Z.of_nat (length ind) <= max_length /\
  min_length <= Z.of_nat (length ind) /\
  (exists h, height ind = Ok h /\ h <= max_depth) /\
  check_inv (map node_name ind) = false /\
  check_trig UNARY_TOKENS BINARY_TOKENS (map node_name ind) = false.

End CheckConstraint.

(* ===================================================================== *)
(** ** The token library *)
(* ===================================================================== *)

(** What [Program.library[t]] evaluates to, by the Python type that
    [tokens_to_DEAP] tests (lines 250, 263, 276, 287). *)
Inductive entry : Set :=
| EFloat (v : float)     (* a hard-coded constant *)
| EStr (s : string)      (* the constant placeholder *)
| EInt (n : Z)           (* an input variable, by column *)
| EFunc (name : string). (* a function token, by name *)

(** Modelled from the spec: the Token Library ([Program.library], built in
    [dsr.program]) is not part of the sources at hand. The record lists the
    attributes that [gp_regression.py] reads: the tokens in index order,
    their names and arities, the index of the constant placeholder, the
    library size, the derived index sets and the inverse-pair map. *)
Record Library : Type := {
  entries : list entry;
  names : list string;
  arities : list Z;
  const_token : option Z;
  L : nat;
  terminal_tokens : list Z;
  unary_tokens : list Z;
  binary_tokens : list Z;
  trig_tokens : list Z;
  inverse_tokens : gmap Z Z
}.

(* ===================================================================== *)
(** ** numpy helpers *)
(* ===================================================================== *)

Module Np.

(** The value of the low 32 bits of [z], read as a signed integer. *)
Definition wrap_int32 (z : Z) : Z := (z + 2 ^ 31) mod 2 ^ 32 - 2 ^ 31.

(** Storing a Python [int] into an [int32] cell, as the numpy versions that
    have [np.float] do it: the value is converted to a C [long] of 64 bits,
    which raises [OverflowError] when it does not fit, and the [long] is
    cast to 32 bits, which keeps the low bits. *)
Definition store_int32 (z : Z) : result Z :=
  if (- 2 ^ 63 <=? z) && (z <? 2 ^ 63) then Ok (wrap_int32 z)
  else Raise OverflowError.

(** C-style truncation of a finite binary64 value. *)
Definition trunc (f : float) : option Z :=
  match Prim2SF f with
  | S754_zero _ => Some 0
  | S754_finite s m e =>
      let mag := if 0 <=? e then Z.pos m * 2 ^ e else Z.pos m / 2 ^ (- e) in
      Some (if s then - mag else mag)
  | S754_infinity _ => None
  | S754_nan => None
  end.

(** Storing a float into an [int32] cell: the float is converted with
    [int()], which truncates toward zero and raises [ValueError] on NaN and
    [OverflowError] on an infinity, and the integer is stored as above. *)
Definition store_float_int32 (f : float) : result Z :=
  match trunc f with
  | Some z => store_int32 z
  | None =>
      match Prim2SF f with
      | S754_nan => Raise ValueError
      | _ => Raise OverflowError
      end
  end.

(** [np.cumsum]. *)
Fixpoint cumsum_from (acc : Z) (l : list Z) : list Z :=
  match l with
  | [] => []
  | x :: rest => (acc + x) :: cumsum_from (acc + x) rest
  end.

Definition cumsum (l : list Z) : list Z := cumsum_from 0 l.

(** Index of the first [True], if any. *)
Fixpoint first_true (l : list bool) : option nat :=
  match l with
  | [] => None
  | b :: rest => if b then Some 0%nat else S <$> first_true rest
  end.

(** [np.argmax] of a boolean vector: the first [True], 0 when all entries
    are [False]; an empty vector raises. *)
Definition argmax (l : list bool) : result Z :=
  match l with
  | [] => Raise ValueError
  | _ :: _ =>
      match first_true l with
      | Some i => Ok (Z.of_nat i)
      | None => Ok 0
      end
  end.

End Np.

(** [[f(x) for x in l]] where [f] may raise. *)
Fixpoint mapM {A B : Type} (f : A -> result B) (l : list A) : result (list B) :=
  match l with
  | [] => Ok []
  | x :: rest =>
      y <- f x ;;
      ys <- mapM f rest ;;
      Ok (y :: ys)
  end.

(** [int(s)] for a string [s], in base 10. The characters of a [string] are
    read as the code points 0 to 255, among which the decimal digits are the
    ASCII ones. The grammar is Python's: white space around, an optional
    sign, then digits with single underscores between them; a text of more
    than [int_max_str_digits] digits is refused, as CPython does by default
    since 3.8.14. *)
Definition digit_of (c : ascii) : option Z :=
  let n := Z.of_nat (nat_of_ascii c) in
  if (48 <=? n) && (n <=? 57) then Some (n - 48) else None.

(** The white space that [int] skips, among the characters below 256: tab
    to carriage return and the space, and the two white-space characters
    above 126, which are read as spaces. *)
Definition is_space (c : ascii) : bool :=
  let n := Z.of_nat (nat_of_ascii c) in
  ((9 <=? n) && (n <=? 13)) || (n =? 32) || (n =? 133) || (n =? 160).

(** Where the scanner stands: in the leading white space, behind the sign,
    behind a digit, behind an underscore, or in the trailing white space. *)
Inductive int_state : Set :=
| Leading | Signed | Digit | Underscore | Trailing.

(** The default of [sys.int_max_str_digits]. *)
Definition int_max_str_digits : nat := 4300.

(** The scanner: [acc] is the number read so far and [digits] the number of
    digits seen. *)
Fixpoint int_scan (st : int_state) (negative : bool) (acc : Z) (digits : nat)
  (s : string) : option Z :=
  match s with
  | EmptyString =>
      match st with
      | Digit | Trailing =>
          if (int_max_str_digits <? digits)%nat then None
          else Some (if negative then - acc else acc)
      | _ => None
      end
  | String c s' =>
      match digit_of c with
      | Some d =>
          match st with
          | Trailing => None
          | _ => int_scan Digit negative (10 * acc + d) (S digits) s'
          end
      | None =>
          if is_space c then
            match st with
            | Leading => int_scan Leading negative acc digits s'
            | Digit | Trailing => int_scan Trailing negative acc digits s'
            | _ => None
            end
          else if Ascii.eqb c "_" then
            match st with
            | Digit => int_scan Underscore negative acc digits s'
            | _ => None
            end
          else if Ascii.eqb c "+" then
            match st with
            | Leading => int_scan Signed false acc digits s'
            | _ => None
            end
          else if Ascii.eqb c "-" then
            match st with
            | Leading => int_scan Signed true acc digits s'
            | _ => None
            end
          else None
      end
  end.

Definition py_int (s : string) : result Z :=
  match int_scan Leading false 0 0 s with
  | Some z => Ok z
  | None => Raise ValueError
  end.

(** [s[n:]]. *)
Fixpoint string_drop (n : nat) (s : string) : string :=
  match n, s with
  | O, _ => s
  | S n', String _ s' => string_drop n' s'
  | S _, EmptyString => EmptyString
  end.

(** [l.index(x)]: the first position of [x], [ValueError] when absent. *)
Fixpoint list_index (x : string) (l : list string) : result Z :=
  match l with
  | [] => Raise ValueError
  | y :: rest =>
      if String.eqb x y then Ok 0
      else i <- list_index x rest ;; Ok (i + 1)
  end.

(* ===================================================================== *)
(** ** Arity balance *)
(* ===================================================================== *)

(** The sum of [arity - 1] over a run of tokens. *)
Definition balance_sum (arities : list Z) : Z :=
  foldr Z.add 0 (map (fun a => a - 1) arities).

(** The running arity balance after the first [q] tokens:
    [1 + sum (arity - 1)] over the prefix. *)
Definition balance_after (arities : list Z) (q : nat) : Z :=
  1 + balance_sum (take q arities).

(** The balance first reaches zero at the 1-indexed position [p]. *)
Definition first_zero_at (arities : list Z) (p : nat) : Prop :=
  (0 < p <= length arities)%nat /\
  balance_after arities p = 0 /\
  forall q : nat, (0 < q < p)%nat -> balance_after arities q <> 0.

(** [dangling = 1 + np.cumsum(arities - 1)]. *)
Definition dangling_of (arities : list Z) : list Z :=
  map (fun c => 1 + c) (Np.cumsum (map (fun a => a - 1) arities)).

(** [dangling == 0], elementwise. *)
Definition is_zero (dangling : list Z) : list bool :=
  map (fun d => d =? 0) dangling.

(* ===================================================================== *)
(** ** [DEAP_to_tokens] (lines 166-196) *)
(* ===================================================================== *)

Section Codec.

Variable lib : Library.

(** The value stored in [tokens[i]] for node [t] (lines 179-190). The two
    constant names are tested with [is]; a terminal whose name has the text
    of one of them but is another object falls through to [int(t.name[3:])].
    A string stored in an integer cell is parsed as [int()] does. *)
Definition token_of_node (t : node) : result Z :=
  match t with
  | Terminal name value =>
      if is_literal name "user_const" then
        match value with
        | VFloat f => Np.store_float_int32 f
        | VStr s => z <- py_int s ;; Np.store_int32 z
        end
      else if is_literal name "mutable_const" then
        match const_token lib with
        | Some c => Np.store_int32 c
        | None => Raise TypeError
        end
      else z <- py_int (string_drop 3 (text name)) ;; Np.store_int32 z
  | Primitive name _ =>
      i <- list_index name (names lib) ;; Np.store_int32 i
  end.

(** The loop [for i in range(l)] writing [tokens[i]]. *)
Fixpoint fill_tokens (individual : Individual) (range : list nat)
  (tokens : list Z) : result (list Z) :=
  match range with
  | [] => Ok tokens
  | i :: rest =>
      t <- Py.index individual (Z.of_nat i) ;;
      v <- token_of_node t ;;
      fill_tokens individual rest (<[i := v]> tokens)
  end.

(** [[Program.library.arities[t] for t in tokens]]. *)
Definition arities_of (tokens : list Z) : result (list Z) :=
  mapM (Py.index (arities lib)) tokens.

Definition DEAP_to_tokens (individual : Individual) (tokens_size : nat)
  : result (list Z * Z) :=
  let l := Nat.min (length individual) tokens_size in
  let tokens := replicate tokens_size 0 in
  tokens <- fill_tokens individual (seq 0 l) tokens ;;
  arities <- arities_of tokens ;;
  let dangling := dangling_of arities in
  am <- Np.argmax (is_zero dangling) ;;
  let expr_length := 1 + am in
  Ok (tokens, expr_length).

(* ===================================================================== *)
(** ** [tokens_to_DEAP] (lines 199-306) *)
(* ===================================================================== *)

(** The index of the first input-variable token, the default terminal. *)
Fixpoint first_input (es : list entry) : option nat :=
  match es with
  | [] => None
  | EInt _ :: _ => Some 0%nat
  | _ :: rest => S <$> first_input rest
  end.

(** Modelled from the spec: [_finish_tokens] of [dsr.program] is not part of
    the sources at hand. Following the spec's [complete] and the docstring of
    [tokens_to_DEAP]: the arity balance is computed left to right; a sequence
    whose balance reaches 0 is cut after the first such position; one whose
    balance never reaches 0 is closed by appending the first input-variable
    token once per remaining dangling slot. *)
Definition _finish_tokens (tokens : list Z) : result (list Z) :=
  arities <- arities_of tokens ;;
  let dangling := dangling_of arities in
  match Np.first_true (is_zero dangling) with
  | Some p => Ok (take (S p) tokens)
  | None =>
      match first_input (entries lib) with
      | Some x1 =>
          Ok (tokens ++ replicate (Z.to_nat (List.last dangling 1)) (Z.of_nat x1))
      | None => Raise ValueError
      end
  end.

(** [primitive_set.mapping]: the nodes of the primitive set by key. The
    objects in it are shared by every tree that refers to them, so a tree
    under construction is a list of keys, read through the mapping.
    [p.value = v] needs a terminal: a primitive has no such slot. *)
Definition set_value (p : node) (v : pyvalue) : result node :=
  match p with
  | Terminal name _ => Ok (Terminal name v)
  | Primitive _ _ => Raise AttributeError
  end.

Definition mapping_get (mapping : gmap string node) (key : string)
  : result node :=
  match mapping !! key with
  | Some p => Ok p
  | None => Raise KeyError
  end.

(** One turn of the loop of lines 246-297: the state is the mapping (whose
    constant terminals are assigned to) and [plist] as a list of keys. *)
Definition translate (st : gmap string node * list string) (t : Z)
  : result (gmap string node * list string) :=
  let mapping := fst st in
  let plist := snd st in
  nd <- Py.index (entries lib) t ;;
  match nd with
  | EFloat v =>
      p <- mapping_get mapping "user_const" ;;
      p' <- set_value p (VFloat v) ;;
      Ok (<["user_const" := p']> mapping, plist ++ ["user_const"])
  | EStr _ =>
      p <- mapping_get mapping "mutable_const" ;;
      p' <- set_value p (VFloat 1) ;;
      Ok (<["mutable_const" := p']> mapping, plist ++ ["mutable_const"])
  | EInt n =>
      let key := "x" +:+ pretty (n + 1) in
      _ <- mapping_get mapping key ;;
      Ok (mapping, plist ++ [key])
  | EFunc name =>
      _ <- mapping_get mapping name ;;
      Ok (mapping, plist ++ [name])
  end.

Fixpoint translate_all (st : gmap string node * list string) (tokens : list Z)
  : result (gmap string node * list string) :=
  match tokens with
  | [] => Ok st
  | t :: rest => st' <- translate st t ;; translate_all st' rest
  end.

(** Returns the tree, read through the mapping as it is when the function
    returns, and that mapping. *)
Definition tokens_to_DEAP (tokens : list Z) (mapping : gmap string node)
  : result (Individual * gmap string node) :=
  tokens <- _finish_tokens tokens ;;
  st <- translate_all (mapping, []) tokens ;;
  individual <- mapM (mapping_get (fst st)) (snd st) ;;
  Ok (individual, fst st).

End Codec.

(** A node has no token, and the attempt to compute one raises [e]: a
    primitive whose name the library does not list ([names.index] raises
    [ValueError]); a terminal that is the constant placeholder when the
    library has no constant token (storing [None] raises [TypeError]); a
    terminal that is neither of the two constants for the [is] tests and
    whose name, from its fourth character on, is not the text of an
    integer ([int] raises [ValueError]). *)
Inductive no_token (lib : Library) : node -> exn -> Prop :=
| no_token_primitive (name : string) (arity : nat) :
    name ∉ names lib ->
    no_token lib (Primitive name arity) ValueError
| no_token_placeholder (value : pyvalue) :
    const_token lib = None ->
    no_token lib (Terminal "mutable_const" value) TypeError
| no_token_name (name : pystr) (value : pyvalue) :
    is_literal name "user_const" = false ->
    is_literal name "mutable_const" = false ->
    py_int (string_drop 3 (text name)) = Raise ValueError ->
    no_token lib (Terminal name value) ValueError.

(* ===================================================================== *)
(** ** [generate_priors] (lines 310-383) *)
(* ===================================================================== *)

(** The [float32] matrix [priors], as the list of its rows. *)
Abbreviation matrix := (list (list float)).

(** A numpy index into an axis of size [n]. *)
Definition norm_index (n : nat) (i : Z) : result nat :=
  let j := if i <? 0 then i + Z.of_nat n else i in
  if (0 <=? j) && (j <? Z.of_nat n) then Ok (Z.to_nat j) else Raise IndexError.

Fixpoint mask_row (row : list float) (cols : list Z) : result (list float) :=
  match cols with
  | [] => Ok row
  | c :: rest =>
      c' <- norm_index (length row) c ;;
      mask_row (<[c' := neg_infinity]> row) rest
  end.

(** [priors[r, cols] = -np.inf]. *)
Definition mask (priors : matrix) (r : Z) (cols : list Z) : result matrix :=
  r' <- norm_index (length priors) r ;;
  match priors !! r' with
  | Some row => row' <- mask_row row cols ;; Ok (<[r' := row']> priors)
  | None => Raise IndexError
  end.

(** [t in tokens] for an index array. *)
Definition member (t : Z) (l : list Z) : bool := bool_decide (t ∈ l).

Section Priors.

Variable lib : Library.

(** The variables the loop updates. [const_tokens] and [offset = 1] are
    constant in the code that is not commented out. *)
Record prior_state : Type := PriorState {
  st_priors : matrix;
  st_trig : trig_state;
  st_dangling : Z
}.

(** Lines 337-347. *)
Definition trig_step (t : Z) (tr : trig_state) : trig_state :=
  if member t (trig_tokens lib) then TrigState true 1
  else if trig_descendant tr then
    trig_under (member t (binary_tokens lib)) (member t (unary_tokens lib))
               (trig_dangling tr)
  else tr.

(** Lines 375-381. *)
Definition mask_late (max_len i dangling : Z) (P : matrix) : result matrix :=
  if i + 2 >=? max_len / 2 then
    let remaining := max_len - (i + 1) in
    if dangling >=? remaining - 1 then mask P (i + 1) (binary_tokens lib)
    else if dangling =? remaining then mask P (i + 1) (unary_tokens lib)
    else Ok P
  else Ok P.

(** The body of the loop for token [t] at position [i] of [len_tokens]. *)
Definition priors_step (len_tokens max_len min_len i t : Z) (st : prior_state)
  : result prior_state :=
  a <- Py.index (arities lib) t ;;
  let dangling := st_dangling st + (a - 1) in
  if i <? len_tokens - 1 then
    let tr := trig_step t (st_trig st) in
    P1 <- (if trig_descendant tr then mask (st_priors st) (i + 1) (trig_tokens lib)
           else Ok (st_priors st)) ;;
    P2 <- (match inverse_tokens lib !! t with
           | Some u => mask P1 (i + 1) [u]
           | None => Ok P1
           end) ;;
    P3 <- (if (i + 2 <? min_len) && (dangling =? 1)
           then mask P2 (i + 1) (terminal_tokens lib)
           else Ok P2) ;;
    P4 <- mask_late max_len i dangling P3 ;;
    Ok (PriorState P4 tr dangling)
  else Ok (PriorState (st_priors st) (st_trig st) dangling).

Fixpoint priors_loop (len_tokens max_len min_len i : Z) (tokens : list Z)
  (st : prior_state) : result prior_state :=
  match tokens with
  | [] => Ok st
  | t :: rest =>
      st' <- priors_step len_tokens max_len min_len i t st ;;
      priors_loop len_tokens max_len min_len (i + 1) rest st'
  end.

Definition generate_priors (tokens : list Z) (max_exp_length : nat)
  (expr_length max_const max_len min_len : Z) : result matrix :=
  let priors := replicate max_exp_length (replicate (L lib) 0%float) in
  priors <- mask priors 0 (terminal_tokens lib) ;;
  st <- priors_loop (Z.of_nat (length tokens)) max_len min_len 0 tokens
          (PriorState priors trig_init 1) ;;
  Ok (st_priors st).

End Priors.

(* ===================================================================== *)
(** ** The objective of the constant optimiser (lines 426-470) *)
(* ===================================================================== *)

(** The objects passed positionally to [_set_const_individuals]. *)
Inductive pyarg : Type :=
| ASelf
| AIdxs (const_idxs : list Z)
| AConsts (consts : list float)
| AInd (individual : Individual).

(** [individual[i] = gp.Terminal(const, False, object)] followed by the
    renaming, for each pair of [zip(const_idxs, consts)]. DEAP refuses to
    replace a node by one of another arity. *)
Fixpoint set_consts (pairs : list (Z * float)) (individual : Individual)
  : result Individual :=
  match pairs with
  | [] => Ok individual
  | (i, const) :: rest =>
      old <- Py.index individual i ;;
      k <- norm_index (length individual) i ;;
      if (node_arity old =? 0)%nat then
        set_consts rest (<[k := Terminal "mutable_const" (VFloat const)]> individual)
      else Raise ValueError
  end.

(** The function [_set_const_individuals] applied to its positional
    arguments, [self] first: it has four parameters. *)
Definition _set_const_individuals (args : list pyarg) : result Individual :=
  match args with
  | [ASelf; AIdxs const_idxs; AConsts consts; AInd individual] =>
      set_consts (zip const_idxs consts) individual
  | _ => Raise TypeError
  end.

(** [np.finfo(np.float).max]. *)
Definition float_max : float := 0x1.fffffffffffffp+1023%float.

(** [np.isfinite]. *)
Definition isfinite (f : float) : bool :=
  match Prim2SF f with
  | S754_zero _ => true
  | S754_finite _ _ _ => true
  | S754_infinity _ => false
  | S754_nan => false
  end.

Section Objective.

(** [self.toolbox.compile]: compiling may raise, and so may the compiled
    function on the training inputs. *)
Variable compile : Individual -> result (list (list float) -> result (list float)).
Variable X_train : list (list float).
Variable y_train : list float.

(** [np.mean((y - y_hat)**2)]. *)
Variable mean_squared_diff : list float -> list float -> float.

(** The variables of the enclosing [__call__] that the closure can see. *)
Variable individual : Individual.
Variable const_idxs : list Z.

Definition obj_closure : gmap string pyarg :=
  {[ "self" := ASelf;
     "const_idxs" := AIdxs const_idxs;
     "individual" := AInd individual ]}.

(** The parameter of [obj] and the names its body assigns (lines 451-464):
    Python makes exactly these names local to [obj]. *)
Definition obj_params : list string := ["consts"].
Definition obj_assigned : list string := ["individual"; "f"; "y_hat"; "y"; "res"].

(** Reading a name inside [obj]: a local name is read from the frame of the
    call and is unbound until assigned, whatever the enclosing scope holds;
    any other name is read from the closure. *)
Definition load (locals : gmap string pyarg) (name : string) : result pyarg :=
  if bool_decide (name ∈ obj_params ++ obj_assigned) then
    match locals !! name with
    | Some v => Ok v
    | None => Raise UnboundLocalError
    end
  else
    match obj_closure !! name with
    | Some v => Ok v
    | None => Raise NameError
    end.

(** [obj(consts)]. Line 451 evaluates the four arguments left to right, then
    calls the bound method, which passes [self] in front of them, and only
    then assigns [individual]. *)
Definition obj (consts : list float) : result float :=
  let locals : gmap string pyarg := {[ "consts" := AConsts consts ]} in
  args <- mapM (load locals) ["self"; "const_idxs"; "consts"; "individual"] ;;
  new_individual <- _set_const_individuals (ASelf :: args) ;;
  let locals := <["individual" := AInd new_individual]> locals in
  expr <- load locals "individual" ;;
  match expr with
  | AInd expr =>
      f <- compile expr ;;
      match f X_train with
      | Raise _ => Ok float_max
      | Ok y_hat =>
          let res := mean_squared_diff y_train y_hat in
          if isfinite res then Ok res else Ok float_max
      end
  | _ => Raise TypeError
  end.

End Objective.

(* ===================================================================== *)
(** ** A concrete library and primitive set *)
(* ===================================================================== *)

(** The name tables of [dsr.functions] restricted to the operators below. *)
Definition example_UNARY : list string := ["sin"; "cos"; "log"; "exp"; "neg"].
Definition example_BINARY : list string := ["add"; "mul"].

(** Tokens [x1, add, sin, log, exp, neg, const] in index order. *)
Definition example_lib : Library := {|
  entries := [EInt 0; EFunc "add"; EFunc "sin"; EFunc "log"; EFunc "exp";
              EFunc "neg"; EStr "const"];
  names := ["x1"; "add"; "sin"; "log"; "exp"; "neg"; "const"];
  arities := [0; 2; 1; 1; 1; 1; 0];
  const_token := Some 6;
  L := 7;
  terminal_tokens := [0; 6];
  unary_tokens := [2; 3; 4; 5];
  binary_tokens := [1];
  trig_tokens := [2];
  inverse_tokens := {[ 3 := 4; 4 := 3; 5 := 5 ]}
|}.

(** The primitive set DEAP builds for it: one argument renamed to [x1], the
    operators, and the two constant terminals registered by name. *)
Definition example_pset : gmap string node :=
  list_to_map
    [("x1", Terminal "ARG0" (VStr "x1"));
     ("add", Primitive "add" 2); ("sin", Primitive "sin" 1);
     ("log", Primitive "log" 1); ("exp", Primitive "exp" 1);
     ("neg", Primitive "neg" 1);
     ("mutable_const", Terminal "mutable_const" (VStr "mutable_const"));
     ("user_const", Terminal "user_const" (VStr "user_const"))].

(* ===================================================================== *)
(** ** The validators as the specification words them *)
(* ===================================================================== *)

(** Inverse adjacency: some token at position [i] has a registered inverse
    and the token at position [i + 1] is exactly that inverse. *)
Definition inverse_adjacent (names : list string) : Prop :=
  exists (i : nat) (t u : string),
    names !! i = Some t /\
    dict_get INVERSE_TOKENS t = Some u /\
    names !! S i = Some u.

Section NestedTrig.

Variables UNARY_TOKENS BINARY_TOKENS : list string.

(** What a token adds to the number of open operand slots: a binary token
    opens one more, a unary token keeps the count, any other token fills
    one. *)
Definition local_delta (name : string) : Z :=
  if bool_decide (name ∈ BINARY_TOKENS) then 1
  else if bool_decide (name ∈ UNARY_TOKENS) then 0
  else -1.

(** The local arity balance of a trig token's subtree after the tokens
    [mid] that follow the trig token. *)
Definition local_sum (mid : list string) : Z :=
  foldr Z.add 0 (map local_delta mid).

Definition local_balance (mid : list string) : Z := 1 + local_sum mid.

(** The subtree is still open after [mid]: the balance has not returned to
    zero at any point of [mid]. *)
Definition still_open (mid : list string) : Prop :=
  forall k : nat, (0 < k <= length mid)%nat -> local_balance (take k mid) <> 0.

(** Nested trig: a trig token [t2] occurs while the subtree of an earlier
    trig token [t1] is still open. *)
Definition nested_trig (names : list string) : Prop :=
  exists (pre : list string) (t1 : string) (mid : list string) (t2 : string)
         (post : list string),
    names = pre ++ t1 :: mid ++ t2 :: post /\
    t1 ∈ TRIG_TOKENS /\ t2 ∈ TRIG_TOKENS /\ still_open mid.

End NestedTrig.

(* ===================================================================== *)
(** ** Reading the mask matrix *)
(* ===================================================================== *)

(** An entry is [-inf]. *)
Definition is_neg_inf (v : float) : bool :=
  match Prim2SF v with
  | S754_infinity true => true
  | _ => false
  end.

(** Column [c] of a row holds [-inf]. *)
Definition entry_masked (row : list float) (c : nat) : bool :=
  match row !! c with
  | Some v => is_neg_inf v
  | None => false
  end.

(** [priors[r, c] == -inf]: token [c] is forbidden at position [r]. *)
Definition masked (P : matrix) (r c : nat) : bool :=
  match P !! r with
  | Some row => entry_masked row c
  | None => false
  end.

(** Every token of the sequence is allowed by the mask at its position. *)
Definition permitted (P : matrix) (tokens : list Z) : Prop :=
  forall (i : nat) (t : Z), tokens !! i = Some t -> masked P i (Z.to_nat t) = false.

Definition permittedb (P : matrix) (tokens : list Z) : bool :=
  forallb (fun it => negb (masked P (fst it) (Z.to_nat (snd it))))
          (enumerate tokens).

Section LibraryNames.

Variables UNARY_TOKENS BINARY_TOKENS : list string.
Variable lib : Library.

(** The name of a token index. *)
Definition token_name (t : Z) : option string :=
  if 0 <=? t then names lib !! Z.to_nat t else None.

(** The names of a token sequence; [None] if some index has no name. *)
Fixpoint token_names (tokens : list Z) : option (list string) :=
  match tokens with
  | [] => Some []
  | t :: rest =>
      match token_name t, token_names rest with
      | Some a, Some l => Some (a :: l)
      | _, _ => None
      end
  end.

(** The library's index sets agree, at token [t], with the name tables the
    validators use: trig, binary and unary membership, and every inverse
    pair of [INVERSE_TOKENS] among the library's names is registered in the
    library's inverse map. *)
Definition consistent_at (t : Z) : bool :=
  match token_name t with
  | None => true
  | Some a =>
      Bool.eqb (member t (trig_tokens lib)) (bool_decide (a ∈ TRIG_TOKENS)) &&
      Bool.eqb (member t (binary_tokens lib)) (bool_decide (a ∈ BINARY_TOKENS)) &&
      Bool.eqb (member t (unary_tokens lib)) (bool_decide (a ∈ UNARY_TOKENS)) &&
      forallb (fun u =>
                 match token_name u, dict_get INVERSE_TOKENS a with
                 | Some b, Some b' =>
                     if String.eqb b b'
                     then bool_decide (inverse_tokens lib !! t = Some u)
                     else true
                 | _, _ => true
                 end)
              (seqZ 0 (Z.of_nat (length (names lib))))
  end.

Definition library_consistent : bool :=
  forallb consistent_at (seqZ 0 (Z.of_nat (length (names lib)))).

(** The trig state of [generate_priors] after a run of tokens. *)
Definition trig_run (tr : trig_state) (tokens : list Z) : trig_state :=
  fold_left (fun tr t => trig_step lib t tr) tokens tr.

End LibraryNames.

(* ===================================================================== *)
(** ** Well-formed trees for the codec *)
(* ===================================================================== *)

(** The arities of the nodes of a tree, in prefix order. *)
Definition node_arities (ind : Individual) : list Z :=
  map (fun nd => Z.of_nat (node_arity nd)) ind.

(** A tree is arity-balanced: the running balance of its nodes reaches zero
    at its last node and not before. *)
Definition balanced (ind : Individual) : Prop :=
  first_zero_at (node_arities ind) (length ind).

(** A node is an optimisable constant: a terminal called [mutable_const]. *)
Definition is_mutable_const (nd : node) : bool :=
  match nd with
  | Terminal name _ => String.eqb (text name) "mutable_const"
  | Primitive _ _ => false
  end.

(** The key under which [tokens_to_DEAP] looks up a library entry that is an
    input variable or a function. *)
Definition entry_key (e : entry) : option string :=
  match e with
  | EInt n => Some ("x" +:+ pretty (n + 1))
  | EFunc name => Some name
  | EFloat _ => None
  | EStr _ => None
  end.

(** A node is registered in the library and the primitive set. This is a
    condition on the tables, as [Program.library] and the primitive set are
    set up, not on what the codec computes:
    - a primitive is listed in [names], the first position [t] with its name
      holds the function of that name with the node's arity, and the
      primitive set holds the node under that name;
    - a terminal called [mutable_const] has the interned name, the library
      has a constant token whose entry is the placeholder, of arity 0, and
      the primitive set holds a terminal under [mutable_const];
    - any other terminal is an argument: its name is [ARG<n>], token [n] of
      the library is the input variable [n], of arity 0, and the primitive
      set holds the node under [x<n+1>], the name it was renamed to.
    Token indices are below [2^31], the range of the cells. A terminal
    called [user_const] is not registered. *)
Definition registered (lib : Library) (mapping : gmap string node) (nd : node)
  : Prop :=
  match nd with
  | Primitive name arity =>
      exists t : nat,
        names lib !! t = Some name /\
        (forall j : nat, (j < t)%nat -> names lib !! j <> Some name) /\
        Z.of_nat t < 2 ^ 31 /\
        entries lib !! t = Some (EFunc name) /\
        arities lib !! t = Some (Z.of_nat arity) /\
        mapping !! name = Some nd
  | Terminal name _ =>
      if String.eqb (text name) "mutable_const" then
        interned name = true /\
        exists (c : Z) (s : string) (v0 : pyvalue),
          const_token lib = Some c /\ - 2 ^ 31 <= c < 2 ^ 31 /\
          Py.index (entries lib) c = Ok (EStr s) /\
          Py.index (arities lib) c = Ok 0 /\
          mapping !! "mutable_const" = Some (Terminal "mutable_const" v0)
      else
        exists n : nat,
          text name = "ARG" +:+ pretty (Z.of_nat n) /\
          Z.of_nat n < 2 ^ 31 /\
          entries lib !! n = Some (EInt (Z.of_nat n)) /\
          arities lib !! n = Some 0 /\
          mapping !! ("x" +:+ pretty (Z.of_nat n + 1)) = Some nd
  end.

(** What the round trip makes of a node: an optimisable constant comes back
    with the value 1.0, every other node as it was. *)
Definition reset_const (nd : node) : node :=
  if is_mutable_const nd then Terminal "mutable_const" (VFloat 1) else nd.

(* ===================================================================== *)
(** ** The state of [tokens_to_DEAP] on registered nodes *)
(* ===================================================================== *)

Section Registered.

Variable lib : Library.
Variable mapping : gmap string node.

(** The entry of a token leads back to a node. *)
Definition leads_back (t : Z) (nd : node) : Prop :=
  exists e, Py.index (entries lib) t = Ok e /\
    if is_mutable_const nd then
      (exists s, e = EStr s) /\
      (exists v0, mapping !! "mutable_const" = Some (Terminal "mutable_const" v0))
    else
      exists key, entry_key e = Some key /\ mapping !! key = Some nd.

(** The mapping while [tokens_to_DEAP] runs: untouched, or with the shared
    constant terminal set to 1.0. *)
Definition mapping_inv (M : gmap string node) : Prop :=
  M = mapping \/
  (M = <["mutable_const" := Terminal "mutable_const" (VFloat 1)]> mapping /\
   exists v0, mapping !! "mutable_const" = Some (Terminal "mutable_const" v0)).

(** The key appended to [plist] for a node. *)
Definition key_of (key : string) (nd : node) : Prop :=
  if is_mutable_const nd then key = "mutable_const"
  else mapping !! key = Some nd.

End Registered.

(* ===================================================================== *)
(** ** Sample operators and trees *)
(* ===================================================================== *)

(** A mutation that wraps its argument in one more [sin]. *)
Definition wrap_in_sin (args : list Individual) (g : rng)
  : result (list Individual * rng) :=
  Ok (map (fun ind => Primitive "sin" 1 :: ind) args, g).

(** The argument terminal of the primitive set. *)
Definition x1_node : node := Terminal "ARG0" (VStr "x1").

(** [add(c, x1)] with the constant set to 2.5 by the optimiser. *)
Definition const_tree : Individual :=
  [Primitive "add" 2; Terminal "mutable_const" (VFloat 2.5); x1_node].

(** [log(sin(log(x1)))]. *)
Definition deep_tree : Individual :=
  [Primitive "log" 1; Primitive "sin" 1; Primitive "log" 1; x1_node].

(** [log(log(log(x1)))]. *)
Definition long_tree : Individual :=
  [Primitive "log" 1; Primitive "log" 1; Primitive "log" 1; x1_node].

(* ===================================================================== *)
(** ** The [popConstraint] decorator (lines 138-163) *)
(* ===================================================================== *)

Section PopConstraint.

Variables UNARY_TOKENS BINARY_TOKENS : list string.

(** The wrapped generator applied to the arguments of the call: each call
    may draw random numbers and returns an individual or raises. *)
Variable Args : Type.
Variable func : Args -> rng -> result (Individual * rng).

(** The [while True] loop, run for at most [fuel] turns: [None] when the
    loop is still running after [fuel] calls of [func]. *)
Fixpoint pop_loop (fuel : nat) (args : Args) (g : rng)
  : option (result (Individual * rng)) :=
  match fuel with
  | O => None
  | S fuel' =>
      match func args g with
      | Raise e => Some (Raise e)
      | Ok (inds, g') =>
          let names := map node_name inds in
          if check_inv names then pop_loop fuel' args g'
          else if check_trig UNARY_TOKENS BINARY_TOKENS names then
            pop_loop fuel' args g'
          else Some (Ok (inds, g'))
      end
  end.

End PopConstraint.

(** A generator that alternates between a nested-trig tree and a valid
    one, by the number of draws made so far. *)
Definition alternating_generator (_ : unit) (g : rng)
  : result (Individual * rng) :=
  if Nat.even (consumed g)
  then Ok ([Primitive "sin" 1; Primitive "cos" 1; x1_node],
           Rng (draws g) (S (consumed g)))
  else Ok ([Primitive "sin" 1; x1_node], Rng (draws g) (S (consumed g))).

(* ===================================================================== *)
(** ** The positions of the optimisable constants (line 440) *)
(* ===================================================================== *)

(** [[i for i, node in enumerate(individual) if node.name == "mutable_const"]]. *)
Definition const_idxs_of (individual : Individual) : list Z :=
  map (fun ix => Z.of_nat (fst ix))
      (List.filter (fun ix => String.eqb (node_name (snd ix)) "mutable_const")
                   (enumerate individual)).

(** A pair may be installed: its index is in range and points at a terminal
    called [mutable_const]. *)
Definition installable (individual : Individual) (p : Z * float) : Prop :=
  exists (k : nat) (nd : node),
    norm_index (length individual) (fst p) = Ok k /\
    individual !! k = Some nd /\
    node_arity nd = 0%nat /\ node_name nd = "mutable_const".

(* ===================================================================== *)
(** ** The key that [tokens_to_DEAP] reads for a token *)
(* ===================================================================== *)

(** The key of [primitive_set.mapping] that lines 257, 270, 283 and 295 look
    up for a library entry. *)
Definition entry_target (e : entry) : string :=
  match e with
  | EFloat _ => "user_const"
  | EStr _ => "mutable_const"
  | EInt n => "x" +:+ pretty (n + 1)
  | EFunc name => name
  end.

(** Token [t] is looked up under [key]. *)
Definition key_for (lib : Library) (t : Z) (key : string) : Prop :=
  exists e, Py.index (entries lib) t = Ok e /\ key = entry_target e.

(** A library with two hard-coded constants: tokens [x1, add, 2.0, 3.0]. *)
Definition const_lib : Library := {|
  entries := [EInt 0; EFunc "add"; EFloat 2; EFloat 3];
  names := ["x1"; "add"; "2.0"; "3.0"];
  arities := [0; 2; 0; 0];
  const_token := None;
  L := 4;
  terminal_tokens := [0; 2; 3];
  unary_tokens := [];
  binary_tokens := [1];
  trig_tokens := [];
  inverse_tokens := ∅
|}.

(** What [tokens_to_DEAP] makes of [add(2.0, 3.0)] and how it leaves the
    primitive set. *)
Definition two_constants : Individual :=
  [Primitive "add" 2; Terminal "user_const" (VFloat 3);
   Terminal "user_const" (VFloat 3)].

Definition pset_after_constants : gmap string node :=
  <["user_const" := Terminal "user_const" (VFloat 3)]> example_pset.

(* ===================================================================== *)
(** ** What a mask entry can be due to *)
(* ===================================================================== *)

(** Column [c] belongs to one of the index sets that the loop of
    [generate_priors] can write after token [t]: the trig, terminal or binary
    tokens, or the registered inverse of [t]. *)
Definition rule_column (lib : Library) (t c : Z) : Prop :=
  c ∈ trig_tokens lib \/ c ∈ terminal_tokens lib \/
  c ∈ binary_tokens lib \/ inverse_tokens lib !! t = Some c.

(** The entry at row [r], column [k] is accounted for: in row 0 by a
    terminal token, in row [i + 1] by a rule column after the token at
    position [i], which is not the last one. *)
Definition explained (lib : Library) (tokens : list Z) (r k : nat) : Prop :=
  (r = 0%nat /\
   exists c, c ∈ terminal_tokens lib /\ norm_index (L lib) c = Ok k) \/
  (exists (i : nat) (t c : Z),
      r = S i /\ tokens !! i = Some t /\ (S i < length tokens)%nat /\
      rule_column lib t c /\ norm_index (L lib) c = Ok k).

(** The matrix has its shape and holds nothing but zeros and accounted-for
    [-inf] entries. *)
Definition priors_inv (lib : Library) (tokens : list Z) (n : nat) (P : matrix)
  : Prop :=
  length P = n /\
  Forall (fun row => length row = L lib) P /\
  forall (r : nat) (row : list float) (k : nat) (v : float),
    P !! r = Some row -> row !! k = Some v ->
    v = 0%float \/ (v = neg_infinity /\ explained lib tokens r k).

(* ===================================================================== *)
(** ** [check_const] (lines 55-64) *)
(* ===================================================================== *)

(** [sub in s] on strings. *)
Fixpoint contains (sub s : string) : bool :=
  String.prefix sub s ||
  match s with
  | EmptyString => false
  | String _ s' => contains sub s'
  end.

Section CheckConst.

Variables UNARY_TOKENS BINARY_TOKENS : list string.

(** ["const" in names[j]]; the subscript raises past the end. *)
Definition const_child (names : list string) (j : nat) : result bool :=
  child <- Py.index names (Z.of_nat j) ;;
  Ok (contains "const" child).

(** The two tests of the loop body at position [i]; [and] reads
    [names[i+2]] only when [names[i+1]] passed. *)
Definition check_const_at (names : list string) (ix : nat * string)
  : result bool :=
  unary_hit <- (if bool_decide (snd ix ∈ UNARY_TOKENS)
                then const_child names (fst ix + 1)
                else Ok false) ;;
  if unary_hit then Ok true
  else if bool_decide (snd ix ∈ BINARY_TOKENS) then
    first <- const_child names (fst ix + 1) ;;
    if first then const_child names (fst ix + 2) else Ok false
  else Ok false.

Fixpoint check_const_loop (names : list string) (rest : list (nat * string))
  : result bool :=
  match rest with
  | [] => Ok false
  | ix :: rest' =>
      hit <- check_const_at names ix ;;
      if hit then Ok true else check_const_loop names rest'
  end.

Definition check_const (ind : Individual) : result bool :=
  let names := map node_name ind in
  check_const_loop names (enumerate names).

(** Position [i] holds a unary name followed by a name with [const] in it,
    or a binary name followed by two such names. *)
Definition const_parent (names : list string) (i : nat) : Prop :=
  exists name, names !! i = Some name /\
    ((name ∈ UNARY_TOKENS /\
      exists c, names !! (i + 1)%nat = Some c /\ contains "const" c = true) \/
     (name ∈ BINARY_TOKENS /\
      exists c1 c2, names !! (i + 1)%nat = Some c1 /\
                    names !! (i + 2)%nat = Some c2 /\
                    contains "const" c1 = true /\ contains "const" c2 = true)).

(** Position [i] reads past the end of the list: it is the last one and
    holds a unary or binary name, or it is the last but one, holds a binary
    name and is followed by a name with [const] in it. *)
Definition reads_past_end (names : list string) (i : nat) : Prop :=
  exists name, names !! i = Some name /\
    (((i + 1)%nat = length names /\
      (name ∈ UNARY_TOKENS \/ name ∈ BINARY_TOKENS)) \/
     ((i + 2)%nat = length names /\ name ∈ BINARY_TOKENS /\
      exists c, names !! (i + 1)%nat = Some c /\ contains "const" c = true)).

End CheckConst.

(* ===================================================================== *)
(** ** [GenericEvaluate.__call__] (lines 434-480) *)
(* ===================================================================== *)

(** The data a fitness is computed on. *)
Inductive split : Set := Train | Test.

Section Call.

Variable compile : Individual -> result (list (list float) -> result (list float)).
Variable X_train : list (list float).
Variable y_train : list float.
Variable mean_squared_diff : list float -> list float -> float.

(** The attributes of [self] that [__call__] reads; [toolbox] is set, so
    the assertion of line 436 passes. *)
Variable optimize : bool.
Variable early_stopping : bool.
Variable hof : list Individual.
Variable threshold : float.

(** [self._finish_eval] of [gp_base], on the training or the test data: it
    returns the fitness tuple or raises. *)
Variable _finish_eval : Individual -> split -> result (list float).

(** [self.const_opt]: it is handed the objective and the starting point and
    returns the optimised constants or raises. *)
Variable const_opt : (list float -> result float) -> list float -> result (list float).

(** The condition of line 446; [and] evaluates left to right and stops at
    the first false operand. *)
Definition early_stop : result bool :=
  if early_stopping then
    if (0 <? length hof)%nat then
      best <- Py.index hof 0 ;;
      fitness <- _finish_eval best Test ;;
      error <- Py.index fitness 0 ;;
      Ok (PrimFloat.ltb error threshold)
    else Ok false
  else Ok false.

Definition __call__ (individual : Individual) : result (list float) :=
  let const_idxs := const_idxs_of individual in
  stop <- (if optimize then early_stop else Ok false) ;;
  if stop then Ok [1%float]
  else if optimize && (0 <? length const_idxs)%nat then
    let x0 := replicate (length const_idxs) 1%float in
    optimized_consts <-
      const_opt (obj compile X_train y_train mean_squared_diff
                     individual const_idxs) x0 ;;
    individual' <-
      _set_const_individuals
        [ASelf; ASelf; AIdxs const_idxs; AConsts optimized_consts;
         AInd individual] ;;
    _finish_eval individual' Train
  else _finish_eval individual Train.

End Call.

(* ===================================================================== *)
(** ** [convert_inverse_prim] and [stringify_for_sympy] (lines 554-591) *)
(* ===================================================================== *)

(** A template [a {} b {} c] formatted with the arguments: the two fields
    take the first two arguments, further ones are ignored, a missing one
    raises. *)
Definition format2 (a b c : string) (args_ : list string) : result string :=
  match args_ with
  | x :: y :: _ => Ok (a +:+ x +:+ b +:+ y +:+ c)
  | _ => Raise IndexError
  end.

(** A template without fields formats to itself. *)
Definition format0 (a : string) (args_ : list string) : result string := Ok a.

(** The dict [converter] of line 564. *)
Definition converter : list (string * (list string -> result string)) :=
  [("sub", format2 "Add(" ", Mul(-1," "))");
   ("protectedDiv", format2 "Mul(" ", Pow(" ", -1))");
   ("div", format2 "Mul(" ", Pow(" ", -1))");
   ("mul", format2 "Mul(" "," ")");
   ("add", format2 "Add(" "," ")");
   ("inv", format0 "Pow(-1)");
   ("neg", format0 "Mul(-1)")].

Fixpoint converter_get (d : list (string * (list string -> result string)))
  (name : string) : option (list string -> result string) :=
  match d with
  | [] => None
  | (k, v) :: rest => if String.eqb k name then Some v else converter_get rest name
  end.

Section Stringify.

(** [str] of a float; [repr] gives the same text for the floats of Python
    and of the numpy versions that still have [np.float]. *)
Variable float_str : float -> string.

(** [Terminal.format]: the conversion applied to the value; a terminal
    registered by name holds its name as value. *)
Definition terminal_format (value : pyvalue) : string :=
  match value with
  | VStr s => s
  | VFloat f => float_str f
  end.

(** The [format] method of a node. A primitive fills the template
    [name({0}, ..., {arity-1})]; a terminal takes no argument. *)
Definition node_format (nd : node) (args : list string) : result string :=
  match nd with
  | Primitive name arity =>
      if (arity <=? length args)%nat
      then Ok (name +:+ "(" +:+ String.concat ", " (take arity args) +:+ ")")
      else Raise IndexError
  | Terminal _ value =>
      match args with
      | [] => Ok (terminal_format value)
      | _ :: _ => Raise TypeError
      end
  end.

(** The formatter is [converter.get(prim.name, prim.format)], applied to
    the arguments. *)
Definition convert_inverse_prim (prim : node) (args : list string)
  : result string :=
  match converter_get converter (node_name prim) with
  | Some prim_formatter => prim_formatter args
  | None => node_format prim args
  end.

(** An entry of [stack]: a node and the strings of its operands so far. The
    head of the list is the top of the stack. *)
Definition frame : Type := node * list string.

(** The [while] loop from the point where a pop has produced [str]: with an
    empty stack it breaks, else [str] is appended to the top entry, which is
    popped in turn when that completes it. *)
Fixpoint deliver (str : string) (stack : list frame)
  : result (string * list frame) :=
  match stack with
  | [] => Ok (str, [])
  | (prim, args) :: rest =>
      let args := args ++ [str] in
      if (length args =? node_arity prim)%nat then
        str' <- convert_inverse_prim prim args ;;
        deliver str' rest
      else Ok (str, (prim, args) :: rest)
  end.

(** One turn of the [for] loop: push the node with no operands and run the
    [while] loop. *)
Definition visit (nd : node) (st : string * list frame)
  : result (string * list frame) :=
  if (0 =? node_arity nd)%nat then
    str' <- convert_inverse_prim nd [] ;;
    deliver str' (snd st)
  else Ok (fst st, (nd, []) :: snd st).

Fixpoint stringify_loop (f : Individual) (st : string * list frame)
  : result (string * list frame) :=
  match f with
  | [] => Ok st
  | nd :: rest =>
      st' <- visit nd st ;;
      stringify_loop rest st'
  end.

Definition stringify_for_sympy (f : Individual) : result string :=
  st <- stringify_loop f ("", []) ;;
  Ok (fst st).

(** The list [l] is one complete expression in prefix order and [s] is its
    text: the text of the head node applied to the texts of its operands. *)
Inductive renders : Individual -> string -> Prop :=
| renders_node (nd : node) (ls : Individual) (args : list string) (s : string) :
    renders_all ls args ->
    length args = node_arity nd ->
    convert_inverse_prim nd args = Ok s ->
    renders (nd :: ls) s
with renders_all : Individual -> list string -> Prop :=
| renders_nil : renders_all [] []
| renders_cons (l : Individual) (s : string) (ls : Individual)
    (ss : list string) :
    renders l s -> renders_all ls ss -> renders_all (l ++ ls) (s :: ss).

End Stringify.

Scheme renders_mut := Minimality for renders Sort Prop
  with renders_all_mut := Minimality for renders_all Sort Prop.

(** [repr] of the floats used in the examples. *)
Definition example_float_str (f : float) : string :=
  if PrimFloat.eqb f 1 then "1.0" else "2.5".

(* ===================================================================== *)
(** ** The library's tables as a description of its tokens *)
(* ===================================================================== *)

(** Token [t] has arity [a] in the library. *)
Definition arity_is (lib : Library) (t a : Z) : bool :=
  match arities lib !! Z.to_nat t with
  | Some a' => a' =? a
  | None => false
  end.

(** The pair [(t, u)] of the inverse map relates two named tokens whose
    names are an inverse pair of [INVERSE_TOKENS]. *)
Definition inverse_named (lib : Library) (tu : Z * Z) : bool :=
  (0 <=? snd tu) &&
  match token_name lib (fst tu), token_name lib (snd tu) with
  | Some a, Some b =>
      match dict_get INVERSE_TOKENS a with
      | Some b' => String.eqb b b'
      | None => false
      end
  | _, _ => false
  end.

(** The index sets say what they are named for: they hold plain indices,
    every arity is a natural number, the terminal tokens are the tokens of
    arity 0, the binary tokens have arity 2, and the inverse map holds
    nothing but inverse pairs of the name table. *)
Definition library_exact (lib : Library) : bool :=
  forallb (fun c => 0 <=? c)
          (terminal_tokens lib ++ binary_tokens lib ++ trig_tokens lib) &&
  forallb (fun a => 0 <=? a) (arities lib) &&
  forallb (fun t => Bool.eqb (member t (terminal_tokens lib)) (arity_is lib t 0))
          (seqZ 0 (Z.of_nat (length (arities lib)))) &&
  forallb (fun c => arity_is lib c 2) (binary_tokens lib) &&
  forallb (inverse_named lib) (map_to_list (inverse_tokens lib)).

(** A sequence does not start with a terminal token. *)
Definition starts_with_operator (lib : Library) (tokens : list Z) : Prop :=
  forall t, tokens !! 0%nat = Some t -> t ∉ terminal_tokens lib.

(** Why the entry at row [r], column [k] of the mask can be [-inf]: in row 0
    the column is a terminal token; in row [j + 1], with [t] the token at
    position [j], which is not the last one, the column is
    - a trig token, and the trig flag is set after the tokens up to [j];
    - the registered inverse of [t];
    - a terminal token, with [j + 2 < min_len] and a balance of 1 after the
      tokens up to [j];
    - a binary token, with [j + 2 >= max_len // 2] and a balance of at
      least [max_len - (j + 1) - 1] after the tokens up to [j]. *)
Definition column (c : Z) (k : nat) : Prop :=
  exists m : nat, norm_index m c = Ok k.

Definition justified (lib : Library) (tokens : list Z) (max_len min_len : Z)
  (r k : nat) : Prop :=
  (r = 0%nat /\ exists c, c ∈ terminal_tokens lib /\ column c k) \/
  (exists (j : nat) (t : Z) (ars : list Z),
      r = S j /\ tokens !! j = Some t /\ (S j < length tokens)%nat /\
      arities_of lib (take (S j) tokens) = Ok ars /\
      ((exists c, c ∈ trig_tokens lib /\ column c k /\
                  trig_descendant (trig_run lib trig_init (take (S j) tokens))
                  = true) \/
       (exists u, inverse_tokens lib !! t = Some u /\ column u k) \/
       (exists c, c ∈ terminal_tokens lib /\ column c k /\
                  Z.of_nat j + 2 < min_len /\ 1 + balance_sum ars = 1) \/
       (exists c, c ∈ binary_tokens lib /\ column c k /\
                  Z.of_nat j + 2 >= max_len / 2 /\
                  1 + balance_sum ars >= max_len - (Z.of_nat j + 1) - 1))).

(** Every [-inf] entry of the matrix has such a reason. *)
Definition all_justified (lib : Library) (tokens : list Z) (max_len min_len : Z)
  (P : matrix) : Prop :=
  forall r k : nat, masked P r k = true -> justified lib tokens max_len min_len r k.

(* ===================================================================== *)
(** * Properties *)
(* ===================================================================== *)

(** Settles a closed decidable proposition by evaluating its decision. *)
Ltac by_evaluation :=
  match goal with
  | |- ?P => apply (bool_decide_unpack P); vm_compute; exact I
  end.

Example INVERSE_TOKENS_items :
  INVERSE_TOKENS =
  [("exp", "log"); ("neg", "neg"); ("inv", "inv"); ("sqrt", "n2");
   ("sin", "arcsin"); ("cos", "arccos"); ("tan", "arctan");
   ("csc", "arccsc"); ("sec", "arcsec"); ("cot", "arccot");
   ("log", "exp"); ("n2", "sqrt");
   ("arcsin", "sin"); ("arccos", "cos"); ("arctan", "tan");
   ("arccsc", "csc"); ("arcsec", "sec"); ("arccot", "cot")].
Proof. reflexivity. Qed.


(* ===================================================================== *)
(** ** The inverse map *)
(* ===================================================================== *)

Lemma dict_get_In (d : dict) (k v : string) :
  dict_get d k = Some v -> In (k, v) d.
Proof.
  induction d as [|[k' v'] d IH]; simpl; [discriminate|].
  destruct (String.eqb k k') eqn:E.
  - apply String.eqb_eq in E. intros [= ->]. subst. now left.
  - intros H. right. now apply IH.
Qed.

(** C9: the inverse-token map is symmetric: whenever it registers [u] as the
    inverse of [t], it registers [t] as the inverse of [u]. *)
Theorem INVERSE_TOKENS_symmetric (t u : string) :
  dict_get INVERSE_TOKENS t = Some u -> dict_get INVERSE_TOKENS u = Some t.
Proof.
  intros H. apply dict_get_In in H. rewrite INVERSE_TOKENS_items in H.
  simpl in H.
  repeat (destruct H as [[= <- <-]|H]; [reflexivity|]).
  destruct H.
Qed.

Lemma INVERSE_TOKENS_symmetric_witness :
  dict_get INVERSE_TOKENS "exp" = Some "log" /\
  dict_get INVERSE_TOKENS "log" = Some "exp".
Proof.
  split; [reflexivity|].
  apply (INVERSE_TOKENS_symmetric "exp" "log"). reflexivity.
Defined.

(* ===================================================================== *)
(** ** [check_inv] *)
(* ===================================================================== *)

Lemma In_enumerate {A : Type} (l : list A) (i : nat) (x : A) :
  In (i, x) (enumerate l) <-> l !! i = Some x.
Proof.
  unfold enumerate. rewrite <- list_elem_of_In, list_elem_of_lookup. split.
  - intros [j Hj]. apply lookup_zip_with_Some in Hj as (a & b & [= -> ->] & Ha & Hb).
    apply lookup_seq in Ha as [-> _]. exact Hb.
  - intros Hi. exists i. apply lookup_zip_with_Some. exists i, x.
    split; [reflexivity|]. split; [|exact Hi].
    apply lookup_seq. split; [reflexivity|]. now apply lookup_lt_Some in Hi.
Qed.

Lemma but_last_lookup {A : Type} (l : list A) (i : nat) (x : A) :
  but_last l !! i = Some x <-> l !! i = Some x /\ (S i < length l)%nat.
Proof.
  unfold but_last. split.
  - intros H. pose proof (lookup_lt_Some _ _ _ H) as Hlt.
    rewrite length_take in Hlt.
    rewrite lookup_take_lt in H by lia. split; [exact H|lia].
  - intros [H Hlt]. rewrite lookup_take_lt by lia. exact H.
Qed.

Lemma check_inv_sound (names : list string) :
  check_inv names = true -> inverse_adjacent names.
Proof.
  unfold check_inv, inverse_adjacent. rewrite existsb_exists.
  intros [[i t] [Hin Hp]]. apply In_enumerate, but_last_lookup in Hin.
  destruct Hin as [Hi _]. unfold inv_pair_at in Hp. cbn [fst snd] in Hp.
  destruct (dict_get INVERSE_TOKENS t) as [u|] eqn:Hu;
    destruct (names !! S i) as [nxt|] eqn:Hn; try discriminate.
  apply String.eqb_eq in Hp. subst nxt. now exists i, t, u.
Qed.

Lemma check_inv_complete (names : list string) :
  inverse_adjacent names -> check_inv names = true.
Proof.
  unfold check_inv, inverse_adjacent. rewrite existsb_exists.
  intros (i & t & u & Hi & Hu & Hn). exists (i, t). split.
  - apply In_enumerate, but_last_lookup. split; [exact Hi|].
    now apply lookup_lt_Some in Hn.
  - unfold inv_pair_at. cbn [fst snd]. rewrite Hu, Hn. apply String.eqb_refl.
Qed.

(** C7: [check_inv] rejects a name sequence exactly when some token at a
    position [i] has a registered inverse and the token at position [i + 1]
    is that inverse; only consecutive pairs count. *)
Theorem check_inv_spec (names : list string) :
  check_inv names = true <-> inverse_adjacent names.
Proof.
  split.
  - apply check_inv_sound.
  - apply check_inv_complete.
Qed.

(** The scenario of the specification: [exp] directly followed by [log]. *)
Example check_inv_exp_log :
  check_inv ["add"; "exp"; "log"; "x1"] = true /\
  check_inv ["add"; "exp"; "x1"; "log"; "x1"] = false.
Proof. repeat split; reflexivity. Qed.

(* ===================================================================== *)
(** ** [check_trig] *)
(* ===================================================================== *)

Section CheckTrigFacts.

Variables UNARY_TOKENS BINARY_TOKENS : list string.

Local Abbreviation loop := (check_trig_loop UNARY_TOKENS BINARY_TOKENS).
Local Abbreviation delta := (local_delta UNARY_TOKENS BINARY_TOKENS).
Local Abbreviation total := (local_sum UNARY_TOKENS BINARY_TOKENS).
#[local] Arguments check_trig_loop _ _ _ _ : simpl never.

Lemma total_cons (a : string) (l : list string) :
  total (a :: l) = delta a + total l.
Proof. reflexivity. Qed.

Lemma total_nil : total [] = 0.
Proof. reflexivity. Qed.

Lemma trig_under_delta (name : string) (d : Z) :
  trig_under (bool_decide (name ∈ BINARY_TOKENS))
             (bool_decide (name ∈ UNARY_TOKENS)) d
  = TrigState (negb (d + delta name =? 0)) (d + delta name).
Proof.
  unfold trig_under, local_delta.
  destruct (bool_decide (name ∈ BINARY_TOKENS)); [reflexivity|].
  destruct (bool_decide (name ∈ UNARY_TOKENS)); simpl.
  - now rewrite Z.add_0_r.
  - reflexivity.
Qed.

Lemma loop_cons (st : trig_state) (name : string) (rest : list string) :
  loop st (name :: rest) =
  if bool_decide (name ∈ TRIG_TOKENS) then
    if trig_descendant st then true else loop (TrigState true 1) rest
  else if trig_descendant st then
    loop (trig_under (bool_decide (name ∈ BINARY_TOKENS))
                     (bool_decide (name ∈ UNARY_TOKENS))
                     (trig_dangling st)) rest
  else loop st rest.
Proof. reflexivity. Qed.

Lemma loop_cons_trig (st : trig_state) (name : string) (rest : list string) :
  name ∈ TRIG_TOKENS ->
  loop st (name :: rest) =
  if trig_descendant st then true else loop (TrigState true 1) rest.
Proof.
  intros H. rewrite loop_cons. now rewrite bool_decide_eq_true_2.
Qed.

Lemma loop_cons_other (st : trig_state) (name : string) (rest : list string) :
  name ∉ TRIG_TOKENS ->
  loop st (name :: rest) =
  if trig_descendant st
  then loop (TrigState (negb (trig_dangling st + delta name =? 0))
                       (trig_dangling st + delta name)) rest
  else loop st rest.
Proof.
  intros H. rewrite loop_cons. rewrite bool_decide_eq_false_2 by exact H.
  now rewrite trig_under_delta.
Qed.

(** While the subtree of a trig token stays open, the next trig token is
    reported. *)
Lemma loop_open_rejects (mid : list string) :
  forall (d : Z) (t2 : string) (post : list string),
    t2 ∈ TRIG_TOKENS ->
    (forall k : nat, (0 < k <= length mid)%nat -> d + total (take k mid) <> 0) ->
    loop (TrigState true d) (mid ++ t2 :: post) = true.
Proof.
  induction mid as [|a mid IH]; intros d t2 post Ht2 Hopen.
  - simpl. now rewrite loop_cons_trig.
  - simpl. destruct (decide (a ∈ TRIG_TOKENS)) as [Ha|Ha].
    + now rewrite loop_cons_trig.
    + rewrite loop_cons_other by exact Ha. simpl.
      assert (H1 : d + delta a <> 0).
      { specialize (Hopen 1%nat). cbn [take length] in Hopen.
        rewrite take_0, total_cons, total_nil in Hopen. lia. }
      apply Z.eqb_neq in H1. rewrite H1. simpl. apply IH; [exact Ht2|].
      intros k Hk. specialize (Hopen (S k)). cbn [take length] in Hopen.
      rewrite total_cons in Hopen. lia.
Qed.

Lemma nested_trig_rejected (names : list string) :
  nested_trig UNARY_TOKENS BINARY_TOKENS names ->
  forall st, loop st names = true.
Proof.
  intros (pre & t1 & mid & t2 & post & -> & Ht1 & Ht2 & Hopen).
  induction pre as [|a pre IH]; intros st.
  - simpl. rewrite loop_cons_trig by exact Ht1.
    destruct (trig_descendant st); [reflexivity|].
    apply loop_open_rejects; [exact Ht2|].
    intros k Hk. apply (Hopen k Hk).
  - simpl. destruct (decide (a ∈ TRIG_TOKENS)) as [Ha|Ha].
    + rewrite loop_cons_trig by exact Ha.
      destruct (trig_descendant st); [reflexivity|apply IH].
    + rewrite loop_cons_other by exact Ha.
      destruct (trig_descendant st); apply IH.
Qed.

Lemma nested_trig_cons (a : string) (names : list string) :
  nested_trig UNARY_TOKENS BINARY_TOKENS names ->
  nested_trig UNARY_TOKENS BINARY_TOKENS (a :: names).
Proof.
  intros (pre & t1 & mid & t2 & post & -> & H).
  now exists (a :: pre), t1, mid, t2, post.
Qed.

(** What a [True] verdict of the loop means, from any state. *)
Lemma loop_true_inv (names : list string) :
  forall st,
    loop st names = true ->
    (trig_descendant st = true /\
     exists mid t2 post,
       names = mid ++ t2 :: post /\ t2 ∈ TRIG_TOKENS /\
       forall k : nat, (0 < k <= length mid)%nat ->
                       trig_dangling st + total (take k mid) <> 0)
    \/ nested_trig UNARY_TOKENS BINARY_TOKENS names.
Proof.
  induction names as [|a rest IH]; intros st H; [discriminate|].
  destruct (decide (a ∈ TRIG_TOKENS)) as [Ha|Ha].
  - rewrite loop_cons_trig in H by exact Ha.
    destruct (trig_descendant st) eqn:Hd.
    + left. split; [reflexivity|]. exists [], a, rest.
      split; [reflexivity|]. split; [exact Ha|]. simpl. intros k Hk. lia.
    + right. apply IH in H as [[_ (mid & t2 & post & -> & Ht2 & Hopen)]|H].
      * exists [], a, mid, t2, post. split; [reflexivity|].
        split; [exact Ha|]. split; [exact Ht2|].
        intros k Hk. apply (Hopen k Hk).
      * now apply nested_trig_cons.
  - rewrite loop_cons_other in H by exact Ha.
    destruct (trig_descendant st) eqn:Hd.
    + apply IH in H as [[Hd' (mid & t2 & post & -> & Ht2 & Hopen)]|H].
      * left. split; [reflexivity|]. exists (a :: mid), t2, post.
        split; [reflexivity|]. split; [exact Ht2|].
        simpl in Hd', Hopen. apply negb_true_iff, Z.eqb_neq in Hd'.
        intros [|k] Hk; [lia|]. cbn [take]. rewrite total_cons.
        destruct k as [|k].
        -- rewrite take_0, total_nil. lia.
        -- specialize (Hopen (S k)). simpl in Hk. lia.
      * right. now apply nested_trig_cons.
    + apply IH in H as [[Hd' _]|H]; [congruence|].
      right. now apply nested_trig_cons.
Qed.

Lemma check_trig_true (names : list string) :
  check_trig UNARY_TOKENS BINARY_TOKENS names = true <->
  nested_trig UNARY_TOKENS BINARY_TOKENS names.
Proof.
  split.
  - intros H. apply loop_true_inv in H as [[Hd _]|H]; [discriminate|exact H].
  - intros H. now apply nested_trig_rejected.
Qed.

(** Without trig tokens nothing is reported. *)
Lemma loop_trig_free (l : list string) :
  Forall (fun n => n ∉ TRIG_TOKENS) l -> forall st, loop st l = false.
Proof.
  induction 1 as [|a l Ha _ IH]; intros st; [reflexivity|].
  rewrite loop_cons_other by exact Ha. destruct (trig_descendant st); apply IH.
Qed.

Lemma loop_skip_trig_free (l rest : list string) (d : Z) :
  Forall (fun n => n ∉ TRIG_TOKENS) l ->
  loop (TrigState false d) (l ++ rest) = loop (TrigState false d) rest.
Proof.
  induction 1 as [|a l Ha _ IH]; [reflexivity|].
  simpl. now rewrite loop_cons_other by exact Ha.
Qed.

(** Once the subtree of a trig token has closed, the loop is back in the
    state in which no trig ancestor is open. *)
Lemma loop_closed (mid : list string) :
  Forall (fun n => n ∉ TRIG_TOKENS) mid ->
  forall (d : Z) (rest : list string),
    (exists k : nat, (0 < k <= length mid)%nat /\ d + total (take k mid) = 0) ->
    exists d', loop (TrigState true d) (mid ++ rest)
               = loop (TrigState false d') rest.
Proof.
  induction 1 as [|a mid Ha Hmid IH]; intros d rest (k & Hk & Hz);
    [simpl in Hk; lia|].
  simpl. rewrite loop_cons_other by exact Ha. simpl.
  destruct (d + delta a =? 0) eqn:E; simpl.
  - exists (d + delta a). now apply loop_skip_trig_free.
  - apply Z.eqb_neq in E. apply IH.
    destruct k as [|[|k]]; [lia| |].
    + cbn [take] in Hz. rewrite take_0, total_cons, total_nil in Hz. lia.
    + exists (S k). simpl in Hk. split; [lia|].
      cbn [take] in Hz. rewrite total_cons in Hz. lia.
Qed.

Lemma check_trig_after_closed (t1 : string) (mid : list string) (t2 : string)
  (post : list string) :
  t1 ∈ TRIG_TOKENS -> t2 ∈ TRIG_TOKENS ->
  Forall (fun n => n ∉ TRIG_TOKENS) mid ->
  Forall (fun n => n ∉ TRIG_TOKENS) post ->
  (exists k : nat, (0 < k <= length mid)%nat /\
                   local_balance UNARY_TOKENS BINARY_TOKENS (take k mid) = 0) ->
  check_trig UNARY_TOKENS BINARY_TOKENS (t1 :: mid ++ t2 :: post) = false.
Proof.
  intros Ht1 Ht2 Hmid Hpost Hclosed. unfold check_trig.
  rewrite loop_cons_trig by exact Ht1. simpl.
  destruct (loop_closed mid Hmid 1 (t2 :: post) Hclosed) as [d' ->].
  rewrite loop_cons_trig by exact Ht2. simpl.
  now apply loop_trig_free.
Qed.

(** C6: [check_trig] rejects a name sequence exactly when a trig token
    occurs while the subtree of an earlier trig token is still open (its
    local arity balance has not returned to zero). In particular
    [sin, sin, x1] is rejected, and a trig token that comes after the
    subtree of the earlier trig token has closed is no violation. *)
Theorem check_trig_spec :
  (forall names, check_trig UNARY_TOKENS BINARY_TOKENS names = true <->
                 nested_trig UNARY_TOKENS BINARY_TOKENS names) /\
  check_trig UNARY_TOKENS BINARY_TOKENS ["sin"; "sin"; "x1"] = true /\
  (forall t1 mid t2 post,
      t1 ∈ TRIG_TOKENS -> t2 ∈ TRIG_TOKENS ->
      Forall (fun n => n ∉ TRIG_TOKENS) mid ->
      Forall (fun n => n ∉ TRIG_TOKENS) post ->
      (exists k : nat, (0 < k <= length mid)%nat /\
                       local_balance UNARY_TOKENS BINARY_TOKENS (take k mid) = 0) ->
      check_trig UNARY_TOKENS BINARY_TOKENS (t1 :: mid ++ t2 :: post) = false).
Proof.
  split; [exact check_trig_true|]. split; [reflexivity|].
  exact check_trig_after_closed.
Qed.

End CheckTrigFacts.

Lemma check_trig_spec_witness :
  check_trig example_UNARY example_BINARY ["sin"; "sin"; "x1"] = true /\
  check_trig example_UNARY example_BINARY
    ("sin" :: ["x1"] ++ "sin" :: ["x1"]) = false.
Proof.
  pose proof (check_trig_spec example_UNARY example_BINARY) as (_ & Hss & Hclosed).
  split; [exact Hss|].
  apply Hclosed.
  - by_evaluation.
  - by_evaluation.
  - repeat constructor; by_evaluation.
  - repeat constructor; by_evaluation.
  - exists 1%nat. split; [simpl; lia|reflexivity].
Defined.

(* ===================================================================== *)
(** ** The [checkConstraint] decorator *)
(* ===================================================================== *)

Lemma bind_Ok {A B : Type} (m : result A) (k : A -> result B) (b : B) :
  Py.bind m k = Ok b -> exists a, m = Ok a /\ k a = Ok b.
Proof. destruct m as [a|e]; simpl; [eauto|discriminate]. Qed.

(** Unfolds one successful [bind] in hypothesis [H]. *)
Ltac bind_inv H :=
  let a := fresh "a" in
  let Ha := fresh "Ha" in
  apply bind_Ok in H as (a & Ha & H).

Lemma random_choice_elem {A : Type} (l : list A) (g g' : rng) (x : A) :
  random_choice l g = Ok (x, g') -> x ∈ l.
Proof.
  unfold random_choice. destruct l as [|y l]; [discriminate|].
  destruct (_ !! _) as [z|] eqn:E; [|discriminate].
  intros [= <- _]. eapply list_elem_of_lookup_2. exact E.
Qed.

Lemma random_choice_returns {A : Type} (l : list A) (g : rng) :
  l <> [] -> exists x g', random_choice l g = Ok (x, g').
Proof.
  intros Hl. unfold random_choice. destruct l as [|y l]; [congruence|].
  destruct (lookup_lt_is_Some_2 (y :: l)
              (draws g (consumed g) mod length (y :: l))%nat) as [z Hz].
  { apply Nat.mod_upper_bound. simpl. lia. }
  rewrite Hz. eauto.
Qed.

Section CheckConstraintFacts.

Variables UNARY_TOKENS BINARY_TOKENS : list string.
Variables max_length min_length max_depth : Z.
Variable func : list Individual -> rng -> result (list Individual * rng).

Local Abbreviation satisfies :=
  (satisfies_constraints UNARY_TOKENS BINARY_TOKENS max_length min_length max_depth).
Local Abbreviation constrain' :=
  (constrain UNARY_TOKENS BINARY_TOKENS max_length min_length max_depth).
Local Abbreviation constrain_all' :=
  (constrain_all UNARY_TOKENS BINARY_TOKENS max_length min_length max_depth).

Lemma constrain_sound (keep_inds : list Individual) (ind ind' : Individual)
  (g g' : rng) :
  constrain' keep_inds ind g = Ok (ind', g') ->
  satisfies ind' \/ ind' ∈ keep_inds.
Proof.
  unfold constrain. intros H.
  destruct (Z.gtb_spec (Z.of_nat (length ind)) max_length) as [Hmax|Hmax];
    [right; eapply random_choice_elem; exact H|].
  destruct (Z.ltb_spec (Z.of_nat (length ind)) min_length) as [Hmin|Hmin];
    [right; eapply random_choice_elem; exact H|].
  bind_inv H. rename a into h.
  destruct (Z.gtb_spec h max_depth) as [Hh|Hh];
    [right; eapply random_choice_elem; exact H|].
  destruct (check_inv (map node_name ind)) eqn:Hinv;
    [right; eapply random_choice_elem; exact H|].
  destruct (check_trig _ _ (map node_name ind)) eqn:Htrig;
    [right; eapply random_choice_elem; exact H|].
  injection H as <- <-. left. unfold satisfies_constraints. eauto 10.
Qed.

Lemma constrain_all_sound (keep_inds : list Individual) :
  forall (new_inds out : list Individual) (g g' : rng),
    constrain_all' keep_inds new_inds g = Ok (out, g') ->
    Forall (fun ind => satisfies ind \/ ind ∈ keep_inds) out /\
    length out = length new_inds.
Proof.
  induction new_inds as [|ind rest IH]; intros out g g' H; simpl in H.
  - injection H as <- <-. split; [constructor|reflexivity].
  - bind_inv H. destruct a as [ind1 g1]. bind_inv H.
    destruct a as [out1 g2]. simpl in *. injection H as <- <-.
    apply constrain_sound in Ha. apply IH in Ha0 as [Hall Hlen].
    split; [now constructor|simpl; now rewrite Hlen].
Qed.

(** C8: every individual in the list the decorated operator returns either
    satisfies the five constraints (length at most [max_length] and at least
    [min_length], height at most [max_depth], no inverse-adjacent pair, no
    nested trig) or is one of the input individuals as they were before the
    operator ran. *)
Theorem wrapper_output (args out : list Individual) (g g' : rng) :
  wrapper UNARY_TOKENS BINARY_TOKENS max_length min_length max_depth func args g
  = Ok (out, g') ->
  Forall (fun ind => satisfies ind \/ ind ∈ args) out.
Proof.
  unfold wrapper. intros H. bind_inv H. destruct a as [new_inds g1].
  simpl in H. now apply constrain_all_sound in H as [H _].
Qed.

(** The decorator returns whenever the operator does, given at least one
    input individual and new individuals whose height is defined. *)
Lemma constrain_all_returns (keep_inds : list Individual) :
  keep_inds <> [] ->
  forall (new_inds : list Individual) (g : rng),
    Forall (fun ind => exists h, height ind = Ok h) new_inds ->
    exists out g', constrain_all' keep_inds new_inds g = Ok (out, g').
Proof.
  intros Hkeep. induction new_inds as [|ind rest IH]; intros g Hh.
  - simpl. eauto.
  - inversion Hh as [|? ? [h Hind] Hrest]; subst.
    assert (exists r, constrain' keep_inds ind g = Ok r) as [[ind1 g1] H1].
    { unfold constrain. rewrite Hind. simpl.
      destruct (random_choice_returns keep_inds g Hkeep) as (x & gx & Hx).
      rewrite Hx.
      repeat match goal with |- context [if ?b then _ else _] => destruct b end;
        eauto. }
    destruct (IH g1 Hrest) as (out & g' & Hout).
    simpl. rewrite H1. simpl. rewrite Hout. simpl. eauto.
Qed.

Lemma wrapper_returns (args new_inds : list Individual) (g g1 : rng) :
  args <> [] ->
  func args g = Ok (new_inds, g1) ->
  Forall (fun ind => exists h, height ind = Ok h) new_inds ->
  exists out g',
    wrapper UNARY_TOKENS BINARY_TOKENS max_length min_length max_depth func args g
    = Ok (out, g').
Proof.
  intros Hargs Hf Hh. unfold wrapper. rewrite Hf. simpl.
  now apply constrain_all_returns.
Qed.

End CheckConstraintFacts.

Lemma wrapper_output_witness :
  Forall (fun ind =>
            satisfies_constraints example_UNARY example_BINARY 10 1 5 ind \/
            ind ∈ [[Primitive "sin" 1; x1_node]; [Primitive "exp" 1; x1_node]])
         [[Primitive "sin" 1; x1_node];
          [Primitive "sin" 1; Primitive "exp" 1; x1_node]].
Proof.
  apply (wrapper_output example_UNARY example_BINARY 10 1 5 wrap_in_sin
           [[Primitive "sin" 1; x1_node]; [Primitive "exp" 1; x1_node]]
           _ (Rng (fun _ => 0%nat) 0) (Rng (fun _ => 0%nat) 1)).
  reflexivity.
Defined.

(* ===================================================================== *)
(** ** The objective of the constant optimiser *)
(* ===================================================================== *)

(** C2: on every vector of constants the objective raises before it
    evaluates anything: line 451 reads the local variable [individual]
    before assigning it, so the call ends in [UnboundLocalError]; it never
    returns the maximum error value, nor any other value. *)
Theorem obj_raises
  (compile : Individual -> result (list (list float) -> result (list float)))
  (X_train : list (list float)) (y_train : list float)
  (mean_squared_diff : list float -> list float -> float)
  (individual : Individual) (const_idxs : list Z) (consts : list float) :
  obj compile X_train y_train mean_squared_diff individual const_idxs consts
  = Raise UnboundLocalError /\
  forall v : float,
    obj compile X_train y_train mean_squared_diff individual const_idxs consts
    <> Ok v.
Proof.
  assert (E : obj compile X_train y_train mean_squared_diff individual
                  const_idxs consts = Raise UnboundLocalError).
  { unfold obj. simpl mapM. vm_compute. reflexivity. }
  split; [exact E|]. intros v H. rewrite E in H. discriminate.
Qed.

(** The three names before [individual] are read without error; the fourth
    is the one that is unbound. *)
Lemma obj_first_arguments (individual : Individual) (const_idxs : list Z)
  (consts : list float) :
  mapM (load individual const_idxs {[ "consts" := AConsts consts ]})
       ["self"; "const_idxs"; "consts"]
  = Ok [ASelf; AIdxs const_idxs; AConsts consts].
Proof. vm_compute. reflexivity. Qed.

(** Were the variable bound, the call would still fail: the bound method
    receives [self] twice, five arguments for four parameters. *)
Lemma _set_const_individuals_arity (const_idxs : list Z) (consts : list float)
  (individual : Individual) :
  _set_const_individuals
    [ASelf; ASelf; AIdxs const_idxs; AConsts consts; AInd individual]
  = Raise TypeError.
Proof. reflexivity. Qed.

(* ===================================================================== *)
(** ** [generate_priors]: what is written stays, and where it is written *)
(* ===================================================================== *)

Lemma norm_index_lt (n : nat) (i : Z) (k : nat) :
  norm_index n i = Ok k -> (k < n)%nat.
Proof.
  unfold norm_index. destruct (i <? 0) eqn:E;
    destruct (_ && _) eqn:B; try discriminate; intros [= <-];
    apply andb_true_iff in B as [B1 B2];
    apply Z.leb_le in B1; apply Z.ltb_lt in B2; lia.
Qed.

Lemma norm_index_nonneg (n : nat) (i : Z) (k : nat) :
  0 <= i -> norm_index n i = Ok k -> k = Z.to_nat i.
Proof.
  intros Hi. unfold norm_index. apply Z.ltb_ge in Hi. rewrite Hi.
  destruct (_ && _); [|discriminate]. now intros [= <-].
Qed.

Lemma entry_masked_insert (row : list float) (c k : nat) :
  (c < length row)%nat ->
  entry_masked row k = true \/ k = c ->
  entry_masked (<[c := neg_infinity]> row) k = true.
Proof.
  intros Hc H. unfold entry_masked in *. destruct (decide (k = c)) as [->|Hne].
  - now rewrite list_lookup_insert_eq.
  - rewrite list_lookup_insert_ne by congruence. destruct H; [assumption|congruence].
Qed.

Lemma mask_row_spec (cols : list Z) :
  forall row row',
    mask_row row cols = Ok row' ->
    length row' = length row /\
    (forall k, entry_masked row k = true -> entry_masked row' k = true) /\
    (forall c, c ∈ cols ->
               exists k, norm_index (length row) c = Ok k /\
                         entry_masked row' k = true).
Proof.
  induction cols as [|c cols IH]; intros row row' H; simpl in H.
  - injection H as <-. split; [reflexivity|]. split; [auto|].
    intros c Hc. inversion Hc.
  - bind_inv H. rename a into c'. pose proof (norm_index_lt _ _ _ Ha) as Hlt.
    apply IH in H as (Hlen & Hkeep & Hnew). rewrite length_insert in Hlen, Hnew.
    split; [exact Hlen|]. split.
    + intros k Hk. apply Hkeep. apply entry_masked_insert; auto.
    + intros c0 Hc0. apply elem_of_cons in Hc0 as [->|Hc0]; [|now apply Hnew].
      exists c'. split; [exact Ha|]. apply Hkeep.
      apply entry_masked_insert; auto.
Qed.

Lemma mask_spec (P P' : matrix) (r : Z) (cols : list Z) :
  mask P r cols = Ok P' ->
  (forall r0 c, masked P r0 c = true -> masked P' r0 c = true) /\
  (forall c, c ∈ cols -> 0 <= r -> 0 <= c ->
             masked P' (Z.to_nat r) (Z.to_nat c) = true).
Proof.
  unfold mask. intros H. bind_inv H. rename a into r'.
  pose proof (norm_index_lt _ _ _ Ha) as Hlt.
  destruct (P !! r') as [row|] eqn:Hrow; [|discriminate].
  bind_inv H. rename a into row'. injection H as <-.
  apply mask_row_spec in Ha0 as (Hlen & Hkeep & Hnew). split.
  - intros r0 c. unfold masked. destruct (decide (r0 = r')) as [->|Hne].
    + rewrite list_lookup_insert_eq by exact Hlt. rewrite Hrow. apply Hkeep.
    + now rewrite list_lookup_insert_ne by congruence.
  - intros c Hc Hr Hc0. apply norm_index_nonneg in Ha; [|exact Hr]. subst r'.
    unfold masked. rewrite list_lookup_insert_eq by exact Hlt.
    destruct (Hnew c Hc) as (k & Hk & Hm).
    apply norm_index_nonneg in Hk; [|exact Hc0]. now subst k.
Qed.

Lemma member_elem (t : Z) (l : list Z) : member t l = true <-> t ∈ l.
Proof. unfold member. apply bool_decide_eq_true. Qed.

Section PriorsFacts.

Variable lib : Library.
Variables len_tokens max_len min_len : Z.

Local Abbreviation step := (priors_step lib len_tokens max_len min_len).
Local Abbreviation loop := (priors_loop lib len_tokens max_len min_len).

(** The late-length rule never reaches its second branch: whenever
    [dangling == remaining] holds, so does [dangling >= remaining - 1]. *)
Lemma mask_late_cases (i d : Z) (P : matrix) :
  mask_late lib max_len i d P = Ok P \/
  (i + 2 >= max_len / 2 /\ d >= max_len - (i + 1) - 1 /\
   mask_late lib max_len i d P = mask P (i + 1) (binary_tokens lib)).
Proof.
  unfold mask_late.
  destruct (Z.geb_spec (i + 2) (max_len / 2)) as [H1|H1]; [|now left].
  destruct (Z.geb_spec d (max_len - (i + 1) - 1)) as [H2|H2].
  - right. split; [lia|]. split; [lia|reflexivity].
  - left. destruct (Z.eqb_spec d (max_len - (i + 1))); [lia|reflexivity].
Qed.

Lemma mask_late_binary (i d : Z) (P P' : matrix) :
  mask_late lib max_len i d P = Ok P' ->
  i + 2 >= max_len / 2 -> d >= max_len - (i + 1) - 1 ->
  mask P (i + 1) (binary_tokens lib) = Ok P'.
Proof.
  unfold mask_late. intros H H1 H2.
  destruct (Z.geb_spec (i + 2) (max_len / 2)); [|lia].
  destruct (Z.geb_spec d (max_len - (i + 1) - 1)); [exact H|lia].
Qed.

(** One turn of the loop. *)
Lemma priors_step_spec (i t : Z) (st st' : prior_state) :
  step i t st = Ok st' ->
  (forall r c, masked (st_priors st) r c = true ->
               masked (st_priors st') r c = true) /\
  (i < len_tokens - 1 -> 0 <= i ->
   st_trig st' = trig_step lib t (st_trig st) /\
   (trig_descendant (st_trig st') = true ->
    forall c, c ∈ trig_tokens lib -> 0 <= c ->
              masked (st_priors st') (Z.to_nat (i + 1)) (Z.to_nat c) = true) /\
   (forall u, inverse_tokens lib !! t = Some u -> 0 <= u ->
              masked (st_priors st') (Z.to_nat (i + 1)) (Z.to_nat u) = true) /\
   (i + 2 >= max_len / 2 ->
    st_dangling st' >= max_len - (i + 1) - 1 ->
    forall c, c ∈ binary_tokens lib -> 0 <= c ->
              masked (st_priors st') (Z.to_nat (i + 1)) (Z.to_nat c) = true)).
Proof.
  unfold priors_step. intros H. bind_inv H.
  destruct (Z.ltb_spec i (len_tokens - 1)) as [Hlt|Hge].
  2:{ injection H as <-. simpl. split; [auto|lia]. }
  bind_inv H. rename a0 into P1, Ha0 into H1.
  bind_inv H. rename a0 into P2, Ha0 into H2.
  bind_inv H. rename a0 into P3, Ha0 into H3.
  bind_inv H. rename a0 into P4, Ha0 into H4.
  injection H as <-. simpl.
  assert (M1 : forall r c, masked (st_priors st) r c = true -> masked P1 r c = true).
  { destruct (trig_descendant _); [|now injection H1 as <-].
    now apply mask_spec in H1 as [M _]. }
  assert (M2 : forall r c, masked P1 r c = true -> masked P2 r c = true).
  { destruct (inverse_tokens lib !! t); [|now injection H2 as <-].
    now apply mask_spec in H2 as [M _]. }
  assert (M3 : forall r c, masked P2 r c = true -> masked P3 r c = true).
  { destruct (_ && _); [|now injection H3 as <-].
    now apply mask_spec in H3 as [M _]. }
  assert (M4 : forall r c, masked P3 r c = true -> masked P4 r c = true).
  { destruct (mask_late_cases (i + 0) (st_dangling st + (a - 1)) P3) as [E|(_ & _ & E)];
      rewrite Z.add_0_r in E; rewrite E in H4.
    - now injection H4 as <-.
    - now apply mask_spec in H4 as [M _]. }
  split; [auto|]. intros _ Hi. split; [reflexivity|]. split; [|split].
  - intros Hd c Hc Hc0. rewrite Hd in H1.
    apply mask_spec in H1 as [_ S1]. apply M4, M3, M2, S1; [exact Hc|lia|exact Hc0].
  - intros u Hu Hu0. rewrite Hu in H2.
    apply mask_spec in H2 as [_ S2]. apply M4, M3, S2; [|lia|exact Hu0].
    apply list_elem_of_singleton. reflexivity.
  - intros Hmid Hd c Hc Hc0.
    apply mask_late_binary in H4; [|exact Hmid|exact Hd].
    apply mask_spec in H4 as [_ S4]. apply S4; [exact Hc|lia|exact Hc0].
Qed.

Lemma priors_loop_app (l1 l2 : list Z) :
  forall (i : Z) (st st' : prior_state),
    loop i (l1 ++ l2) st = Ok st' ->
    exists st1, loop i l1 st = Ok st1 /\
                loop (i + Z.of_nat (length l1)) l2 st1 = Ok st'.
Proof.
  induction l1 as [|t l1 IH]; intros i st st' H.
  - exists st. split; [reflexivity|]. simpl. now rewrite Z.add_0_r.
  - simpl in H. bind_inv H. apply IH in H as (st1 & H1 & H2).
    exists st1. split.
    + simpl. rewrite Ha. exact H1.
    + replace (i + Z.of_nat (length (t :: l1)))
        with (i + 1 + Z.of_nat (length l1)) by (simpl; lia).
      exact H2.
Qed.

Lemma priors_loop_mono (l : list Z) :
  forall (i : Z) (st st' : prior_state),
    loop i l st = Ok st' ->
    forall r c, masked (st_priors st) r c = true ->
                masked (st_priors st') r c = true.
Proof.
  induction l as [|t l IH]; intros i st st' H r c Hm; simpl in H.
  - now injection H as <-.
  - bind_inv H. eapply IH; [exact H|].
    now apply priors_step_spec in Ha as [M _]; apply M.
Qed.

Lemma priors_loop_trig (l : list Z) :
  forall (i : Z) (st st' : prior_state),
    loop i l st = Ok st' ->
    0 <= i -> i + Z.of_nat (length l) <= len_tokens - 1 ->
    st_trig st' = trig_run lib (st_trig st) l.
Proof.
  induction l as [|t l IH]; intros i st st' H Hi Hlen; simpl in H.
  - now injection H as <-.
  - bind_inv H. simpl in Hlen.
    apply priors_step_spec in Ha as [_ Hs].
    destruct Hs as [Htr _]; [lia|lia|].
    apply IH in H; [|lia|lia]. rewrite H, Htr. reflexivity.
Qed.

End PriorsFacts.

(** The masks that the token at the end of [pre ++ [t]] puts on the row of
    the token that follows it. *)
Lemma generate_priors_next (lib : Library) (pre : list Z) (t nxt : Z)
  (rest : list Z) (max_exp_length : nat) (expr_length max_const max_len min_len : Z)
  (P : matrix) :
  generate_priors lib (pre ++ t :: nxt :: rest) max_exp_length expr_length
                  max_const max_len min_len = Ok P ->
  (trig_descendant (trig_run lib trig_init (pre ++ [t])) = true ->
   forall c, c ∈ trig_tokens lib -> 0 <= c ->
             masked P (S (length pre)) (Z.to_nat c) = true) /\
  (forall u, inverse_tokens lib !! t = Some u -> 0 <= u ->
             masked P (S (length pre)) (Z.to_nat u) = true).
Proof.
  unfold generate_priors. intros H. bind_inv H. rename a into P0.
  bind_inv H. rename a into st_f. injection H as <-.
  apply priors_loop_app in Ha0 as (st1 & Hpre & Hrest).
  simpl in Hrest. bind_inv Hrest. rename a into st2.
  rewrite length_app in Hrest, Ha0, Hpre. simpl in Hrest, Ha0, Hpre.
  assert (Hlt : 0 + Z.of_nat (length pre)
                < Z.of_nat (length pre + S (S (length rest))) - 1) by lia.
  pose proof (priors_loop_trig _ _ _ _ _ _ _ _ Hpre ltac:(lia) ltac:(lia)) as Htr1.
  apply priors_step_spec in Ha0 as [_ Hs].
  destruct (Hs Hlt ltac:(lia)) as (Htr & Htrig & Hinv & _).
  change (priors_loop lib (Z.of_nat (length pre + S (S (length rest)))) max_len
            min_len (0 + Z.of_nat (length pre) + 1) (nxt :: rest) st2 = Ok st_f)
    in Hrest.
  pose proof (priors_loop_mono _ _ _ _ _ _ _ _ Hrest) as Hmono.
  replace (Z.to_nat (0 + Z.of_nat (length pre) + 1)) with (S (length pre))
    in Htrig, Hinv by lia.
  split.
  - intros Hd c Hc Hc0. apply Hmono, Htrig; [|exact Hc|exact Hc0].
    rewrite Htr, Htr1. simpl in Hd. unfold trig_run in *.
    rewrite fold_left_app in Hd. exact Hd.
  - intros u Hu Hu0. now apply Hmono, Hinv.
Qed.

Lemma lookup_two_split {A : Type} (l : list A) (i : nat) (x y : A) :
  l !! i = Some x -> l !! S i = Some y ->
  exists pre rest, l = pre ++ x :: y :: rest /\ length pre = i.
Proof.
  intros Hx Hy. exists (take i l), (drop (S (S i)) l). split.
  - rewrite <- (take_drop_middle l i x Hx) at 1. f_equal. f_equal.
    apply drop_S in Hy. exact Hy.
  - apply length_take_le. apply lookup_lt_Some in Hx. lia.
Qed.

(* ===================================================================== *)
(** ** Late-length masking *)
(* ===================================================================== *)

Lemma mapM_app {A B : Type} (f : A -> result B) (l1 l2 : list A) (ys : list B) :
  mapM f (l1 ++ l2) = Ok ys <->
  exists ys1 ys2, mapM f l1 = Ok ys1 /\ mapM f l2 = Ok ys2 /\ ys = ys1 ++ ys2.
Proof.
  revert ys. induction l1 as [|x l1 IH]; intros ys; simpl.
  - split.
    + intros H. now exists [], ys.
    + intros (ys1 & ys2 & [= <-] & H2 & ->). exact H2.
  - split.
    + intros H. bind_inv H. bind_inv H. injection H as <-.
      apply IH in Ha0 as (ys1 & ys2 & H1 & H2 & ->).
      exists (a :: ys1), ys2. rewrite Ha, H1. simpl. auto.
    + intros (ys1 & ys2 & H1 & H2 & ->). bind_inv H1. bind_inv H1.
      injection H1 as <-. rewrite Ha. simpl.
      assert (E : mapM f (l1 ++ l2) = Ok (a0 ++ ys2)) by (apply IH; eauto).
      now rewrite E.
Qed.

Lemma mapM_length {A B : Type} (f : A -> result B) (l : list A) (ys : list B) :
  mapM f l = Ok ys -> length ys = length l.
Proof.
  revert ys. induction l as [|x l IH]; intros ys H; simpl in H.
  - now injection H as <-.
  - bind_inv H. bind_inv H. injection H as <-. simpl. f_equal. now apply IH.
Qed.

Lemma balance_sum_app (l1 l2 : list Z) :
  balance_sum (l1 ++ l2) = balance_sum l1 + balance_sum l2.
Proof.
  unfold balance_sum. induction l1 as [|a l1 IH]; simpl; [reflexivity|].
  rewrite IH. lia.
Qed.

Section PriorsDangling.

Variable lib : Library.
Variables len_tokens max_len min_len : Z.

Lemma priors_step_dangling (i t : Z) (st st' : prior_state) :
  priors_step lib len_tokens max_len min_len i t st = Ok st' ->
  exists a, Py.index (arities lib) t = Ok a /\
            st_dangling st' = st_dangling st + (a - 1).
Proof.
  unfold priors_step. intros H. bind_inv H. exists a. split; [exact Ha|].
  destruct (i <? len_tokens - 1).
  - do 4 bind_inv H. now injection H as <-.
  - now injection H as <-.
Qed.

Lemma priors_loop_dangling (l : list Z) :
  forall (i : Z) (st st' : prior_state),
    priors_loop lib len_tokens max_len min_len i l st = Ok st' ->
    exists ars, arities_of lib l = Ok ars /\
                st_dangling st' = st_dangling st + balance_sum ars.
Proof.
  induction l as [|t l IH]; intros i st st' H; simpl in H.
  - injection H as <-. exists []. split; [reflexivity|]. unfold balance_sum.
    simpl. lia.
  - bind_inv H. apply priors_step_dangling in Ha as (a0 & Ha0 & Hd).
    apply IH in H as (ars & Hars & Hd').
    exists (a0 :: ars). unfold arities_of in *. simpl. rewrite Ha0. simpl.
    rewrite Hars. simpl. split; [reflexivity|].
    rewrite Hd', Hd. unfold balance_sum. simpl. lia.
Qed.

End PriorsDangling.

(** X23: past the midpoint of [max_len], binary tokens are masked at the next
    position whenever [dangling >= remaining - 1], the dangling count being
    that of the prefix up to the current token. *)
Lemma late_mask_binary (lib : Library) (pre : list Z) (t nxt : Z)
  (rest : list Z) (max_exp_length : nat)
  (expr_length max_const max_len min_len : Z) (P : matrix) (ars : list Z) :
  generate_priors lib (pre ++ t :: nxt :: rest) max_exp_length expr_length
                  max_const max_len min_len = Ok P ->
  arities_of lib (pre ++ [t]) = Ok ars ->
  Z.of_nat (length pre) + 2 >= max_len / 2 ->
  1 + balance_sum ars >= max_len - (Z.of_nat (length pre) + 1) - 1 ->
  forall c, c ∈ binary_tokens lib -> 0 <= c ->
            masked P (S (length pre)) (Z.to_nat c) = true.
Proof.
  unfold generate_priors. intros H Hars Hmid Hd c Hc Hc0.
  bind_inv H. rename a into P0. bind_inv H. rename a into st_f.
  injection H as <-.
  apply priors_loop_app in Ha0 as (st1 & Hpre & Hrest).
  pose proof (priors_loop_dangling _ _ _ _ _ _ _ _ Hpre) as (ars1 & Hars1 & Hd1).
  change (t :: nxt :: rest) with ([t] ++ nxt :: rest) in Hrest.
  apply priors_loop_app in Hrest as (st2 & Hstep & Hrest).
  pose proof (priors_loop_dangling _ _ _ _ _ _ _ _ Hstep) as (ars2 & Hars2 & Hd2).
  simpl in Hstep. bind_inv Hstep. injection Hstep as ->.
  assert (ars = ars1 ++ ars2) as ->.
  { unfold arities_of in *.
    assert (E : mapM (Py.index (arities lib)) (pre ++ [t]) = Ok (ars1 ++ ars2))
      by (apply mapM_app; eauto).
    congruence. }
  rewrite balance_sum_app in Hd. simpl in Hd1.
  rewrite length_app in Ha0. simpl in Ha0.
  apply priors_step_spec in Ha0 as [_ Hs].
  destruct Hs as (_ & _ & _ & Hbin); [lia|lia|].
  eapply priors_loop_mono; [exact Hrest|].
  replace (S (length pre)) with (Z.to_nat (0 + Z.of_nat (length pre) + 1)) by lia.
  apply Hbin; [lia|lia|exact Hc|exact Hc0].
Qed.

(** C5: the code at the input [add, x1, x1] with [max_len = 3]. After the
    first token the position is past the midpoint and the dangling count, 2,
    equals the remaining budget, 2; the mask of the next position forbids
    the binary token and none of the unary tokens. *)
Theorem unary_not_masked_at_exact_budget :
  0 + 2 >= 3 / 2 /\
  1 + (2 - 1) = 3 - (0 + 1) /\
  generate_priors example_lib [1; 0; 0] 3 3 0 3 1
  = Ok [[neg_infinity; 0; 0; 0; 0; 0; neg_infinity];
        [0; neg_infinity; 0; 0; 0; 0; 0];
        [0; neg_infinity; 0; 0; 0; 0; 0]]%float /\
  forallb (fun u => negb (entry_masked [0; neg_infinity; 0; 0; 0; 0; 0]%float
                                       (Z.to_nat u)))
          (unary_tokens example_lib) = true.
Proof. repeat split; vm_compute; congruence. Qed.

(* ===================================================================== *)
(** ** The masks against the validators *)
(* ===================================================================== *)

Lemma permittedb_sound (P : matrix) (tokens : list Z) :
  permittedb P tokens = true -> permitted P tokens.
Proof.
  unfold permittedb, permitted. rewrite forallb_forall. intros H i t Hi.
  apply In_enumerate in Hi. apply H in Hi. simpl in Hi.
  now apply negb_true_iff in Hi.
Qed.

Section PriorsValidators.

Variables UNARY_TOKENS BINARY_TOKENS : list string.
Variable lib : Library.

Lemma token_name_range (t : Z) (a : string) :
  token_name lib t = Some a -> 0 <= t < Z.of_nat (length (names lib)).
Proof.
  unfold token_name. destruct (Z.leb_spec 0 t); [|discriminate].
  intros Hn. apply lookup_lt_Some in Hn. lia.
Qed.

Lemma token_names_cons (t : Z) (rest : list Z) (ns : list string) :
  token_names lib (t :: rest) = Some ns ->
  exists a nr, ns = a :: nr /\ token_name lib t = Some a /\
               token_names lib rest = Some nr.
Proof.
  simpl. destruct (token_name lib t) as [a|]; [|discriminate].
  destruct (token_names lib rest) as [nr|]; [|discriminate].
  intros [= <-]. eauto.
Qed.

Lemma token_names_lookup (tokens : list Z) :
  forall (ns : list string) (i : nat) (a : string),
    token_names lib tokens = Some ns -> ns !! i = Some a ->
    exists t, tokens !! i = Some t /\ token_name lib t = Some a.
Proof.
  induction tokens as [|t tokens IH]; intros ns i a H Hi.
  - injection H as <-. discriminate.
  - apply token_names_cons in H as (a0 & nr & -> & Ht & Hr).
    destruct i as [|i]; simpl in Hi.
    + injection Hi as ->. now exists t.
    + now apply (IH nr i a).
Qed.

Hypothesis consistent : library_consistent UNARY_TOKENS BINARY_TOKENS lib = true.

Lemma consistent_spec (t : Z) (a : string) :
  token_name lib t = Some a ->
  member t (trig_tokens lib) = bool_decide (a ∈ TRIG_TOKENS) /\
  member t (binary_tokens lib) = bool_decide (a ∈ BINARY_TOKENS) /\
  member t (unary_tokens lib) = bool_decide (a ∈ UNARY_TOKENS) /\
  (forall u b, token_name lib u = Some b ->
               dict_get INVERSE_TOKENS a = Some b ->
               inverse_tokens lib !! t = Some u).
Proof.
  intros Ht. pose proof (token_name_range t a Ht) as Hr.
  unfold library_consistent in consistent.
  rewrite forallb_forall in consistent.
  assert (Hin : In t (seqZ 0 (Z.of_nat (length (names lib))))).
  { apply list_elem_of_In, elem_of_seqZ. lia. }
  apply consistent in Hin. unfold consistent_at in Hin. rewrite Ht in Hin.
  apply andb_true_iff in Hin as [Hin Hinv].
  apply andb_true_iff in Hin as [Hin Hun].
  apply andb_true_iff in Hin as [Htr Hbin].
  apply Bool.eqb_prop in Htr, Hbin, Hun.
  repeat (split; [assumption|]).
  intros u b Hu Hb. rewrite forallb_forall in Hinv.
  assert (Hu' : In u (seqZ 0 (Z.of_nat (length (names lib))))).
  { apply list_elem_of_In, elem_of_seqZ.
    pose proof (token_name_range u b Hu). lia. }
  apply Hinv in Hu'. rewrite Hu, Hb, String.eqb_refl in Hu'.
  now apply bool_decide_eq_true in Hu'.
Qed.

Variable tokens : list Z.
Variable max_exp_length : nat.
Variables expr_length max_const max_len min_len : Z.
Variable P : matrix.

Hypothesis priors_ok :
  generate_priors lib tokens max_exp_length expr_length max_const max_len min_len
  = Ok P.
Hypothesis allowed : permitted P tokens.

Lemma permitted_no_inverse_pair (ns : list string) :
  token_names lib tokens = Some ns -> check_inv ns = false.
Proof.
  intros Hns. destruct (check_inv ns) eqn:E; [|reflexivity]. exfalso.
  apply check_inv_sound in E as (i & a & b & Hi & Hab & Hn).
  destruct (token_names_lookup _ _ _ _ Hns Hi) as (t & Hti & Hta).
  destruct (token_names_lookup _ _ _ _ Hns Hn) as (u & Hui & Hub).
  destruct (consistent_spec t a Hta) as (_ & _ & _ & Hinv).
  specialize (Hinv u b Hub Hab).
  destruct (lookup_two_split tokens i t u Hti Hui) as (pre & rest & E & <-).
  pose proof priors_ok as HP. rewrite E in HP.
  apply generate_priors_next in HP as [_ HP].
  pose proof (token_name_range u b Hub) as Hr.
  specialize (HP u Hinv ltac:(lia)).
  rewrite (allowed _ _ Hui) in HP. discriminate.
Qed.

(** The validator's loop and the mask generator's trig state run in step
    along an allowed sequence. *)
Lemma permitted_no_nested_trig_from (rest : list Z) :
  forall (pre : list Z) (nr : list string),
    tokens = pre ++ rest ->
    token_names lib rest = Some nr ->
    check_trig_loop UNARY_TOKENS BINARY_TOKENS
                    (trig_run lib trig_init pre) nr = false.
Proof.
  induction rest as [|t rest IH]; intros pre nr E Hnr.
  - injection Hnr as <-. reflexivity.
  - apply token_names_cons in Hnr as (a & nr' & -> & Hta & Hnr').
    destruct (consistent_spec t a Hta) as (Htr & Hbin & Hun & _).
    pose proof (token_name_range t a Hta) as Hr.
    assert (Hnext : trig_run lib trig_init (pre ++ [t])
                    = trig_step lib t (trig_run lib trig_init pre)).
    { unfold trig_run. now rewrite fold_left_app. }
    specialize (IH (pre ++ [t]) nr').
    rewrite <- app_assoc in IH. specialize (IH E Hnr').
    rewrite Hnext in IH. unfold trig_step in IH.
    rewrite Htr, Hbin, Hun in IH. rewrite loop_cons.
    destruct (bool_decide (a ∈ TRIG_TOKENS)) eqn:Ha;
      destruct (trig_descendant (trig_run lib trig_init pre)) eqn:Hd;
      try exact IH.
    exfalso. destruct pre as [|p pre _] using rev_ind; [discriminate|].
    rewrite <- app_assoc in E. simpl in E.
    pose proof priors_ok as HP. rewrite E in HP.
    apply generate_priors_next in HP as [HP _].
    specialize (HP Hd t). rewrite <- member_elem, Htr in HP.
    specialize (HP eq_refl ltac:(lia)).
    assert (Hti : tokens !! S (length pre) = Some t).
    { rewrite E. rewrite lookup_app_r by lia.
      now replace (S (length pre) - length pre)%nat with 1%nat by lia. }
    rewrite (allowed _ _ Hti) in HP. discriminate.
Qed.

Lemma permitted_no_nested_trig (ns : list string) :
  token_names lib tokens = Some ns ->
  check_trig UNARY_TOKENS BINARY_TOKENS ns = false.
Proof.
  intros Hns. unfold check_trig.
  now apply (permitted_no_nested_trig_from tokens []).
Qed.

End PriorsValidators.

(* ===================================================================== *)
(** ** Self-inverse tokens *)
(* ===================================================================== *)

(** C10: [neg] and [inv] are their own inverse in [INVERSE_TOKENS]; a name
    sequence with a self-inverse token twice in a row is rejected by
    [check_inv]; and for a token that the library registers as its own
    inverse (as a library consistent with the name table does for a token
    whose name is self-inverse) the mask forbids it at the position right
    after itself. *)
Theorem self_inverse_tokens :
  dict_get INVERSE_TOKENS "neg" = Some "neg" /\
  dict_get INVERSE_TOKENS "inv" = Some "inv" /\
  (forall (names : list string) (i : nat) (t : string),
      dict_get INVERSE_TOKENS t = Some t ->
      names !! i = Some t -> names !! S i = Some t ->
      check_inv names = true) /\
  (forall (lib : Library) (tokens : list Z) (max_exp_length : nat)
          (expr_length max_const max_len min_len : Z) (P : matrix)
          (i : nat) (t : Z),
      generate_priors lib tokens max_exp_length expr_length max_const
                      max_len min_len = Ok P ->
      inverse_tokens lib !! t = Some t -> 0 <= t ->
      tokens !! i = Some t -> (S i < length tokens)%nat ->
      masked P (S i) (Z.to_nat t) = true) /\
  (forall (UNARY_TOKENS BINARY_TOKENS : list string) (lib : Library)
          (t : Z) (a : string),
      library_consistent UNARY_TOKENS BINARY_TOKENS lib = true ->
      token_name lib t = Some a -> dict_get INVERSE_TOKENS a = Some a ->
      inverse_tokens lib !! t = Some t /\ 0 <= t).
Proof.
  split; [reflexivity|]. split; [reflexivity|]. split; [|split].
  - intros names i t Ht Hi Hn. apply check_inv_complete. now exists i, t, t.
  - intros lib tokens m e mc ml mn P i t HP Hinv Ht Hi Hlen.
    destruct (lookup_lt_is_Some_2 tokens (S i) Hlen) as [nxt Hn].
    destruct (lookup_two_split tokens i t nxt Hi Hn) as (pre & rest & -> & <-).
    apply generate_priors_next in HP as [_ HP]. now apply HP.
  - intros UN BIN lib t a Hc Ht Ha.
    destruct (consistent_spec UN BIN lib Hc t a Ht) as (_ & _ & _ & Hinv).
    split; [now apply (Hinv t a)|].
    pose proof (token_name_range lib t a Ht). lia.
Qed.

Lemma self_inverse_tokens_witness :
  check_inv ["neg"; "neg"; "x1"] = true /\
  exists P, generate_priors example_lib [5; 5; 0] 3 3 0 10 1 = Ok P /\
            masked P 1 5 = true.
Proof.
  destruct self_inverse_tokens as (Hneg & _ & Hnames & Hmask & Hlib).
  split.
  - apply (Hnames ["neg"; "neg"; "x1"] 0%nat "neg"); [exact Hneg| |]; reflexivity.
  - eexists. split; [vm_compute; reflexivity|].
    destruct (Hlib example_UNARY example_BINARY example_lib 5 "neg")
      as [Hinv H0]; [vm_compute; reflexivity|reflexivity|exact Hneg|].
    apply (Hmask example_lib [5; 5; 0] 3%nat 3 0 10 1 _ 0%nat 5);
      [reflexivity|exact Hinv|exact H0|reflexivity|simpl; lia].
Defined.

(** Let the library's index sets and inverse map agree with the validators'
    name tables. A token sequence each of whose tokens is allowed by the
    mask that [generate_priors] computes for it has no token directly
    followed by its inverse and no trig token beneath another trig token. *)
Lemma priors_imply_validators
  (UNARY_TOKENS BINARY_TOKENS : list string) (lib : Library)
  (tokens : list Z) (ns : list string) (max_exp_length : nat)
  (expr_length max_const max_len min_len : Z) (P : matrix) :
  library_consistent UNARY_TOKENS BINARY_TOKENS lib = true ->
  token_names lib tokens = Some ns ->
  generate_priors lib tokens max_exp_length expr_length max_const max_len min_len
  = Ok P ->
  permitted P tokens ->
  check_inv ns = false /\ check_trig UNARY_TOKENS BINARY_TOKENS ns = false.
Proof.
  intros Hc Hns HP Hall. split.
  - eapply permitted_no_inverse_pair; eassumption.
  - eapply permitted_no_nested_trig; eassumption.
Qed.

(* ===================================================================== *)
(** ** The running balance and its first zero *)
(* ===================================================================== *)

Lemma map_fmap {A B : Type} (f : A -> B) (l : list A) : map f l = f <$> l.
Proof. reflexivity. Qed.

Lemma cumsum_from_lookup (l : list Z) :
  forall (acc : Z) (k : nat),
    (k < length l)%nat ->
    Np.cumsum_from acc l !! k = Some (acc + foldr Z.add 0 (take (S k) l)).
Proof.
  induction l as [|x l IH]; intros acc k Hk; simpl in Hk; [lia|].
  destruct k as [|k]; simpl.
  - f_equal. destruct l; simpl; lia.
  - rewrite IH by lia. f_equal. lia.
Qed.

Lemma is_zero_dangling_lookup (ars : list Z) (k : nat) :
  (k < length ars)%nat ->
  is_zero (dangling_of ars) !! k = Some (balance_after ars (S k) =? 0).
Proof.
  intros Hk. unfold is_zero, dangling_of, Np.cumsum.
  rewrite !map_fmap, !list_lookup_fmap.
  rewrite cumsum_from_lookup by now rewrite length_fmap.
  simpl. unfold balance_after, balance_sum.
  rewrite map_fmap, <- fmap_take. reflexivity.
Qed.

Lemma is_zero_dangling_length (ars : list Z) :
  length (is_zero (dangling_of ars)) = length ars.
Proof.
  unfold is_zero, dangling_of, Np.cumsum. rewrite !length_map.
  generalize 0. induction ars as [|a ars IH]; intros acc; simpl; [reflexivity|].
  now rewrite IH.
Qed.

Lemma first_true_Some (l : list bool) :
  forall k : nat,
    l !! k = Some true ->
    (forall j, (j < k)%nat -> l !! j = Some false) ->
    Np.first_true l = Some k.
Proof.
  induction l as [|b l IH]; intros k Hk Hbefore; [discriminate|].
  destruct k as [|k]; simpl in *.
  - now injection Hk as ->.
  - pose proof (Hbefore 0%nat ltac:(lia)) as H0. simpl in H0.
    injection H0 as ->. rewrite (IH k Hk); [reflexivity|].
    intros j Hj. apply (Hbefore (S j)). lia.
Qed.

Lemma first_true_None (l : list bool) :
  (forall j, l !! j = Some true -> False) -> Np.first_true l = None.
Proof.
  induction l as [|b l IH]; intros H; [reflexivity|]. simpl.
  destruct b; [exfalso; now apply (H 0%nat)|].
  rewrite IH; [reflexivity|]. intros j Hj. now apply (H (S j)).
Qed.

(** [np.argmax(dangling == 0)] finds the first zero of the balance. *)
Lemma first_true_first_zero (ars : list Z) (p : nat) :
  first_zero_at ars p ->
  Np.first_true (is_zero (dangling_of ars)) = Some (p - 1)%nat.
Proof.
  intros (Hp & Hz & Hbefore). apply first_true_Some.
  - rewrite is_zero_dangling_lookup by lia.
    replace (S (p - 1)) with p by lia. rewrite Hz. reflexivity.
  - intros j Hj. rewrite is_zero_dangling_lookup by lia.
    specialize (Hbefore (S j) ltac:(lia)). apply Z.eqb_neq in Hbefore.
    now rewrite Hbefore.
Qed.

Lemma first_zero_at_app (ars pad : list Z) (p : nat) :
  first_zero_at ars p -> first_zero_at (ars ++ pad) p.
Proof.
  intros (Hp & Hz & Hbefore). unfold first_zero_at, balance_after in *.
  rewrite length_app. split; [lia|]. split.
  - rewrite take_app_le by lia. exact Hz.
  - intros q Hq. rewrite take_app_le by lia. now apply Hbefore.
Qed.

Lemma argmax_first_zero (ars : list Z) (p : nat) :
  first_zero_at ars p ->
  Np.argmax (is_zero (dangling_of ars)) = Ok (Z.of_nat (p - 1)).
Proof.
  intros H. pose proof (first_true_first_zero ars p H) as Hf.
  unfold Np.argmax. rewrite Hf.
  destruct (is_zero (dangling_of ars)); [discriminate|reflexivity].
Qed.

(** Without a zero, [np.argmax] answers 0. *)
Lemma argmax_no_zero (ars : list Z) :
  ars <> [] ->
  (forall q : nat, (0 < q <= length ars)%nat -> balance_after ars q <> 0) ->
  Np.argmax (is_zero (dangling_of ars)) = Ok 0.
Proof.
  intros Hne H. unfold Np.argmax.
  rewrite first_true_None.
  - destruct (is_zero (dangling_of ars)) eqn:E; [|reflexivity].
    apply (f_equal length) in E. rewrite is_zero_dangling_length in E.
    destruct ars; [congruence|discriminate].
  - intros j Hj. pose proof (lookup_lt_Some _ _ _ Hj) as Hlt.
    rewrite is_zero_dangling_length in Hlt.
    rewrite is_zero_dangling_lookup in Hj by exact Hlt.
    injection Hj as Hj. apply Z.eqb_eq in Hj. apply (H (S j)); [lia|exact Hj].
Qed.

(* ===================================================================== *)
(** ** [DEAP_to_tokens] *)
(* ===================================================================== *)

Lemma index_lookup {A : Type} (l : list A) (i : nat) (x : A) :
  l !! i = Some x -> Py.index l (Z.of_nat i) = Ok x.
Proof.
  intros H. pose proof (lookup_lt_Some _ _ _ H) as Hlt. unfold Py.index.
  destruct (Z.ltb_spec (Z.of_nat i) 0); [lia|].
  destruct (Z.leb_spec 0 (Z.of_nat i)); [|lia].
  destruct (Z.ltb_spec (Z.of_nat i) (Z.of_nat (length l))); [|lia].
  simpl. now rewrite Nat2Z.id, H.
Qed.

Section CodecFacts.

Variable lib : Library.

Lemma fill_tokens_length (individual : Individual) (range : list nat) :
  forall tokens tokens',
    fill_tokens lib individual range tokens = Ok tokens' ->
    length tokens' = length tokens.
Proof.
  induction range as [|i range IH]; intros tokens tokens' H; simpl in H.
  - now injection H as <-.
  - bind_inv H. bind_inv H. apply IH in H. now rewrite length_insert in H.
Qed.

(** The loop writes the tokens of the nodes one after the other in front of
    the zeros the array starts with. *)
Lemma fill_tokens_from (individual : Individual) (size : nat) (n : nat) :
  forall (a : nat) (done toks : list Z),
    length done = a ->
    (a + n <= length individual)%nat -> (a + n <= size)%nat ->
    mapM (token_of_node lib) (take n (drop a individual)) = Ok toks ->
    fill_tokens lib individual (seq a n) (done ++ replicate (size - a) 0)
    = Ok (done ++ toks ++ replicate (size - a - n) 0).
Proof.
  induction n as [|n IH]; intros a done toks Hdone Hind Hsize Hm.
  - simpl in Hm. injection Hm as <-. simpl. now rewrite Nat.sub_0_r.
  - destruct (lookup_lt_is_Some_2 individual a ltac:(lia)) as [nd Hnd].
    rewrite (drop_S _ _ _ Hnd) in Hm. simpl in Hm.
    bind_inv Hm. rename a0 into v. bind_inv Hm. rename a0 into toks'.
    injection Hm as <-.
    simpl. rewrite (index_lookup _ _ _ Hnd). simpl. rewrite Ha. simpl.
    replace (size - a)%nat with (S (size - S a)) by lia. simpl.
    rewrite insert_app_r_alt by lia. rewrite Hdone, Nat.sub_diag. simpl.
    rewrite (cons_middle v done), app_assoc.
    rewrite (IH (S a) (done ++ [v]) toks').
    + rewrite <- app_assoc. simpl. do 3 f_equal; lia.
    + rewrite length_app. simpl. lia.
    + lia.
    + lia.
    + exact Ha0.
Qed.

Lemma fill_tokens_fits (individual : Individual) (size : nat) (toks : list Z) :
  (length individual <= size)%nat ->
  mapM (token_of_node lib) individual = Ok toks ->
  fill_tokens lib individual
     (seq 0 (Nat.min (length individual) size)) (replicate size 0)
  = Ok (toks ++ replicate (size - length individual) 0).
Proof.
  intros Hfit Hm. rewrite Nat.min_l by exact Hfit.
  pose proof (fill_tokens_from individual size (length individual) 0 [] toks)
    as H.
  simpl in H. rewrite Nat.sub_0_r in H. apply H; [reflexivity|lia|lia|].
  now rewrite firstn_all.
Qed.

Lemma mapM_replicate {A B : Type} (f : A -> result B) (x : A) (y : B) (n : nat) :
  f x = Ok y -> mapM f (replicate n x) = Ok (replicate n y).
Proof.
  intros H. induction n as [|n IH]; simpl; [reflexivity|].
  now rewrite H, IH.
Qed.

(** C4 (amended): whenever the running balance over the token array that
    [DEAP_to_tokens] returns reaches zero, [expr_length] is the 1-indexed
    position of the first zero; the array has [tokens_size] cells, so this
    holds also when it is longer than the expression. *)
Theorem expr_length_first_zero (individual : Individual) (tokens_size : nat)
  (tokens : list Z) (expr_length : Z) (ars : list Z) (p : nat) :
  DEAP_to_tokens lib individual tokens_size = Ok (tokens, expr_length) ->
  arities_of lib tokens = Ok ars ->
  first_zero_at ars p ->
  length tokens = tokens_size /\ expr_length = Z.of_nat p.
Proof.
  unfold DEAP_to_tokens. intros H Hars Hfz.
  bind_inv H. rename a into toks. bind_inv H. rename a into ars'.
  bind_inv H. rename a into am. injection H as <- <-.
  apply fill_tokens_length in Ha. rewrite length_replicate in Ha.
  split; [exact Ha|].
  assert (ars' = ars) as -> by congruence.
  rewrite (argmax_first_zero ars p Hfz) in Ha1. injection Ha1 as <-.
  destruct Hfz as [Hp _]. lia.
Qed.

(** When the balance never reaches zero over the array, as for a tree cut
    at [tokens_size], the value returned is 1. *)
Lemma expr_length_no_zero (individual : Individual) (tokens_size : nat)
  (tokens : list Z) (expr_length : Z) (ars : list Z) :
  DEAP_to_tokens lib individual tokens_size = Ok (tokens, expr_length) ->
  arities_of lib tokens = Ok ars ->
  (forall q : nat, (0 < q <= length ars)%nat -> balance_after ars q <> 0) ->
  expr_length = 1.
Proof.
  unfold DEAP_to_tokens. intros H Hars Hnz.
  bind_inv H. rename a into toks. bind_inv H. rename a into ars'.
  bind_inv H. rename a into am. injection H as <- <-.
  assert (ars' = ars) as -> by congruence.
  destruct ars as [|a0 ars]; [discriminate|].
  rewrite argmax_no_zero in Ha1 by (congruence || exact Hnz).
  injection Ha1 as <-. reflexivity.
Qed.

End CodecFacts.

Lemma expr_length_first_zero_witness :
  DEAP_to_tokens example_lib const_tree 5 = Ok ([1; 6; 0; 0; 0], 3) /\
  length [1; 6; 0; 0; 0] = 5%nat /\ 3 = Z.of_nat 3.
Proof.
  split; [reflexivity|].
  apply (expr_length_first_zero example_lib const_tree 5 [1; 6; 0; 0; 0] 3
           [2; 0; 0; 0; 0] 3).
  - reflexivity.
  - reflexivity.
  - split; [simpl; lia|]. split; [reflexivity|].
    intros [|[|[|q]]] Hq; try lia; vm_compute; discriminate.
Defined.

(** C4, as stated, fails for a tree that does not fit: [add, x1, x1] in an
    array of two cells is cut to [add, x1], whose balance is 2 and then 1;
    the length returned is 1, which is not a position where the balance is
    zero. *)
Lemma expr_length_cut_tree :
  DEAP_to_tokens example_lib [Primitive "add" 2; x1_node; x1_node] 2
  = Ok ([1; 0], 1) /\
  arities_of example_lib [1; 0] = Ok [2; 0] /\
  dangling_of [2; 0] = [2; 1] /\
  balance_after [2; 0] 1 = 2 /\
  ~ first_zero_at [2; 0] 1.
Proof.
  repeat split; try reflexivity.
  intros (_ & Hz & _). vm_compute in Hz. discriminate.
Qed.

(* ===================================================================== *)
(** ** The round trip through the codec *)
(* ===================================================================== *)

Lemma store_int32_id (z : Z) :
  - 2 ^ 31 <= z < 2 ^ 31 -> Np.store_int32 z = Ok z.
Proof.
  intros Hz. unfold Np.store_int32, Np.wrap_int32.
  destruct (Z.leb_spec (- 2 ^ 63) z); [|lia].
  destruct (Z.ltb_spec z (2 ^ 63)); [|lia]. simpl.
  rewrite Z.mod_small by lia. f_equal. lia.
Qed.

(** [names.index(name)] is the first position that holds [name]. *)
Lemma list_index_first (name : string) (l : list string) (t : nat) :
  l !! t = Some name ->
  (forall j : nat, (j < t)%nat -> l !! j <> Some name) ->
  list_index name l = Ok (Z.of_nat t).
Proof.
  revert t. induction l as [|y l IH]; intros t Ht Hfirst; [discriminate|].
  simpl. destruct t as [|t].
  - injection Ht as ->. now rewrite String.eqb_refl.
  - destruct (String.eqb_spec name y) as [->|_].
    + now destruct (Hfirst 0%nat ltac:(lia)).
    + rewrite (IH t Ht) by (intros j Hj; apply (Hfirst (S j)); lia).
      simpl. f_equal. lia.
Qed.

Lemma digit_of_pretty_N_char (x : N) :
  (x < 10)%N -> digit_of (pretty_N_char x) = Some (Z.of_N x).
Proof.
  intros Hx.
  assert (x = 0 \/ x = 1 \/ x = 2 \/ x = 3 \/ x = 4 \/ x = 5 \/ x = 6 \/
          x = 7 \/ x = 8 \/ x = 9)%N as H by lia.
  repeat (destruct H as [->|H]; [reflexivity|]). now subst x.
Qed.

(** Reading the [k] decimal digits that [pretty] writes for [x] adds them
    to the number read so far. *)
Lemma int_scan_pretty_N_go (x : N) :
  (0 < x)%N ->
  exists k : nat, 10 ^ Z.of_nat k <= 10 * Z.of_N x /\
    forall (st : int_state) (negative : bool) (acc : Z) (digits : nat)
           (s : string),
      st <> Trailing ->
      int_scan st negative acc digits (pretty_N_go x s)
      = int_scan Digit negative (acc * 10 ^ Z.of_nat k + Z.of_N x)
                 (digits + k) s.
Proof.
  induction (N.lt_wf_0 x) as [x _ IH]. intros Hx.
  assert (Hdigit : digit_of (pretty_N_char (x `mod` 10)%N)
                   = Some (Z.of_N (x `mod` 10)%N))
    by (apply digit_of_pretty_N_char; now apply N.mod_lt).
  assert (Hx10 : x = (10 * (x `div` 10) + x `mod` 10)%N)
    by (now apply N.div_mod).
  destruct (N.eq_dec (x `div` 10)%N 0%N) as [E|E].
  - exists 1%nat. split; [simpl; lia|]. intros st negative acc digits s Hst.
    rewrite pretty_N_go_step by exact Hx. rewrite E, pretty_N_go_0.
    simpl. rewrite Hdigit.
    replace (digits + 1)%nat with (S digits) by lia.
    replace (acc * 10 ^ Z.of_nat 1 + Z.of_N x)
      with (10 * acc + Z.of_N (x `mod` 10)%N)
      by (change (Z.of_nat 1) with 1; lia).
    now destruct st.
  - destruct (IH (x `div` 10)%N) as (k & Hk & Hscan);
      [apply N.div_lt; lia|now apply N.neq_0_lt_0|].
    assert (HxZ : Z.of_N x = 10 * Z.of_N (x `div` 10)%N + Z.of_N (x `mod` 10)%N)
      by lia.
    assert (Hpow : 10 ^ Z.of_nat (S k) = 10 * 10 ^ Z.of_nat k)
      by (rewrite Nat2Z.inj_succ, Z.pow_succ_r by lia; reflexivity).
    exists (S k). split.
    + rewrite Hpow, HxZ.
      assert (0 <= Z.of_N (x `mod` 10)%N) by apply N2Z.is_nonneg.
      revert Hk. generalize (10 ^ Z.of_nat k) (Z.of_N (x `div` 10)%N)
                            (Z.of_N (x `mod` 10)%N) H.
      clear. intros. lia.
    + intros st negative acc digits s Hst.
      rewrite pretty_N_go_step by exact Hx. rewrite (Hscan st) by exact Hst.
      cbn [int_scan]. rewrite Hdigit, Hpow. f_equal; lia.
Qed.

Lemma string_drop_ARG (s : string) : string_drop 3 ("ARG" +:+ s) = s.
Proof. reflexivity. Qed.

Lemma ARG_not_user_const (s : string) :
  String.eqb ("ARG" +:+ s) "user_const" = false.
Proof. reflexivity. Qed.

(** [int] reads back the decimal text of a token index. *)
Lemma py_int_pretty (n : Z) : 0 <= n < 2 ^ 31 -> py_int (pretty n) = Ok n.
Proof.
  intros Hn. destruct n as [|p|p]; [reflexivity| |lia].
  unfold py_int, pretty, pretty_Z, pretty, pretty_positive, pretty, pretty_N.
  destruct (decide (N.pos p = 0%N)) as [E|_]; [discriminate|].
  destruct (int_scan_pretty_N_go (N.pos p)) as (k & Hk & Hscan); [lia|].
  rewrite (Hscan Leading) by discriminate. cbn [int_scan].
  assert (k <= 11)%nat.
  { destruct (le_gt_dec k 11) as [|Hgt]; [assumption|exfalso].
    assert (10 ^ 12 <= 10 ^ Z.of_nat k) by (apply Z.pow_le_mono_r; lia).
    change (Z.of_N (N.pos p)) with (Z.pos p) in Hk. lia. }
  destruct (Nat.ltb_spec int_max_str_digits (0 + k)) as [Hlim|_].
  - unfold int_max_str_digits in Hlim. lia.
  - reflexivity.
Qed.

Section RoundTrip.

Variable lib : Library.
Variable mapping : gmap string node.

Local Abbreviation mc := "mutable_const".
Local Abbreviation one := (Terminal "mutable_const" (VFloat 1)).
Local Abbreviation mapping1 := (<["mutable_const" := one]> mapping).

(** What [DEAP_to_tokens] computes for a registered node: a token that the
    library gives the node's arity and whose entry leads back to the node. *)
Lemma registered_token (nd : node) :
  registered lib mapping nd ->
  exists t,
    token_of_node lib nd = Ok t /\
    Py.index (arities lib) t = Ok (Z.of_nat (node_arity nd)) /\
    leads_back lib mapping t nd.
Proof.
  destruct nd as [name arity|name value]; unfold registered.
  - intros (t & Hname & Hfirst & Hrange & Hentry & Harity & Hmap).
    exists (Z.of_nat t). simpl.
    rewrite (list_index_first _ _ _ Hname Hfirst). simpl.
    split; [apply store_int32_id; lia|].
    split; [now apply index_lookup|].
    exists (EFunc name). split; [now apply index_lookup|]. simpl.
    exists name. split; [reflexivity|exact Hmap].
  - destruct (String.eqb (text name) "mutable_const") eqn:Hmc.
    + intros (Hint & c & s & v0 & Hc & Hrange & Hentry & Harity & Hmap).
      exists c. apply String.eqb_eq in Hmc. simpl.
      unfold is_literal. rewrite Hint, Hmc. simpl. rewrite Hc.
      split; [now apply store_int32_id|]. split; [exact Harity|].
      exists (EStr s). split; [exact Hentry|]. unfold is_mutable_const.
      rewrite Hmc. simpl. split; [now exists s|now exists v0].
    + intros (n & Hname & Hrange & Hentry & Harity & Hmap).
      exists (Z.of_nat n). unfold token_of_node, is_literal.
      rewrite Hmc, Hname, ARG_not_user_const, string_drop_ARG.
      rewrite !andb_false_r, py_int_pretty by lia. simpl.
      split; [apply store_int32_id; lia|].
      split; [now apply index_lookup|].
      exists (EInt (Z.of_nat n)). split; [now apply index_lookup|].
      unfold is_mutable_const. rewrite Hmc. simpl.
      exists ("x" +:+ pretty (Z.of_nat n + 1)). split; [reflexivity|exact Hmap].
Qed.

Lemma registered_tokens (ind : Individual) :
  Forall (registered lib mapping) ind ->
  exists toks,
    mapM (token_of_node lib) ind = Ok toks /\
    arities_of lib toks = Ok (node_arities ind) /\
    Forall2 (leads_back lib mapping) toks ind.
Proof.
  induction 1 as [|nd ind Hnd _ (toks & Hm & Hars & Hf)].
  - exists []. repeat split; constructor.
  - destruct (registered_token nd Hnd) as (t & Ht & Ha & Hback).
    exists (t :: toks). unfold arities_of in *. simpl.
    rewrite Ht, Hm, Ha, Hars. simpl. repeat split; [].
    constructor; [|exact Hf]. exact Hback.
Qed.

Lemma mapping_inv_lookup (M : gmap string node) (key : string) (nd : node) :
  mapping_inv mapping M -> is_mutable_const nd = false ->
  mapping !! key = Some nd -> M !! key = Some nd.
Proof.
  intros [->|[-> [v0 Hv0]]] Hnd Hkey; [exact Hkey|].
  destruct (decide (key = mc)) as [->|Hne].
  - rewrite Hkey in Hv0. injection Hv0 as ->. discriminate.
  - now rewrite lookup_insert_ne by congruence.
Qed.

Lemma mapping_inv_const (M : gmap string node) :
  mapping_inv mapping M ->
  (exists v0, mapping !! mc = Some (Terminal mc v0)) ->
  exists v, M !! mc = Some (Terminal mc v) /\ <[mc := one]> M = mapping1.
Proof.
  intros [->|[-> _]] [v0 Hv0].
  - now exists v0.
  - exists (VFloat 1). split; [apply lookup_insert_eq|apply insert_insert_eq].
Qed.

Lemma translate_leads_back (M : gmap string node) (plist : list string)
  (t : Z) (nd : node) :
  leads_back lib mapping t nd -> mapping_inv mapping M ->
  exists M' key,
    translate lib (M, plist) t = Ok (M', plist ++ [key]) /\
    mapping_inv mapping M' /\ key_of mapping key nd /\
    (M = mapping1 -> M' = mapping1) /\
    (is_mutable_const nd = true -> M' = mapping1).
Proof.
  intros (e & He & Hback) Hinv. unfold translate, key_of. simpl. rewrite He.
  simpl. destruct (is_mutable_const nd) eqn:Hnd.
  - destruct Hback as [[s ->] Hv0].
    destruct (mapping_inv_const M Hinv Hv0) as (v & Hv & HM).
    exists mapping1, mc. unfold mapping_get. rewrite Hv. simpl. rewrite HM.
    repeat split; auto. right. split; [reflexivity|exact Hv0].
  - destruct Hback as (key & Hkey & Hmap).
    pose proof (mapping_inv_lookup M key nd Hinv Hnd Hmap) as HM.
    exists M, key.
    destruct e as [v|s|n|name]; simpl in Hkey; try discriminate;
      injection Hkey as <-; unfold mapping_get; rewrite HM; simpl;
      repeat split; auto; discriminate.
Qed.

Lemma translate_all_leads_back (toks : list Z) (ind : Individual) :
  Forall2 (leads_back lib mapping) toks ind ->
  forall (M : gmap string node) (plist : list string),
    mapping_inv mapping M ->
    exists M' keys,
      translate_all lib (M, plist) toks = Ok (M', plist ++ keys) /\
      mapping_inv mapping M' /\ Forall2 (key_of mapping) keys ind /\
      (M = mapping1 -> M' = mapping1) /\
      (forall nd, nd ∈ ind -> is_mutable_const nd = true -> M' = mapping1).
Proof.
  induction 1 as [|t nd toks ind Hback _ IH]; intros M plist Hinv.
  - exists M, []. simpl. rewrite app_nil_r.
    split; [reflexivity|]. split; [exact Hinv|]. split; [constructor|].
    split; [auto|]. intros nd Hnd. inversion Hnd.
  - destruct (translate_leads_back M plist t nd Hback Hinv)
      as (M1 & key & Ht & Hinv1 & Hkey & Hkeep1 & Hconst1).
    destruct (IH M1 (plist ++ [key]) Hinv1)
      as (M' & keys & Hts & Hinv' & Hkeys & Hkeep & Hconst).
    exists M', (key :: keys). simpl. rewrite Ht. simpl. rewrite Hts.
    rewrite <- app_assoc. simpl.
    split; [reflexivity|]. split; [exact Hinv'|]. split; [now constructor|].
    split; [auto|].
    intros nd' Hnd' Hmc. apply elem_of_cons in Hnd' as [->|Hnd']; eauto.
Qed.

Lemma read_back (M' : gmap string node) (keys : list string) (ind : Individual) :
  mapping_inv mapping M' ->
  Forall2 (key_of mapping) keys ind ->
  (forall nd, nd ∈ ind -> is_mutable_const nd = true -> M' = mapping1) ->
  mapM (mapping_get M') keys = Ok (map reset_const ind).
Proof.
  intros Hinv Hkeys. induction Hkeys as [|key nd keys ind Hkey _ IH];
    intros Hconst; [reflexivity|].
  simpl. rewrite IH by (intros nd' Hnd'; apply Hconst; now right).
  unfold key_of, reset_const in *. unfold mapping_get.
  destruct (is_mutable_const nd) eqn:Hnd.
  - subst key. rewrite (Hconst nd) by (now left || exact Hnd).
    now rewrite lookup_insert_eq.
  - now rewrite (mapping_inv_lookup M' key nd Hinv Hnd Hkey).
Qed.

Variable ind : Individual.
Variable tokens_size : nat.

Hypothesis ind_balanced : balanced ind.
Hypothesis ind_fits : (length ind <= tokens_size)%nat.
Hypothesis ind_registered : Forall (registered lib mapping) ind.
Hypothesis padding_arity :
  (length ind < tokens_size)%nat -> exists a0, Py.index (arities lib) 0 = Ok a0.

Lemma padded_arities (toks : list Z) :
  arities_of lib toks = Ok (node_arities ind) ->
  exists pad,
    arities_of lib (toks ++ replicate (tokens_size - length ind) 0)
    = Ok (node_arities ind ++ pad).
Proof.
  intros Hars. destruct (decide (length ind < tokens_size)%nat) as [Hlt|Hge].
  - destruct (padding_arity Hlt) as [a0 Ha0].
    exists (replicate (tokens_size - length ind) a0).
    unfold arities_of in *. apply mapM_app. do 2 eexists.
    split; [exact Hars|]. split; [|reflexivity]. now apply mapM_replicate.
  - exists []. replace (tokens_size - length ind)%nat with 0%nat by lia.
    simpl. now rewrite !app_nil_r.
Qed.

(** C1 (amended): for every arity-balanced tree that fits in the token
    array and whose nodes are registered in the library and the primitive
    set (primitives listed in the library, arguments [ARG<n>] at token [n],
    optimisable constants with the interned name; no [user_const] node),
    [DEAP_to_tokens] followed by [tokens_to_DEAP] returns the same nodes in
    the same order, except that every optimisable constant comes back with
    the value 1.0: the token array keeps no constant values. *)
Theorem codec_round_trip :
  exists tokens mapping',
    DEAP_to_tokens lib ind tokens_size = Ok (tokens, Z.of_nat (length ind)) /\
    tokens_to_DEAP lib tokens mapping = Ok (map reset_const ind, mapping').
Proof.
  destruct (registered_tokens ind ind_registered) as (toks & Hm & Hars & Hback).
  destruct (padded_arities toks Hars) as (pad & Hpad).
  pose proof (first_zero_at_app _ pad _ ind_balanced) as Hfz.
  pose proof ind_balanced as [Hlen _].
  assert (Hlt : length toks = length ind) by (now apply mapM_length in Hm).
  exists (toks ++ replicate (tokens_size - length ind) 0).
  destruct (translate_all_leads_back toks ind Hback mapping []
              (or_introl eq_refl)) as (M' & keys & Hts & Hinv & Hkeys & _ & Hconst).
  exists M'. split.
  - unfold DEAP_to_tokens. rewrite (fill_tokens_fits lib ind _ toks ind_fits Hm).
    simpl. rewrite Hpad. simpl. rewrite (argmax_first_zero _ _ Hfz). simpl.
    do 2 f_equal. lia.
  - unfold tokens_to_DEAP, _finish_tokens. rewrite Hpad. simpl.
    rewrite (first_true_first_zero _ _ Hfz).
    replace (S (length ind - 1)) with (length toks) by lia.
    rewrite take_app_length. simpl. rewrite Hts. simpl.
    now rewrite (read_back M' keys ind Hinv Hkeys Hconst).
Qed.

End RoundTrip.

Lemma const_tree_balanced : balanced const_tree.
Proof.
  split; [simpl; lia|]. split; [reflexivity|].
  intros [|[|[|q]]] Hq; try (simpl in Hq; lia); vm_compute; discriminate.
Qed.

Lemma const_tree_registered : Forall (registered example_lib example_pset) const_tree.
Proof.
  constructor; [|constructor; [|constructor; [|constructor]]].
  - exists 1%nat. split; [reflexivity|]. split.
    + intros [|j] Hj; [discriminate|lia].
    + repeat split; reflexivity.
  - split; [reflexivity|].
    exists 6, "const", (VStr "mutable_const").
    split; [reflexivity|]. split; [lia|]. repeat split; reflexivity.
  - exists 0%nat. repeat split; reflexivity.
Qed.

Lemma codec_round_trip_witness :
  exists tokens mapping',
    DEAP_to_tokens example_lib const_tree 5 = Ok (tokens, 3) /\
    tokens_to_DEAP example_lib tokens example_pset
    = Ok ([Primitive "add" 2; Terminal "mutable_const" (VFloat 1); x1_node],
          mapping').
Proof.
  apply (codec_round_trip example_lib example_pset const_tree 5).
  - exact const_tree_balanced.
  - simpl. lia.
  - exact const_tree_registered.
  - intros _. now exists 0.
Defined.

Lemma float_one_not_2_5 : 1%float <> 2.5%float.
Proof.
  intros H. apply (f_equal (fun v => PrimFloat.eqb v 1%float)) in H.
  vm_compute in H. discriminate.
Qed.

(** C1, as stated, fails on constant values: the balanced tree
    [add(2.5, x1)], whose constant was set by the optimiser, fits in five
    cells and comes back as [add(1.0, x1)]. *)
Lemma round_trip_loses_constant :
  balanced const_tree /\
  (length const_tree <= 5)%nat /\
  DEAP_to_tokens example_lib const_tree 5 = Ok ([1; 6; 0; 0; 0], 3) /\
  (exists mapping',
      tokens_to_DEAP example_lib [1; 6; 0; 0; 0] example_pset
      = Ok ([Primitive "add" 2; Terminal "mutable_const" (VFloat 1); x1_node],
            mapping')) /\
  [Primitive "add" 2; Terminal "mutable_const" (VFloat 1); x1_node]
  <> const_tree.
Proof.
  split; [exact const_tree_balanced|]. split; [simpl; lia|].
  split; [reflexivity|]. split.
  - eexists. vm_compute. reflexivity.
  - intros H.
    apply (f_equal (fun l => match l !! 1%nat with
                             | Some (Terminal _ (VFloat v)) => v
                             | _ => 0%float
                             end)) in H.
    simpl in H. now apply float_one_not_2_5.
Qed.

(** A hard-coded constant is outside the round trip as well: the token of a
    [user_const] node is its value cut to an integer (line 182), not the
    index of a library entry. Over the library [x1, add, 2.0, 3.0] the tree
    [add(0.5, x1)] gets the tokens [1; 0; 0] and comes back as
    [add(x1, x1)]. *)
Lemma round_trip_user_const :
  DEAP_to_tokens const_lib
    [Primitive "add" 2; Terminal "user_const" (VFloat 0.5); x1_node] 3
  = Ok ([1; 0; 0], 3) /\
  exists mapping',
    tokens_to_DEAP const_lib [1; 0; 0] example_pset
    = Ok ([Primitive "add" 2; x1_node; x1_node], mapping').
Proof.
  split; [reflexivity|]. eexists. vm_compute. reflexivity.
Qed.

(** C3, as stated, fails in both directions. The one-token sequence [x1]
    passes the five checks of the validator, yet the mask forbids every
    terminal at position 0. The mask knows no depth: it allows every token
    of [log(sin(log(x1)))], whose height 3 exceeds a depth limit of 2. And
    it does not cap the length: with [max_len = 3] it allows every token of
    [log(log(log(x1)))], which has four tokens, since the late-length rule
    never masks a unary token. *)
Lemma priors_and_validator_disagree :
  (satisfies_constraints example_UNARY example_BINARY 10 1 5 [x1_node] /\
   DEAP_to_tokens example_lib [x1_node] 1 = Ok ([0], 1) /\
   generate_priors example_lib [0] 1 1 0 10 1
   = Ok [[neg_infinity; 0; 0; 0; 0; 0; neg_infinity]]%float /\
   masked [[neg_infinity; 0; 0; 0; 0; 0; neg_infinity]]%float 0 0 = true) /\
  (DEAP_to_tokens example_lib deep_tree 4 = Ok ([3; 2; 3; 0], 4) /\
   (exists P, generate_priors example_lib [3; 2; 3; 0] 4 4 0 10 1 = Ok P /\
              permittedb P [3; 2; 3; 0] = true) /\
   height deep_tree = Ok 3 /\
   ~ satisfies_constraints example_UNARY example_BINARY 10 1 2 deep_tree) /\
  (DEAP_to_tokens example_lib long_tree 4 = Ok ([3; 3; 3; 0], 4) /\
   (exists P, generate_priors example_lib [3; 3; 3; 0] 4 4 0 3 1 = Ok P /\
              permittedb P [3; 3; 3; 0] = true) /\
   ~ satisfies_constraints example_UNARY example_BINARY 3 1 5 long_tree).
Proof.
  split; [|split].
  - split; [|repeat split; reflexivity].
    unfold satisfies_constraints. simpl. repeat split; try lia; try reflexivity.
    exists 0. split; [reflexivity|lia].
  - split; [reflexivity|]. split; [|split; [reflexivity|]].
    + eexists. split; vm_compute; reflexivity.
    + intros (_ & _ & (h & Hh & Hle) & _).
      vm_compute in Hh. injection Hh as <-. lia.
  - split; [reflexivity|]. split.
    + eexists. split; vm_compute; reflexivity.
    + intros (Hlen & _). simpl in Hlen. lia.
Qed.

(* ===================================================================== *)
(** * Further properties of the module *)
(* ===================================================================== *)

(* ===================================================================== *)
(** ** The validators under extension *)
(* ===================================================================== *)

Lemma inverse_adjacent_context (pre names post : list string) :
  inverse_adjacent names -> inverse_adjacent (pre ++ names ++ post).
Proof.
  intros (i & t & u & Hi & Hu & Hn).
  exists (length pre + i)%nat, t, u. split; [|split; [exact Hu|]].
  - rewrite lookup_app_r by lia.
    replace (length pre + i - length pre)%nat with i by lia.
    now apply lookup_app_l_Some.
  - replace (S (length pre + i)) with (length pre + S i)%nat by lia.
    rewrite lookup_app_r by lia.
    replace (length pre + S i - length pre)%nat with (S i) by lia.
    now apply lookup_app_l_Some.
Qed.

(** X1: a sequence of fewer than two names has no pair to reject, and a
    rejected sequence stays rejected inside any longer sequence. *)
Theorem check_inv_context :
  (forall names : list string,
      (length names < 2)%nat -> check_inv names = false) /\
  (forall pre names post : list string,
      check_inv names = true -> check_inv (pre ++ names ++ post) = true).
Proof.
  split.
  - intros names Hlen. destruct (check_inv names) eqn:E; [|reflexivity].
    apply check_inv_sound in E as (i & t & u & Hi & _ & Hn).
    apply lookup_lt_Some in Hn. lia.
  - intros pre names post H. apply check_inv_complete.
    apply inverse_adjacent_context. now apply check_inv_sound.
Qed.

Lemma check_inv_context_witness :
  check_inv ["x1"] = false /\
  check_inv (["add"] ++ ["exp"; "log"] ++ ["x1"; "x1"]) = true.
Proof.
  destruct check_inv_context as [Hshort Hctx]. split.
  - apply Hshort. simpl. lia.
  - apply Hctx. reflexivity.
Defined.

(** Every trig token directly followed by its arc function is rejected by
    the inverse check, and so is the arc function directly followed by the
    trig token. *)
Theorem check_inv_trig_arc (names : list string) (i : nat) (t : string) :
  t ∈ TRIG_TOKENS ->
  (names !! i = Some t /\ names !! S i = Some ("arc" +:+ t)) \/
  (names !! i = Some ("arc" +:+ t) /\ names !! S i = Some t) ->
  check_inv names = true.
Proof.
  intros Ht H. apply check_inv_complete.
  assert (Hpair : dict_get INVERSE_TOKENS t = Some ("arc" +:+ t) /\
                  dict_get INVERSE_TOKENS ("arc" +:+ t) = Some t).
  { unfold TRIG_TOKENS in Ht.
    repeat (apply elem_of_cons in Ht as [->|Ht]; [split; reflexivity|]).
    inversion Ht. }
  destruct Hpair as [H1 H2].
  destruct H as [[Hi Hn]|[Hi Hn]].
  - now exists i, t, ("arc" +:+ t).
  - now exists i, ("arc" +:+ t), t.
Qed.

Lemma check_inv_trig_arc_witness :
  check_inv ["mul"; "arccos"; "cos"; "x1"; "x1"] = true.
Proof.
  apply (check_inv_trig_arc _ 1%nat "cos").
  - by_evaluation.
  - right. split; reflexivity.
Defined.

Section CheckTrigMore.

Variables UNARY_TOKENS BINARY_TOKENS : list string.

Lemma nested_trig_context (pre names post : list string) :
  nested_trig UNARY_TOKENS BINARY_TOKENS names ->
  nested_trig UNARY_TOKENS BINARY_TOKENS (pre ++ names ++ post).
Proof.
  intros (p & t1 & mid & t2 & q & -> & H).
  exists (pre ++ p), t1, mid, t2, (q ++ post). split; [|exact H].
  rewrite <- !app_assoc. simpl. rewrite <- !app_assoc. reflexivity.
Qed.

(** X2: a sequence without trig tokens is never rejected by the trig check, and
    a rejected sequence stays rejected inside any longer sequence. *)
Theorem check_trig_context :
  (forall names : list string,
      Forall (fun n => n ∉ TRIG_TOKENS) names ->
      check_trig UNARY_TOKENS BINARY_TOKENS names = false) /\
  (forall pre names post : list string,
      check_trig UNARY_TOKENS BINARY_TOKENS names = true ->
      check_trig UNARY_TOKENS BINARY_TOKENS (pre ++ names ++ post) = true).
Proof.
  split.
  - intros names H. unfold check_trig. now apply loop_trig_free.
  - intros pre names post H. apply check_trig_true.
    apply nested_trig_context. now apply check_trig_true.
Qed.

Lemma local_sum_unary (mid : list string) :
  Forall (fun n => n ∈ UNARY_TOKENS /\ n ∉ BINARY_TOKENS) mid ->
  local_sum UNARY_TOKENS BINARY_TOKENS mid = 0.
Proof.
  induction 1 as [|a mid [Hu Hb] _ IH]; [reflexivity|].
  unfold local_sum in *. simpl. rewrite IH. unfold local_delta.
  rewrite bool_decide_eq_false_2 by exact Hb.
  now rewrite bool_decide_eq_true_2 by exact Hu.
Qed.

(** X3: two trig tokens with nothing but unary operators between them are
    rejected, wherever they stand: a chain of unary operators never closes
    the subtree of the first trig token. *)
Theorem check_trig_unary_chain (pre : list string) (t1 : string)
  (mid : list string) (t2 : string) (post : list string) :
  t1 ∈ TRIG_TOKENS -> t2 ∈ TRIG_TOKENS ->
  Forall (fun n => n ∈ UNARY_TOKENS /\ n ∉ BINARY_TOKENS) mid ->
  check_trig UNARY_TOKENS BINARY_TOKENS (pre ++ t1 :: mid ++ t2 :: post) = true.
Proof.
  intros Ht1 Ht2 Hmid. apply check_trig_true.
  exists pre, t1, mid, t2, post. split; [reflexivity|].
  split; [exact Ht1|]. split; [exact Ht2|].
  intros k Hk. unfold local_balance.
  rewrite local_sum_unary; [lia|]. now apply Forall_take.
Qed.

End CheckTrigMore.

Lemma check_trig_context_witness :
  check_trig example_UNARY example_BINARY ["add"; "log"; "x1"; "x1"] = false /\
  check_trig example_UNARY example_BINARY
    (["mul"; "x1"] ++ ["sin"; "cos"; "x1"] ++ ["x1"]) = true.
Proof.
  destruct (check_trig_context example_UNARY example_BINARY) as [Hfree Hctx].
  split.
  - apply Hfree. repeat constructor; by_evaluation.
  - apply Hctx. reflexivity.
Defined.

Lemma check_trig_unary_chain_witness :
  check_trig example_UNARY example_BINARY
    (["add"; "x1"] ++ "sin" :: ["log"; "exp"] ++ "cos" :: ["x1"]) = true.
Proof.
  apply check_trig_unary_chain.
  - by_evaluation.
  - by_evaluation.
  - repeat constructor; by_evaluation.
Defined.

(* ===================================================================== *)
(** ** More on the [checkConstraint] decorator *)
(* ===================================================================== *)

Section CheckConstraintMore.

Variables UNARY_TOKENS BINARY_TOKENS : list string.
Variables max_length min_length max_depth : Z.
Variable func : list Individual -> rng -> result (list Individual * rng).

Local Abbreviation satisfies :=
  (satisfies_constraints UNARY_TOKENS BINARY_TOKENS max_length min_length max_depth).
Local Abbreviation constrain' :=
  (constrain UNARY_TOKENS BINARY_TOKENS max_length min_length max_depth).
Local Abbreviation constrain_all' :=
  (constrain_all UNARY_TOKENS BINARY_TOKENS max_length min_length max_depth).
Local Abbreviation wrapper' :=
  (wrapper UNARY_TOKENS BINARY_TOKENS max_length min_length max_depth func).

Lemma constrain_keeps_valid (keep_inds : list Individual) (ind : Individual)
  (g : rng) :
  satisfies ind -> constrain' keep_inds ind g = Ok (ind, g).
Proof.
  intros (Hmax & Hmin & (h & Hh & Hle) & Hinv & Htrig). unfold constrain.
  destruct (Z.gtb_spec (Z.of_nat (length ind)) max_length); [lia|].
  destruct (Z.ltb_spec (Z.of_nat (length ind)) min_length); [lia|].
  rewrite Hh. simpl. destruct (Z.gtb_spec h max_depth); [lia|].
  now rewrite Hinv, Htrig.
Qed.

Lemma constrain_all_keeps_valid (keep_inds new_inds : list Individual) (g : rng) :
  Forall satisfies new_inds ->
  constrain_all' keep_inds new_inds g = Ok (new_inds, g).
Proof.
  induction 1 as [|ind rest Hind _ IH]; [reflexivity|].
  simpl. rewrite (constrain_keeps_valid _ _ _ Hind). simpl.
  now rewrite IH.
Qed.

(** X4: individuals that satisfy the five constraints pass through the
    decorator untouched, in order, and without a single random draw. *)
Theorem wrapper_keeps_valid (args new_inds : list Individual) (g g1 : rng) :
  func args g = Ok (new_inds, g1) ->
  Forall satisfies new_inds ->
  wrapper' args g = Ok (new_inds, g1).
Proof.
  intros Hf Hall. unfold wrapper. rewrite Hf. simpl.
  now apply constrain_all_keeps_valid.
Qed.

(** The decorator returns as many individuals as the operator produced,
    and an exception of the operator is the exception of the call. *)
Theorem wrapper_length :
  (forall (args new_inds out : list Individual) (g g1 g' : rng),
      func args g = Ok (new_inds, g1) ->
      wrapper' args g = Ok (out, g') ->
      length out = length new_inds) /\
  (forall (args : list Individual) (g : rng) (e : exn),
      func args g = Raise e -> wrapper' args g = Raise e).
Proof.
  split.
  - intros args new_inds out g g1 g' Hf H. unfold wrapper in H.
    rewrite Hf in H. simpl in H.
    now apply constrain_all_sound in H as [_ H].
  - intros args g e Hf. unfold wrapper. now rewrite Hf.
Qed.

Lemma constrain_no_parent (ind : Individual) (g : rng) :
  ~ satisfies ind -> constrain' [] ind g = Raise IndexError.
Proof.
  intros Hnot. unfold constrain.
  destruct (Z.gtb_spec (Z.of_nat (length ind)) max_length); [reflexivity|].
  destruct (Z.ltb_spec (Z.of_nat (length ind)) min_length); [reflexivity|].
  destruct (height ind) as [h|e] eqn:Hh; simpl.
  - destruct (Z.gtb_spec h max_depth); [reflexivity|].
    destruct (check_inv (map node_name ind)) eqn:Hinv; [reflexivity|].
    destruct (check_trig _ _ (map node_name ind)) eqn:Htrig; [reflexivity|].
    exfalso. apply Hnot. unfold satisfies_constraints.
    repeat split; try lia; try assumption. exists h. split; [exact Hh|lia].
  - assert (e = IndexError) as ->; [|reflexivity].
    clear -Hh. unfold height in Hh. revert Hh. generalize [0]. generalize 0.
    induction ind as [|nd ind IH]; intros m stack H; simpl in H; [discriminate|].
    destruct stack as [|d stack]; [now injection H|]. now apply IH in H.
Qed.

(** X5: called without an input individual, the decorator has nothing to fall
    back on: the first new individual that violates a constraint makes the
    call raise [IndexError], from [random.choice] on the empty list. *)
Theorem wrapper_no_parent (new_inds rest : list Individual) (bad : Individual)
  (g g1 : rng) :
  func [] g = Ok (new_inds ++ bad :: rest, g1) ->
  Forall satisfies new_inds ->
  ~ satisfies bad ->
  wrapper' [] g = Raise IndexError.
Proof.
  intros Hf Hall Hbad. unfold wrapper. rewrite Hf. simpl. clear Hf.
  induction Hall as [|ind new_inds Hind _ IH]; simpl.
  - now rewrite (constrain_no_parent bad g1 Hbad).
  - rewrite (constrain_keeps_valid _ _ _ Hind). simpl. now rewrite IH.
Qed.

End CheckConstraintMore.

(** A mutation that returns its arguments as they are. *)
Lemma wrapper_keeps_valid_witness :
  wrapper example_UNARY example_BINARY 10 1 5 (fun args g => Ok (args, g))
          [[Primitive "sin" 1; x1_node]; [x1_node]] (Rng (fun _ => 0%nat) 0)
  = Ok ([[Primitive "sin" 1; x1_node]; [x1_node]], Rng (fun _ => 0%nat) 0).
Proof.
  apply wrapper_keeps_valid; [reflexivity|].
  repeat constructor; simpl; try lia; try reflexivity;
    eexists; (split; [reflexivity|lia]).
Defined.

Lemma wrapper_length_witness :
  length [[Primitive "sin" 1; x1_node];
          [Primitive "sin" 1; Primitive "exp" 1; x1_node]] = 2%nat.
Proof.
  destruct (wrapper_length example_UNARY example_BINARY 10 1 5 wrap_in_sin)
    as [Hlen _].
  apply (Hlen [[Primitive "sin" 1; x1_node]; [Primitive "exp" 1; x1_node]]
              [[Primitive "sin" 1; Primitive "sin" 1; x1_node];
               [Primitive "sin" 1; Primitive "exp" 1; x1_node]]
              _ (Rng (fun _ => 0%nat) 0) (Rng (fun _ => 0%nat) 0)
              (Rng (fun _ => 0%nat) 1)); reflexivity.
Defined.

Lemma wrapper_no_parent_witness :
  wrapper example_UNARY example_BINARY 10 1 5
          (fun _ g => Ok ([[x1_node]; [Primitive "sin" 1; Primitive "sin" 1; x1_node]], g))
          [] (Rng (fun _ => 0%nat) 0)
  = Raise IndexError.
Proof.
  apply (wrapper_no_parent example_UNARY example_BINARY 10 1 5 _
           [[x1_node]] [] [Primitive "sin" 1; Primitive "sin" 1; x1_node]
           _ (Rng (fun _ => 0%nat) 0)).
  - reflexivity.
  - repeat constructor; simpl; try lia; try reflexivity.
    eexists; (split; [reflexivity|lia]).
  - intros (_ & _ & _ & _ & H). vm_compute in H. discriminate.
Defined.

(* ===================================================================== *)
(** ** The [popConstraint] decorator *)
(* ===================================================================== *)

Section PopConstraintFacts.

Variables UNARY_TOKENS BINARY_TOKENS : list string.
Variable Args : Type.
Variable func : Args -> rng -> result (Individual * rng).

Local Abbreviation pop := (pop_loop UNARY_TOKENS BINARY_TOKENS Args func).

(** X6: whatever [popConstraint] returns has passed both validators: it has no
    inverse-adjacent pair and no nested trig token, and it is an individual
    that the generator produced. *)
Theorem pop_loop_valid (fuel : nat) :
  forall (args : Args) (g g' : rng) (inds : Individual),
    pop fuel args g = Some (Ok (inds, g')) ->
    check_inv (map node_name inds) = false /\
    check_trig UNARY_TOKENS BINARY_TOKENS (map node_name inds) = false /\
    exists g0, func args g0 = Ok (inds, g').
Proof.
  induction fuel as [|fuel IH]; intros args g g' inds H; [discriminate|].
  simpl in H. destruct (func args g) as [[inds1 g1]|e] eqn:Hf; [|discriminate].
  destruct (check_inv (map node_name inds1)) eqn:Hinv; [now apply IH in H|].
  destruct (check_trig _ _ (map node_name inds1)) eqn:Htrig;
    [now apply IH in H|].
  injection H as <- <-. eauto.
Qed.

(** X7: a generator that only produces rejected individuals keeps the decorator
    in its loop: no number of turns ends it. *)
Theorem pop_loop_diverges (args : Args) :
  (forall g, exists inds g',
      func args g = Ok (inds, g') /\
      (check_inv (map node_name inds) = true \/
       check_trig UNARY_TOKENS BINARY_TOKENS (map node_name inds) = true)) ->
  forall (fuel : nat) (g : rng), pop fuel args g = None.
Proof.
  intros Hbad. induction fuel as [|fuel IH]; intros g; [reflexivity|].
  simpl. destruct (Hbad g) as (inds & g' & -> & Hrej).
  destruct (check_inv (map node_name inds)); [apply IH|].
  destruct Hrej as [Hrej|Hrej]; [discriminate|]. rewrite Hrej. apply IH.
Qed.

(** A valid first attempt is returned at once. *)
Lemma pop_loop_first_valid (fuel : nat) (args : Args) (g g' : rng)
  (inds : Individual) :
  func args g = Ok (inds, g') ->
  check_inv (map node_name inds) = false ->
  check_trig UNARY_TOKENS BINARY_TOKENS (map node_name inds) = false ->
  pop (S fuel) args g = Some (Ok (inds, g')).
Proof. intros Hf Hinv Htrig. simpl. now rewrite Hf, Hinv, Htrig. Qed.

End PopConstraintFacts.

Lemma pop_loop_valid_witness :
  check_inv (map node_name [Primitive "sin" 1; x1_node]) = false /\
  check_trig example_UNARY example_BINARY
             (map node_name [Primitive "sin" 1; x1_node]) = false /\
  exists g0, alternating_generator tt g0
             = Ok ([Primitive "sin" 1; x1_node], Rng (fun _ => 0%nat) 2).
Proof.
  apply (pop_loop_valid example_UNARY example_BINARY unit alternating_generator
           5 tt (Rng (fun _ => 0%nat) 0)).
  reflexivity.
Defined.

Lemma pop_loop_diverges_witness :
  pop_loop example_UNARY example_BINARY unit
           (fun _ g => Ok ([Primitive "exp" 1; Primitive "log" 1; x1_node], g))
           7 tt (Rng (fun _ => 0%nat) 0) = None.
Proof.
  apply pop_loop_diverges. intros g. do 2 eexists.
  split; [reflexivity|]. left. reflexivity.
Defined.

(* ===================================================================== *)
(** ** Installing constants: [_set_const_individuals] *)
(* ===================================================================== *)

Lemma index_norm {A : Type} (l : list A) (i : Z) (x : A) :
  Py.index l i = Ok x <->
  exists k, norm_index (length l) i = Ok k /\ l !! k = Some x.
Proof.
  unfold Py.index, norm_index.
  destruct (_ && _) eqn:B.
  - split.
    + destruct (l !! _) as [y|] eqn:E; [|discriminate].
      intros [= <-]. eauto.
    + intros (k & [= <-] & Hk). now rewrite Hk.
  - split; [discriminate|]. now intros (k & Hk & _).
Qed.

Lemma height_loop_arities (ind : Individual) :
  forall (ind' : Individual) (stack : list Z) (m : Z),
    map node_arity ind' = map node_arity ind ->
    height_loop stack m ind' = height_loop stack m ind.
Proof.
  induction ind as [|nd ind IH]; intros [|nd' ind'] stack m H;
    try discriminate; [reflexivity|].
  injection H as Ha Hrest. simpl. destruct stack as [|d stack]; [reflexivity|].
  rewrite Ha. now apply IH.
Qed.

Lemma fmap_insert_same {A B : Type} (f : A -> B) (l : list A) (k : nat) (x y : A) :
  l !! k = Some y -> f x = f y -> map f (<[k := x]> l) = map f l.
Proof.
  intros Hk Hf. rewrite !map_fmap, list_fmap_insert, Hf.
  apply list_insert_id. now rewrite list_lookup_fmap, Hk.
Qed.

Lemma set_consts_arities (pairs : list (Z * float)) :
  forall (individual individual' : Individual),
    set_consts pairs individual = Ok individual' ->
    length individual' = length individual /\
    map node_arity individual' = map node_arity individual.
Proof.
  induction pairs as [|[i c] pairs IH]; intros ind ind' H; simpl in H.
  - now injection H as <-.
  - bind_inv H. rename a into old. bind_inv H. rename a into k.
    destruct (Nat.eqb_spec (node_arity old) 0) as [Hold|]; [|discriminate].
    apply IH in H as [Hlen Har]. rewrite length_insert in Hlen.
    split; [exact Hlen|]. rewrite Har.
    apply index_norm in Ha as (k' & Hk' & Hold').
    assert (k' = k) as -> by congruence.
    now apply (fmap_insert_same node_arity ind k _ old).
Qed.

(** X8: installing constants changes neither the number of nodes nor any arity,
    hence not the height of the tree: the length and depth checks give the
    same verdict before and after. *)
Theorem set_consts_shape (pairs : list (Z * float)) :
  forall (individual individual' : Individual),
    set_consts pairs individual = Ok individual' ->
    length individual' = length individual /\
    map node_arity individual' = map node_arity individual /\
    height individual' = height individual.
Proof.
  intros ind ind' Hs. destruct (set_consts_arities pairs ind ind' Hs) as [Hlen Har].
  split; [exact Hlen|]. split; [exact Har|].
  unfold height. now apply height_loop_arities.
Qed.

Lemma set_consts_shape_witness :
  length [Primitive "add" 2; Terminal "mutable_const" (VFloat 2.5); x1_node]
  = length [Primitive "add" 2; Terminal "mutable_const" (VStr "mutable_const");
            x1_node] /\
  map node_arity [Primitive "add" 2; Terminal "mutable_const" (VFloat 2.5); x1_node]
  = map node_arity [Primitive "add" 2;
                    Terminal "mutable_const" (VStr "mutable_const"); x1_node] /\
  height [Primitive "add" 2; Terminal "mutable_const" (VFloat 2.5); x1_node]
  = height [Primitive "add" 2; Terminal "mutable_const" (VStr "mutable_const");
            x1_node].
Proof.
  apply (set_consts_shape [(1, 2.5%float)]). reflexivity.
Defined.

Lemma set_consts_app (l1 l2 : list (Z * float)) :
  forall (individual individual' : Individual),
    set_consts (l1 ++ l2) individual = Ok individual' ->
    exists mid, set_consts l1 individual = Ok mid /\
                set_consts l2 mid = Ok individual'.
Proof.
  induction l1 as [|[i c] l1 IH]; intros ind ind' H.
  - now exists ind.
  - simpl in H. bind_inv H. bind_inv H.
    destruct (node_arity a =? 0)%nat eqn:E; [|discriminate].
    apply IH in H as (mid & H1 & H2). exists mid. simpl.
    rewrite Ha, Ha0. simpl. rewrite E. auto.
Qed.

Lemma set_consts_untouched (pairs : list (Z * float)) :
  forall (individual individual' : Individual) (k : nat),
    set_consts pairs individual = Ok individual' ->
    (forall i c, (i, c) ∈ pairs -> norm_index (length individual) i <> Ok k) ->
    individual' !! k = individual !! k.
Proof.
  induction pairs as [|[i c] pairs IH]; intros ind ind' k H Hk; simpl in H.
  - now injection H as <-.
  - bind_inv H. bind_inv H. rename a0 into k0.
    destruct (node_arity a =? 0)%nat; [|discriminate].
    rewrite (IH _ _ k H).
    + apply list_lookup_insert_ne. intros ->.
      apply (Hk i c); [left|exact Ha0].
    + intros i' c' Hin. rewrite length_insert. apply (Hk i' c'). now right.
Qed.

(** X9: every position named in [const_idxs] ends up holding a terminal called
    [mutable_const] with the constant paired with its last occurrence, and
    every other position keeps its node. *)
Theorem set_consts_values (pairs : list (Z * float))
  (individual individual' : Individual) :
  set_consts pairs individual = Ok individual' ->
  (forall k : nat,
      (forall i c, (i, c) ∈ pairs -> norm_index (length individual) i <> Ok k) ->
      individual' !! k = individual !! k) /\
  (forall (pre post : list (Z * float)) (i : Z) (c : float) (k : nat),
      pairs = pre ++ (i, c) :: post ->
      norm_index (length individual) i = Ok k ->
      (forall i' c', (i', c') ∈ post ->
                     norm_index (length individual) i' <> Ok k) ->
      individual' !! k = Some (Terminal "mutable_const" (VFloat c))).
Proof.
  intros H. split.
  - intros k Hk. now apply (set_consts_untouched pairs).
  - intros pre post i c k -> Hi Hpost.
    apply set_consts_app in H as (mid & Hpre & H).
    pose proof (set_consts_arities _ _ _ Hpre) as [Hlen _].
    simpl in H. bind_inv H. bind_inv H. rename a0 into k0.
    destruct (node_arity a =? 0)%nat; [|discriminate].
    rewrite Hlen in Ha0. assert (k0 = k) as -> by congruence.
    rewrite (set_consts_untouched post _ _ k H).
    + apply list_lookup_insert_eq. rewrite Hlen.
      now apply norm_index_lt in Hi.
    + intros i' c' Hin. rewrite length_insert, Hlen. now apply (Hpost i' c').
Qed.

Lemma set_consts_values_witness :
  [Terminal "mutable_const" (VFloat 3); x1_node] !! 0%nat
  = Some (Terminal "mutable_const" (VFloat 3)) /\
  [Terminal "mutable_const" (VFloat 3); x1_node] !! 1%nat = Some x1_node.
Proof.
  destruct (set_consts_values [(0, 2%float); (-2, 3%float)]
              [Terminal "mutable_const" (VFloat 1); x1_node]
              [Terminal "mutable_const" (VFloat 3); x1_node] eq_refl)
    as [Hkeep Hset].
  split.
  - apply (Hset [(0, 2%float)] [] (-2) 3%float 0%nat); [reflexivity|reflexivity|].
    intros i' c' Hin. inversion Hin.
  - change (Some x1_node)
      with ([Terminal "mutable_const" (VFloat 1); x1_node] !! 1%nat).
    apply Hkeep. intros i c Hin.
    apply elem_of_cons in Hin as [[= -> ->]|Hin]; [discriminate|].
    apply elem_of_cons in Hin as [[= -> ->]|Hin]; [discriminate|].
    inversion Hin.
Defined.

Lemma const_idxs_of_elem (individual : Individual) (i : Z) :
  i ∈ const_idxs_of individual ->
  exists (j : nat) (nd : node),
    i = Z.of_nat j /\ individual !! j = Some nd /\
    node_name nd = "mutable_const".
Proof.
  unfold const_idxs_of. rewrite list_elem_of_In, in_map_iff.
  intros ([j nd] & <- & Hin). apply filter_In in Hin as [Hin Hname].
  apply In_enumerate in Hin. apply String.eqb_eq in Hname. simpl in *.
  now exists j, nd.
Qed.

Lemma norm_index_nat (n j : nat) :
  (j < n)%nat -> norm_index n (Z.of_nat j) = Ok j.
Proof.
  intros H. unfold norm_index.
  destruct (Z.ltb_spec (Z.of_nat j) 0); [lia|].
  destruct (Z.leb_spec 0 (Z.of_nat j)); [|lia].
  destruct (Z.ltb_spec (Z.of_nat j) (Z.of_nat n)); [|lia].
  simpl. now rewrite Nat2Z.id.
Qed.

Lemma installable_insert (individual : Individual) (k : nat) (c : float)
  (p : Z * float) :
  installable individual p ->
  installable (<[k := Terminal "mutable_const" (VFloat c)]> individual) p.
Proof.
  intros (k' & nd & Hk' & Hnd & Har & Hname). unfold installable.
  rewrite length_insert. destruct (decide (k' = k)) as [->|Hne].
  - exists k, (Terminal "mutable_const" (VFloat c)).
    split; [exact Hk'|]. split; [|split; reflexivity].
    apply list_lookup_insert_eq. now apply lookup_lt_Some in Hnd.
  - exists k', nd. split; [exact Hk'|]. split; [|split; assumption].
    now rewrite list_lookup_insert_ne by congruence.
Qed.

Lemma set_consts_installable (pairs : list (Z * float)) :
  forall individual : Individual,
    Forall (installable individual) pairs ->
    exists individual',
      set_consts pairs individual = Ok individual' /\
      map node_name individual' = map node_name individual.
Proof.
  induction pairs as [|[i c] pairs IH]; intros ind Hall.
  - now exists ind.
  - inversion Hall as [|? ? (k & nd & Hk & Hnd & Har & Hname) Hrest]; subst.
    simpl in Hk.
    destruct (IH (<[k := Terminal "mutable_const" (VFloat c)]> ind))
      as (ind' & Hs & Hnames).
    { eapply Forall_impl; [exact Hrest|]. intros p. apply installable_insert. }
    exists ind'. simpl.
    assert (Hidx : Py.index ind i = Ok nd) by (apply index_norm; eauto).
    rewrite Hidx, Hk. simpl. rewrite Har. simpl. split; [exact Hs|].
    rewrite Hnames. now apply (fmap_insert_same node_name ind k _ nd).
Qed.

Section InstallConstants.

Variables UNARY_TOKENS BINARY_TOKENS : list string.
Variables max_length min_length max_depth : Z.

(** X10: installing constants at the positions that [__call__] computes, in a
    tree whose nodes called [mutable_const] are terminals, succeeds for any
    vector of constants and leaves every name in place; the five structural
    constraints therefore hold after it exactly when they held before. *)
Theorem install_constants (individual : Individual) (consts : list float) :
  (forall nd, nd ∈ individual -> node_name nd = "mutable_const" ->
              node_arity nd = 0%nat) ->
  exists individual',
    _set_const_individuals
      [ASelf; AIdxs (const_idxs_of individual); AConsts consts; AInd individual]
    = Ok individual' /\
    map node_name individual' = map node_name individual /\
    (satisfies_constraints UNARY_TOKENS BINARY_TOKENS max_length min_length
                           max_depth individual' <->
     satisfies_constraints UNARY_TOKENS BINARY_TOKENS max_length min_length
                           max_depth individual).
Proof.
  intros Hterm. simpl.
  destruct (set_consts_installable (zip (const_idxs_of individual) consts)
              individual) as (ind' & Hs & Hnames).
  { apply Forall_forall. intros [i c] Hin. apply elem_of_zip_l in Hin.
    apply const_idxs_of_elem in Hin as (j & nd & -> & Hj & Hname).
    exists j, nd. simpl. split; [|split; [exact Hj|split; [|exact Hname]]].
    - apply norm_index_nat. now apply lookup_lt_Some in Hj.
    - apply Hterm; [|exact Hname]. eapply list_elem_of_lookup_2. exact Hj. }
  exists ind'. split; [exact Hs|]. split; [exact Hnames|].
  destruct (set_consts_arities _ _ _ Hs) as (Hlen & Har).
  assert (Hh : height ind' = height individual)
    by (unfold height; now apply height_loop_arities).
  unfold satisfies_constraints. now rewrite Hlen, Hh, Hnames.
Qed.

End InstallConstants.

Lemma install_constants_witness :
  exists individual',
    _set_const_individuals
      [ASelf; AIdxs (const_idxs_of const_tree); AConsts [7%float];
       AInd const_tree] = Ok individual' /\
    map node_name individual' = map node_name const_tree /\
    (satisfies_constraints example_UNARY example_BINARY 10 1 5 individual' <->
     satisfies_constraints example_UNARY example_BINARY 10 1 5 const_tree).
Proof.
  apply install_constants. intros nd Hnd Hname.
  unfold const_tree in Hnd.
  repeat (apply elem_of_cons in Hnd as [->|Hnd]; [try reflexivity; discriminate|]).
  inversion Hnd.
Defined.

(* ===================================================================== *)
(** ** More on [DEAP_to_tokens] *)
(* ===================================================================== *)

Lemma index_of_nat {A : Type} (l : list A) (i : nat) :
  Py.index l (Z.of_nat i) =
  match l !! i with Some x => Ok x | None => Raise IndexError end.
Proof.
  destruct (l !! i) as [x|] eqn:E; [now apply index_lookup|].
  apply lookup_ge_None in E. unfold Py.index.
  destruct (Z.ltb_spec (Z.of_nat i) 0); [lia|].
  destruct (Z.ltb_spec (Z.of_nat i) (Z.of_nat (length l))); [lia|].
  now rewrite andb_false_r.
Qed.

Lemma first_true_lt (l : list bool) (i : nat) :
  Np.first_true l = Some i -> (i < length l)%nat.
Proof.
  revert i. induction l as [|b l IH]; intros i H; [discriminate|].
  simpl in H. destruct b; [injection H as <-; simpl; lia|].
  destruct (Np.first_true l) as [j|]; [|discriminate].
  injection H as <-. specialize (IH j eq_refl). simpl. lia.
Qed.

Section CodecMore.

Variable lib : Library.

Lemma fill_tokens_outside (individual : Individual) (range : list nat) :
  forall (tokens tokens' : list Z) (k : nat),
    fill_tokens lib individual range tokens = Ok tokens' ->
    k ∉ range -> tokens' !! k = tokens !! k.
Proof.
  induction range as [|i range IH]; intros tokens tokens' k H Hk; simpl in H.
  - now injection H as <-.
  - bind_inv H. bind_inv H. rewrite (IH _ _ k H).
    + apply list_lookup_insert_ne. intros ->. apply Hk. now left.
    + intros Hin. apply Hk. now right.
Qed.

(** X11: the token array always has [tokens_size] cells, the cells past the tree
    (or past its first [tokens_size] nodes) hold token 0, and the length
    reported lies between 1 and [tokens_size]. *)
Theorem DEAP_to_tokens_shape (individual : Individual) (tokens_size : nat)
  (tokens : list Z) (expr_length : Z) :
  DEAP_to_tokens lib individual tokens_size = Ok (tokens, expr_length) ->
  length tokens = tokens_size /\
  (forall k : nat,
      (Nat.min (length individual) tokens_size <= k < tokens_size)%nat ->
      tokens !! k = Some 0) /\
  1 <= expr_length <= Z.of_nat tokens_size.
Proof.
  unfold DEAP_to_tokens. intros H.
  bind_inv H. rename a into toks. bind_inv H. rename a into ars.
  bind_inv H. rename a into am. injection H as <- <-.
  pose proof (fill_tokens_length _ _ _ _ _ Ha) as Hlen.
  rewrite length_replicate in Hlen. split; [exact Hlen|]. split.
  - intros k Hk. rewrite (fill_tokens_outside _ _ _ _ k Ha).
    + apply lookup_replicate_2. lia.
    + rewrite list_elem_of_In, in_seq. lia.
  - apply mapM_length in Ha0. unfold Np.argmax in Ha1.
    destruct (is_zero (dangling_of ars)) as [|b bs] eqn:E; [discriminate|].
    pose proof (is_zero_dangling_length ars) as Hz. rewrite E in Hz.
    destruct (Np.first_true (b :: bs)) as [i|] eqn:Hf; injection Ha1 as <-.
    + apply first_true_lt in Hf. lia.
    + simpl in Hz. lia.
Qed.

Lemma fill_tokens_ext (individual individual2 : Individual) (range : list nat) :
  (forall i, i ∈ range -> individual !! i = individual2 !! i) ->
  forall tokens,
    fill_tokens lib individual range tokens
    = fill_tokens lib individual2 range tokens.
Proof.
  induction range as [|i range IH]; intros Hext tokens; [reflexivity|].
  simpl. rewrite !index_of_nat, (Hext i) by now left.
  destruct (individual2 !! i) as [nd|]; [|reflexivity]. simpl.
  destruct (token_of_node lib nd) as [v|e]; [|reflexivity]. simpl.
  apply IH. intros j Hj. apply Hext. now right.
Qed.

(** X12: only the first [tokens_size] nodes of the tree are looked at: the rest
    of a tree that does not fit is dropped without a trace. *)
Theorem DEAP_to_tokens_cut (individual : Individual) (tokens_size : nat) :
  DEAP_to_tokens lib individual tokens_size
  = DEAP_to_tokens lib (take tokens_size individual) tokens_size.
Proof.
  unfold DEAP_to_tokens. rewrite length_take.
  replace (Nat.min (Nat.min tokens_size (length individual)) tokens_size)
    with (Nat.min (length individual) tokens_size) by lia.
  rewrite (fill_tokens_ext individual (take tokens_size individual));
    [reflexivity|].
  intros i Hi. rewrite list_elem_of_In, in_seq in Hi.
  now rewrite lookup_take_lt by lia.
Qed.

Lemma fill_tokens_app (individual : Individual) (r1 r2 : list nat) :
  forall tokens,
    fill_tokens lib individual (r1 ++ r2) tokens
    = (t1 <- fill_tokens lib individual r1 tokens ;;
       fill_tokens lib individual r2 t1).
Proof.
  induction r1 as [|i r1 IH]; intros tokens; [reflexivity|].
  simpl. destruct (Py.index individual (Z.of_nat i)) as [nd|e]; [|reflexivity].
  simpl. destruct (token_of_node lib nd) as [v|e]; [|reflexivity]. simpl.
  apply IH.
Qed.

Lemma list_index_absent (x : string) (l : list string) :
  x ∉ l -> list_index x l = Raise ValueError.
Proof.
  induction l as [|y l IH]; intros H; [reflexivity|]. simpl.
  destruct (String.eqb_spec x y) as [->|Hne]; [exfalso; apply H; now left|].
  rewrite IH; [reflexivity|]. intros Hin. apply H. now right.
Qed.

Lemma no_token_raises (nd : node) (e : exn) :
  no_token lib nd e -> token_of_node lib nd = Raise e.
Proof.
  intros [name arity Hname|value Hc|name value Hu Hm Hint];
    unfold token_of_node.
  - now rewrite list_index_absent.
  - change (is_literal "mutable_const" "user_const") with false.
    change (is_literal "mutable_const" "mutable_const") with true.
    cbv iota. now rewrite Hc.
  - now rewrite Hu, Hm, Hint.
Qed.

(** X13: how [DEAP_to_tokens] fails. An array of no cells raises
    [ValueError]. The first node within the array that has no token makes
    the call raise that node's exception: [ValueError] for a primitive that
    the library does not list or a terminal whose name does not end in a
    number, [TypeError] for the constant placeholder when the library has no
    constant token. And the two constants are recognised by [is]: a terminal
    whose name has the text [mutable_const] or [user_const] without being
    the interned string has no token. *)
Theorem DEAP_to_tokens_errors :
  (forall individual, DEAP_to_tokens lib individual 0 = Raise ValueError) /\
  (forall (pre post : Individual) (nd : node) (toks : list Z) (e : exn)
          (tokens_size : nat),
      mapM (token_of_node lib) pre = Ok toks ->
      no_token lib nd e ->
      (length pre < tokens_size)%nat ->
      DEAP_to_tokens lib (pre ++ nd :: post) tokens_size = Raise e) /\
  (forall value,
      no_token lib (Terminal (PyStr "mutable_const" false) value) ValueError /\
      no_token lib (Terminal (PyStr "user_const" false) value) ValueError).
Proof.
  split; [|split].
  - intros ind. unfold DEAP_to_tokens. now rewrite Nat.min_0_r.
  - intros pre post nd toks e size Hm He Hlt. apply no_token_raises in He.
    unfold DEAP_to_tokens.
    rewrite length_app. simpl.
    replace (Nat.min (length pre + S (length post)) size)
      with (length pre + S (Nat.min (length post) (size - S (length pre))))%nat
      by lia.
    rewrite seq_app, fill_tokens_app.
    assert (Hfill : fill_tokens lib (pre ++ nd :: post) (seq 0 (length pre))
                      (replicate size 0)
                    = Ok (toks ++ replicate (size - length pre) 0)).
    { pose proof (fill_tokens_from lib (pre ++ nd :: post) size (length pre)
                    0 [] toks eq_refl) as Hfill.
      rewrite drop_0, take_app_length, Nat.sub_0_r in Hfill.
      apply Hfill; [rewrite length_app; simpl; lia|lia|exact Hm]. }
    rewrite Hfill.
    simpl. rewrite index_of_nat, lookup_app_r by lia.
    rewrite Nat.sub_diag. simpl. now rewrite He.
  - intros value. split; apply no_token_name; reflexivity.
Qed.

End CodecMore.

Lemma DEAP_to_tokens_shape_witness :
  length [1; 6; 0; 0; 0] = 5%nat /\
  (forall k : nat,
      (Nat.min (length const_tree) 5 <= k < 5)%nat ->
      [1; 6; 0; 0; 0] !! k = Some 0) /\
  1 <= 3 <= Z.of_nat 5.
Proof.
  apply (DEAP_to_tokens_shape example_lib const_tree 5). reflexivity.
Defined.

Lemma DEAP_to_tokens_errors_witness :
  DEAP_to_tokens example_lib
    ([Primitive "add" 2; x1_node]
       ++ Terminal (PyStr "mutable_const" false) (VFloat 2.5) :: [x1_node]) 6
  = Raise ValueError.
Proof.
  destruct (DEAP_to_tokens_errors example_lib) as (_ & Hfirst & Hname).
  apply (Hfirst [Primitive "add" 2; x1_node] [x1_node]
                (Terminal (PyStr "mutable_const" false) (VFloat 2.5)) [1; 0]).
  - reflexivity.
  - apply (Hname (VFloat 2.5)).
  - simpl. lia.
Defined.

(* ===================================================================== *)
(** ** [tokens_to_DEAP]: the shared terminals *)
(* ===================================================================== *)

Lemma mapM_lookup {A B : Type} (f : A -> result B) (l : list A) (ys : list B) :
  mapM f l = Ok ys ->
  forall (i : nat) (x : A), l !! i = Some x ->
                            exists y, ys !! i = Some y /\ f x = Ok y.
Proof.
  revert ys. induction l as [|x0 l IH]; intros ys H i x Hi; [discriminate|].
  simpl in H. bind_inv H. bind_inv H. injection H as <-.
  destruct i as [|i]; simpl in Hi.
  - injection Hi as <-. now exists a.
  - now apply (IH a0).
Qed.

Section TranslateFacts.

Variable lib : Library.

Lemma translate_frame (M M' : gmap string node) (plist plist' : list string)
  (t : Z) :
  translate lib (M, plist) t = Ok (M', plist') ->
  (forall key, key <> "user_const" -> key <> "mutable_const" ->
               M' !! key = M !! key) /\
  (exists key, plist' = plist ++ [key] /\ key_for lib t key) /\
  (forall v, (forall e v', Py.index (entries lib) t = Ok e -> e <> EFloat v') ->
             M !! "user_const" = v -> M' !! "user_const" = v) /\
  (forall v, Py.index (entries lib) t = Ok (EFloat v) ->
             exists name, M' !! "user_const" = Some (Terminal name (VFloat v))).
Proof.
  unfold translate. simpl. intros H. bind_inv H. rename a into e, Ha into He.
  destruct e as [v|s|n|name].
  - bind_inv H. rename a into p, Ha into Hp.
    bind_inv H. rename a into p', Ha into Hp'. injection H as <- <-.
    split; [intros key H1 H2; now rewrite lookup_insert_ne by congruence|].
    split; [exists "user_const"; split; [reflexivity|now exists (EFloat v)]|].
    split; [intros w Hno; exfalso; now apply (Hno (EFloat v) v)|].
    intros w Hw. rewrite He in Hw. injection Hw as <-.
    destruct p as [?|name w]; [discriminate|].
    injection Hp' as <-. exists name. apply lookup_insert_eq.
  - bind_inv H. rename a into p, Ha into Hp.
    bind_inv H. rename a into p', Ha into Hp'. injection H as <- <-.
    split; [intros key H1 H2; now rewrite lookup_insert_ne by congruence|].
    split; [exists "mutable_const"; split; [reflexivity|now exists (EStr s)]|].
    split; [intros w _ Hw; now rewrite lookup_insert_ne by discriminate|].
    intros w Hw. rewrite He in Hw. discriminate.
  - bind_inv H. injection H as <- <-.
    split; [auto|]. split; [eexists; split; [reflexivity|now exists (EInt n)]|].
    split; [auto|]. intros w Hw. rewrite He in Hw. discriminate.
  - bind_inv H. injection H as <- <-.
    split; [auto|]. split; [eexists; split; [reflexivity|now exists (EFunc name)]|].
    split; [auto|]. intros w Hw. rewrite He in Hw. discriminate.
Qed.

Lemma translate_all_frame (toks : list Z) :
  forall (M M' : gmap string node) (plist plist' : list string),
    translate_all lib (M, plist) toks = Ok (M', plist') ->
    (forall key, key <> "user_const" -> key <> "mutable_const" ->
                 M' !! key = M !! key) /\
    exists keys, plist' = plist ++ keys /\ Forall2 (key_for lib) toks keys.
Proof.
  induction toks as [|t toks IH]; intros M M' plist plist' H; simpl in H.
  - injection H as <- <-. split; [auto|]. exists []. rewrite app_nil_r.
    split; [reflexivity|constructor].
  - bind_inv H. destruct a as [M1 plist1].
    apply translate_frame in Ha as (Hfr & (key & -> & Hkey) & _).
    apply IH in H as (Hfr' & keys & -> & Hkeys). split.
    + intros k H1 H2. now rewrite Hfr', Hfr.
    + exists (key :: keys). rewrite <- app_assoc. split; [reflexivity|].
      now constructor.
Qed.

Lemma translate_all_app (l1 l2 : list Z) :
  forall (st st' : gmap string node * list string),
    translate_all lib st (l1 ++ l2) = Ok st' ->
    exists st1, translate_all lib st l1 = Ok st1 /\
                translate_all lib st1 l2 = Ok st'.
Proof.
  induction l1 as [|t l1 IH]; intros st st' H.
  - now exists st.
  - simpl in H. bind_inv H. apply IH in H as (st1 & H1 & H2).
    exists st1. simpl. rewrite Ha. auto.
Qed.

Lemma translate_all_no_float (toks : list Z) :
  Forall (fun t => forall e v, Py.index (entries lib) t = Ok e -> e <> EFloat v)
         toks ->
  forall (M M' : gmap string node) (plist plist' : list string),
    translate_all lib (M, plist) toks = Ok (M', plist') ->
    M' !! "user_const" = M !! "user_const".
Proof.
  induction 1 as [|t toks Ht _ IH]; intros M M' plist plist' H; simpl in H.
  - now injection H as <- <-.
  - bind_inv H. destruct a as [M1 plist1].
    apply translate_frame in Ha as (_ & _ & Hkeep & _).
    rewrite (IH _ _ _ _ H). now apply Hkeep.
Qed.

Variable mapping : gmap string node.
Variables tokens toks : list Z.
Variable individual : Individual.
Variable mapping' : gmap string node.

Hypothesis finished : _finish_tokens lib tokens = Ok toks.
Hypothesis translated :
  tokens_to_DEAP lib tokens mapping = Ok (individual, mapping').

Lemma tokens_to_DEAP_inv :
  exists keys,
    translate_all lib (mapping, []) toks = Ok (mapping', keys) /\
    mapM (mapping_get mapping') keys = Ok individual.
Proof.
  pose proof translated as H. unfold tokens_to_DEAP in H.
  rewrite finished in H. simpl in H. bind_inv H. destruct a as [M keys].
  bind_inv H. injection H as <- <-. simpl in *. now exists keys.
Qed.

Lemma tokens_to_DEAP_lookup (i : nat) (t : Z) (e : entry) :
  toks !! i = Some t -> Py.index (entries lib) t = Ok e ->
  individual !! i = mapping' !! entry_target e /\ is_Some (individual !! i).
Proof.
  destruct tokens_to_DEAP_inv as (keys & Ht & Hm).
  apply translate_all_frame in Ht as (Hframe & keys' & Hk & Hkeys).
  simpl in Hk. subst keys'.
  intros Hi He.
  destruct (Forall2_lookup_l _ _ _ _ _ Hkeys Hi) as (key & Hkey & (e' & He' & ->)).
  assert (e' = e) as -> by congruence.
  destruct (mapM_lookup _ _ _ Hm i _ Hkey) as (nd & Hnd & Hget).
  unfold mapping_get in Hget.
  destruct (mapping' !! entry_target e) as [p|]; [|discriminate].
  injection Hget as ->. rewrite Hnd. eauto.
Qed.

(** X14: the tree that [tokens_to_DEAP] returns has one node per token of the
    finished sequence, each read through the mapping as the call leaves it;
    the call touches the mapping at the two constant terminals only. *)
Theorem tokens_to_DEAP_reads_mapping :
  length individual = length toks /\
  (forall (i : nat) (t : Z) (e : entry),
      toks !! i = Some t -> Py.index (entries lib) t = Ok e ->
      individual !! i = mapping' !! entry_target e /\
      is_Some (individual !! i)) /\
  (forall key, key <> "user_const" -> key <> "mutable_const" ->
               mapping' !! key = mapping !! key).
Proof.
  destruct tokens_to_DEAP_inv as (keys & Ht & Hm).
  apply translate_all_frame in Ht as (Hframe & keys' & Hk & Hkeys).
  simpl in Hk. subst keys'.
  pose proof (mapM_length _ _ _ Hm) as Hlen.
  pose proof (Forall2_length _ _ _ Hkeys) as Hlen2.
  split; [lia|]. split; [|exact Hframe].
  exact tokens_to_DEAP_lookup.
Qed.

(** X15: all fixed constants of the returned tree are one and the same node: two
    positions whose tokens are floating-point constants of the library hold
    equal nodes, whatever the two constants are, and the value they show is
    the constant of the last such token. *)
Theorem tokens_to_DEAP_shared_constant :
  (forall (i j : nat) (ti tj : Z) (vi vj : float),
      toks !! i = Some ti -> toks !! j = Some tj ->
      Py.index (entries lib) ti = Ok (EFloat vi) ->
      Py.index (entries lib) tj = Ok (EFloat vj) ->
      individual !! i = individual !! j) /\
  (forall (pre post : list Z) (t : Z) (v : float),
      toks = pre ++ t :: post ->
      Py.index (entries lib) t = Ok (EFloat v) ->
      Forall (fun t' => forall e v', Py.index (entries lib) t' = Ok e ->
                                     e <> EFloat v') post ->
      exists name,
        individual !! length pre = Some (Terminal name (VFloat v))).
Proof.
  pose proof tokens_to_DEAP_lookup as Hread. split.
  - intros i j ti tj vi vj Hi Hj Hei Hej.
    destruct (Hread i ti _ Hi Hei) as [-> _].
    destruct (Hread j tj _ Hj Hej) as [-> _]. reflexivity.
  - intros pre post t v E Het Hpost.
    destruct tokens_to_DEAP_inv as (keys & Ht & _). rewrite E in Ht.
    apply translate_all_app in Ht as ([M1 p1] & _ & Ht).
    simpl in Ht. bind_inv Ht. destruct a as [M2 p2].
    apply translate_frame in Ha as (_ & _ & _ & Hset).
    destruct (Hset v Het) as [name Hname]. exists name.
    rewrite <- Hname, <- (translate_all_no_float post Hpost _ _ _ _ Ht).
    destruct (Hread (length pre) t (EFloat v)) as [-> _]; [|exact Het|reflexivity].
    rewrite E. now rewrite list_lookup_middle.
Qed.

End TranslateFacts.

Lemma two_constants_translated :
  tokens_to_DEAP const_lib [1; 2; 3] example_pset
  = Ok (two_constants, pset_after_constants).
Proof. vm_compute. reflexivity. Qed.

Lemma tokens_to_DEAP_reads_mapping_witness :
  length two_constants = length [1; 2; 3] /\
  (forall (i : nat) (t : Z) (e : entry),
      [1; 2; 3] !! i = Some t -> Py.index (entries const_lib) t = Ok e ->
      two_constants !! i = pset_after_constants !! entry_target e /\
      is_Some (two_constants !! i)) /\
  (forall key, key <> "user_const" -> key <> "mutable_const" ->
               pset_after_constants !! key = example_pset !! key).
Proof.
  apply (tokens_to_DEAP_reads_mapping const_lib example_pset [1; 2; 3]).
  - reflexivity.
  - exact two_constants_translated.
Defined.

Lemma tokens_to_DEAP_shared_constant_witness :
  two_constants !! 1%nat = two_constants !! 2%nat /\
  exists name, two_constants !! length [1; 2] = Some (Terminal name (VFloat 3)).
Proof.
  destruct (tokens_to_DEAP_shared_constant const_lib example_pset [1; 2; 3]
              [1; 2; 3] two_constants pset_after_constants eq_refl
              two_constants_translated) as [Hsame Hlast].
  split.
  - apply (Hsame 1%nat 2%nat 2 3 2%float 3%float); reflexivity.
  - apply (Hlast [1; 2] [] 3 3%float); [reflexivity|reflexivity|constructor].
Defined.

(* ===================================================================== *)
(** ** [generate_priors]: nothing is masked without a rule *)
(* ===================================================================== *)

Lemma mask_row_inv (cols : list Z) :
  forall row row',
    mask_row row cols = Ok row' ->
    length row' = length row /\
    forall k v, row' !! k = Some v ->
                row !! k = Some v \/
                (v = neg_infinity /\
                 exists c, c ∈ cols /\ norm_index (length row) c = Ok k).
Proof.
  induction cols as [|c cols IH]; intros row row' H; simpl in H.
  - injection H as <-. auto.
  - bind_inv H. rename a into c'. pose proof (norm_index_lt _ _ _ Ha) as Hlt.
    apply IH in H as [Hlen Hent]. rewrite length_insert in Hlen, Hent.
    split; [exact Hlen|]. intros k v Hk.
    destruct (Hent k v Hk) as [Hold|(-> & c0 & Hc0 & Hn)].
    + destruct (decide (k = c')) as [->|Hne].
      * rewrite list_lookup_insert_eq in Hold by exact Hlt.
        injection Hold as <-. right. split; [reflexivity|].
        exists c. split; [now left|exact Ha].
      * rewrite list_lookup_insert_ne in Hold by congruence. now left.
    + right. split; [reflexivity|]. exists c0. split; [now right|exact Hn].
Qed.

Section PriorsInv.

Variable lib : Library.
Variable tokens : list Z.
Variable n : nat.

Local Abbreviation inv := (priors_inv lib tokens n).

Lemma priors_inv_init : inv (replicate n (replicate (L lib) 0%float)).
Proof.
  split; [apply length_replicate|]. split.
  - apply Forall_replicate. apply length_replicate.
  - intros r row k v Hr Hk. apply lookup_replicate in Hr as [-> _].
    apply lookup_replicate in Hk as [-> _]. now left.
Qed.

Lemma mask_inv (P P' : matrix) (r : Z) (cols : list Z) :
  inv P -> mask P r cols = Ok P' ->
  (forall r0 c k, norm_index (length P) r = Ok r0 -> c ∈ cols ->
                  norm_index (L lib) c = Ok k -> explained lib tokens r0 k) ->
  inv P'.
Proof.
  intros (Hlen & Hrows & Hent) H Hexp. unfold mask in H.
  bind_inv H. rename a into r'. pose proof (norm_index_lt _ _ _ Ha) as Hlt.
  destruct (P !! r') as [row|] eqn:Hrow; [|discriminate].
  bind_inv H. rename a into row'. injection H as <-.
  apply mask_row_inv in Ha0 as [Hl Hrow'].
  assert (HL : length row = L lib).
  { rewrite Forall_forall in Hrows. apply Hrows.
    eapply list_elem_of_lookup_2. exact Hrow. }
  split; [now rewrite length_insert|]. split.
  - apply Forall_insert; [exact Hrows|congruence].
  - intros r0 rowx k v Hr0 Hk. destruct (decide (r0 = r')) as [->|Hne].
    + rewrite list_lookup_insert_eq in Hr0 by exact Hlt. injection Hr0 as <-.
      destruct (Hrow' k v Hk) as [Hold|(-> & c & Hc & Hn)].
      * now apply (Hent r' row k v).
      * right. split; [reflexivity|]. apply (Hexp r' c k Ha Hc). congruence.
    + rewrite list_lookup_insert_ne in Hr0 by congruence.
      now apply (Hent r0 rowx k v).
Qed.

Lemma explained_next (i t c : Z) (r0 k : nat) (m : nat) :
  0 <= i -> tokens !! Z.to_nat i = Some t ->
  i < Z.of_nat (length tokens) - 1 ->
  rule_column lib t c ->
  norm_index m (i + 1) = Ok r0 -> norm_index (L lib) c = Ok k ->
  explained lib tokens r0 k.
Proof.
  intros Hi Ht Hlt Hrule Hr Hk. apply norm_index_nonneg in Hr; [|lia].
  subst r0. right. exists (Z.to_nat i), t, c.
  split; [lia|]. split; [exact Ht|]. split; [lia|]. auto.
Qed.

Lemma priors_step_inv (max_len min_len i t : Z) (st st' : prior_state) :
  inv (st_priors st) ->
  0 <= i -> tokens !! Z.to_nat i = Some t ->
  priors_step lib (Z.of_nat (length tokens)) max_len min_len i t st = Ok st' ->
  inv (st_priors st').
Proof.
  intros Hinv Hi Ht H. unfold priors_step in H. bind_inv H.
  destruct (Z.ltb_spec i (Z.of_nat (length tokens) - 1)) as [Hlt|Hge];
    [|now injection H as <-].
  bind_inv H. rename a0 into P1, Ha0 into H1.
  bind_inv H. rename a0 into P2, Ha0 into H2.
  bind_inv H. rename a0 into P3, Ha0 into H3.
  bind_inv H. rename a0 into P4, Ha0 into H4.
  injection H as <-. simpl.
  assert (I1 : inv P1).
  { destruct (trig_descendant _); [|now injection H1 as <-].
    apply (mask_inv _ _ _ _ Hinv H1). intros r0 c k Hr Hc Hk.
    eapply (explained_next i t c); [exact Hi|exact Ht|exact Hlt| |exact Hr|exact Hk].
    now left. }
  assert (I2 : inv P2).
  { destruct (inverse_tokens lib !! t) as [u|] eqn:Hu; [|now injection H2 as <-].
    apply (mask_inv _ _ _ _ I1 H2). intros r0 c k Hr Hc Hk.
    apply list_elem_of_singleton in Hc. subst c.
    eapply (explained_next i t u); [exact Hi|exact Ht|exact Hlt| |exact Hr|exact Hk].
    now do 3 right. }
  assert (I3 : inv P3).
  { destruct (_ && _); [|now injection H3 as <-].
    apply (mask_inv _ _ _ _ I2 H3). intros r0 c k Hr Hc Hk.
    eapply (explained_next i t c); [exact Hi|exact Ht|exact Hlt| |exact Hr|exact Hk].
    right. now left. }
  destruct (mask_late_cases lib max_len (i + 0) (st_dangling st + (a - 1)) P3)
    as [E|(_ & _ & E)]; rewrite Z.add_0_r in E; rewrite E in H4.
  - now injection H4 as <-.
  - apply (mask_inv _ _ _ _ I3 H4). intros r0 c k Hr Hc Hk.
    eapply (explained_next i t c); [exact Hi|exact Ht|exact Hlt| |exact Hr|exact Hk].
    do 2 right. now left.
Qed.

Lemma priors_loop_inv (max_len min_len : Z) (rest : list Z) :
  forall (pre : list Z) (st st' : prior_state),
    tokens = pre ++ rest ->
    inv (st_priors st) ->
    priors_loop lib (Z.of_nat (length tokens)) max_len min_len
                (Z.of_nat (length pre)) rest st = Ok st' ->
    inv (st_priors st').
Proof.
  induction rest as [|t rest IH]; intros pre st st' E Hinv H; simpl in H.
  - now injection H as <-.
  - bind_inv H. apply (IH (pre ++ [t]) a st').
    + now rewrite <- app_assoc.
    + apply (priors_step_inv max_len min_len (Z.of_nat (length pre)) t st a Hinv);
        [lia| |exact Ha].
      rewrite Nat2Z.id, E. now apply list_lookup_middle.
    + rewrite length_app. simpl.
      replace (Z.of_nat (length pre + 1)) with (Z.of_nat (length pre) + 1) by lia.
      exact H.
Qed.

Lemma generate_priors_inv (expr_length max_const max_len min_len : Z)
  (P : matrix) :
  generate_priors lib tokens n expr_length max_const max_len min_len = Ok P ->
  inv P.
Proof.
  unfold generate_priors. intros H. bind_inv H. rename a into P0.
  bind_inv H. rename a into st. injection H as <-.
  apply (priors_loop_inv max_len min_len tokens []
           (PriorState P0 trig_init 1) st eq_refl); [|exact Ha0].
  simpl. apply (mask_inv _ _ _ _ priors_inv_init Ha).
  intros r0 c k Hr Hc Hk. apply norm_index_nonneg in Hr; [|lia]. subst r0.
  left. split; [reflexivity|]. now exists c.
Qed.

Lemma is_neg_inf_zero : is_neg_inf 0%float = false.
Proof. reflexivity. Qed.

(** X16: the matrix has [max_exp_length] rows of [L] columns and every entry is
    either 0 or [-inf]. *)
Theorem generate_priors_shape (expr_length max_const max_len min_len : Z)
  (P : matrix) :
  generate_priors lib tokens n expr_length max_const max_len min_len = Ok P ->
  length P = n /\
  Forall (fun row => length row = L lib) P /\
  forall (r : nat) (row : list float) (k : nat) (v : float),
    P !! r = Some row -> row !! k = Some v ->
    v = 0%float \/ v = neg_infinity.
Proof.
  intros H. apply generate_priors_inv in H as (Hlen & Hrows & Hent).
  split; [exact Hlen|]. split; [exact Hrows|].
  intros r row k v Hr Hk. destruct (Hent r row k v Hr Hk) as [->|[-> _]]; auto.
Qed.

(** X17: rows at positions that the token sequence does not reach are never
    written: apart from row 0, a row at or past [len(tokens)] is all zero. *)
Theorem generate_priors_rows_past_tokens
  (expr_length max_const max_len min_len : Z) (P : matrix) (r : nat)
  (row : list float) :
  generate_priors lib tokens n expr_length max_const max_len min_len = Ok P ->
  (1 <= r)%nat -> (length tokens <= r)%nat ->
  P !! r = Some row ->
  row = replicate (L lib) 0%float.
Proof.
  intros H Hr1 Hr Hrow. apply generate_priors_inv in H as (_ & Hrows & Hent).
  symmetry. apply replicate_as_Forall. split.
  - rewrite Forall_forall in Hrows. apply Hrows.
    eapply list_elem_of_lookup_2. exact Hrow.
  - apply Forall_lookup_2. intros k v Hk.
    destruct (Hent r row k v Hrow Hk) as [->|[_ Hexp]]; [reflexivity|].
    destruct Hexp as [[-> _]|(i & t & c & -> & _ & Hlt & _)]; lia.
Qed.

(** X18: nothing is masked without a rule. A masked entry of row 0 is a terminal
    token. A masked entry of row [i + 1] is a trig, terminal or binary token
    or the registered inverse of the token at position [i], and position
    [i] is not the last one; in particular the late-length rule never masks
    a unary token. *)
Theorem generate_priors_only_rules
  (expr_length max_const max_len min_len : Z) (P : matrix) :
  generate_priors lib tokens n expr_length max_const max_len min_len = Ok P ->
  (forall k : nat,
      masked P 0 k = true ->
      exists c, c ∈ terminal_tokens lib /\ norm_index (L lib) c = Ok k) /\
  (forall i k : nat,
      masked P (S i) k = true ->
      exists t c, tokens !! i = Some t /\ (S i < length tokens)%nat /\
                  rule_column lib t c /\ norm_index (L lib) c = Ok k).
Proof.
  intros H. apply generate_priors_inv in H as (_ & _ & Hent).
  assert (Hm : forall r k, masked P r k = true -> explained lib tokens r k).
  { intros r k Hmask. unfold masked, entry_masked in Hmask.
    destruct (P !! r) as [row|] eqn:Hrow; [|discriminate].
    destruct (row !! k) as [v|] eqn:Hk; [|discriminate].
    destruct (Hent r row k v Hrow Hk) as [->|[_ Hexp]]; [|exact Hexp].
    rewrite is_neg_inf_zero in Hmask. discriminate. }
  split.
  - intros k Hk. destruct (Hm 0%nat k Hk) as [[_ Hc]|(i & t & c & Hr & _)];
      [exact Hc|discriminate].
  - intros i k Hk.
    destruct (Hm (S i) k Hk) as [[Hr _]|(i' & t & c & Hr & Hrest)];
      [discriminate|].
    injection Hr as ->. now exists t, c.
Qed.

End PriorsInv.

(* ===================================================================== *)
(** ** [generate_priors]: the rules that do mask *)
(* ===================================================================== *)

(** X19: row 0 forbids every terminal token. *)
Theorem generate_priors_first_row (lib : Library) (tokens : list Z)
  (max_exp_length : nat) (expr_length max_const max_len min_len : Z)
  (P : matrix) (c : Z) :
  generate_priors lib tokens max_exp_length expr_length max_const max_len min_len
  = Ok P ->
  c ∈ terminal_tokens lib ->
  exists k, norm_index (L lib) c = Ok k /\ masked P 0 k = true.
Proof.
  unfold generate_priors. intros H Hc. bind_inv H. rename a into P0.
  bind_inv H. rename a into st. injection H as <-.
  unfold mask in Ha. bind_inv Ha. rename a into r'.
  apply norm_index_nonneg in Ha1; [|lia]. subst r'. simpl in Ha.
  destruct max_exp_length as [|m]; [discriminate|]. simpl in Ha.
  bind_inv Ha. rename a into row'. injection Ha as <-.
  apply mask_row_spec in Ha1 as (_ & _ & Hnew).
  destruct (Hnew c Hc) as (k & Hk & Hm). rewrite length_replicate in Hk.
  exists k. split; [exact Hk|].
  eapply priors_loop_mono; [exact Ha0|]. exact Hm.
Qed.

Lemma generate_priors_first_row_witness :
  exists k, norm_index (L example_lib) 6 = Ok k /\
            masked [[neg_infinity; 0; 0; 0; 0; 0; neg_infinity];
                    [0; neg_infinity; 0; 0; 0; 0; 0];
                    [0; neg_infinity; 0; 0; 0; 0; 0]]%float 0 k = true.
Proof.
  apply (generate_priors_first_row example_lib [1; 0; 0] 3 3 0 3 1).
  - vm_compute. reflexivity.
  - by_evaluation.
Defined.

(** X20: right after a token with a registered inverse, that inverse is
    forbidden, whichever token it is. *)
Theorem priors_mask_inverse (lib : Library) (tokens : list Z)
  (max_exp_length : nat) (expr_length max_const max_len min_len : Z)
  (P : matrix) (i : nat) (t u : Z) :
  generate_priors lib tokens max_exp_length expr_length max_const max_len min_len
  = Ok P ->
  tokens !! i = Some t -> (S i < length tokens)%nat ->
  inverse_tokens lib !! t = Some u -> 0 <= u ->
  masked P (S i) (Z.to_nat u) = true.
Proof.
  intros HP Hi Hlen Hu Hu0.
  destruct (lookup_lt_is_Some_2 tokens (S i) Hlen) as [nxt Hn].
  destruct (lookup_two_split tokens i t nxt Hi Hn) as (pre & rest & -> & <-).
  apply generate_priors_next in HP as [_ HP]. now apply HP.
Qed.

Lemma priors_mask_inverse_witness :
  masked [[neg_infinity; 0; 0; 0; 0; 0; neg_infinity];
          [0; 0; 0; neg_infinity; 0; 0; 0];
          [0; 0; 0; 0; 0; 0; 0]]%float 1 (Z.to_nat 3) = true.
Proof.
  apply (priors_mask_inverse example_lib [4; 0; 0] 3 3 0 10 1 _ 0%nat 4 3).
  - vm_compute. reflexivity.
  - reflexivity.
  - simpl. lia.
  - reflexivity.
  - lia.
Defined.

(** X21: beneath an open trig token, and in particular right after a trig token,
    every trig token is forbidden at the next position. *)
Theorem priors_mask_trig (lib : Library) (tokens : list Z)
  (max_exp_length : nat) (expr_length max_const max_len min_len : Z)
  (P : matrix) (i : nat) (t c : Z) :
  generate_priors lib tokens max_exp_length expr_length max_const max_len min_len
  = Ok P ->
  tokens !! i = Some t -> (S i < length tokens)%nat ->
  t ∈ trig_tokens lib \/
  trig_descendant (trig_run lib trig_init (take (S i) tokens)) = true ->
  c ∈ trig_tokens lib -> 0 <= c ->
  masked P (S i) (Z.to_nat c) = true.
Proof.
  intros HP Hi Hlen Hopen Hc Hc0.
  destruct (lookup_lt_is_Some_2 tokens (S i) Hlen) as [nxt Hn].
  destruct (lookup_two_split tokens i t nxt Hi Hn) as (pre & rest & -> & <-).
  apply generate_priors_next in HP as [HP _]. apply HP; [|exact Hc|exact Hc0].
  destruct Hopen as [Ht|Hd].
  - unfold trig_run. rewrite fold_left_app. simpl. unfold trig_step.
    apply member_elem in Ht. now rewrite Ht.
  - replace (pre ++ t :: nxt :: rest) with ((pre ++ [t]) ++ nxt :: rest) in Hd
      by (rewrite <- app_assoc; reflexivity).
    replace (S (length pre)) with (length (pre ++ [t])) in Hd
      by (rewrite length_app; simpl; lia).
    rewrite take_app_length in Hd. exact Hd.
Qed.

Lemma priors_mask_trig_witness :
  masked [[neg_infinity; 0; 0; 0; 0; 0; neg_infinity];
          [0; 0; neg_infinity; 0; 0; 0; 0];
          [0; 0; neg_infinity; neg_infinity; 0; 0; 0];
          [0; 0; 0; 0; 0; 0; 0]]%float 2 (Z.to_nat 2) = true.
Proof.
  apply (priors_mask_trig example_lib [2; 4; 0; 0] 4 4 0 10 1 _ 1%nat 4 2).
  - vm_compute. reflexivity.
  - reflexivity.
  - simpl. lia.
  - right. reflexivity.
  - by_evaluation.
  - lia.
Defined.

Lemma priors_step_terminal (lib : Library) (len_tokens max_len min_len i t : Z)
  (st st' : prior_state) :
  priors_step lib len_tokens max_len min_len i t st = Ok st' ->
  i < len_tokens - 1 -> 0 <= i ->
  i + 2 < min_len -> st_dangling st' = 1 ->
  forall c, c ∈ terminal_tokens lib -> 0 <= c ->
            masked (st_priors st') (Z.to_nat (i + 1)) (Z.to_nat c) = true.
Proof.
  unfold priors_step. intros H Hlt Hi Hmin Hd c Hc Hc0. bind_inv H.
  destruct (Z.ltb_spec i (len_tokens - 1)); [|lia].
  bind_inv H. rename a0 into P1. bind_inv H. rename a0 into P2.
  bind_inv H. rename a0 into P3, Ha2 into H3.
  bind_inv H. rename a0 into P4, Ha2 into H4.
  injection H as <-. simpl in *.
  destruct (Z.ltb_spec (i + 2) min_len); [|lia]. rewrite Hd in H3. simpl in H3.
  apply mask_spec in H3 as [_ S3].
  assert (M4 : forall r k, masked P3 r k = true -> masked P4 r k = true).
  { destruct (mask_late_cases lib max_len (i + 0) 1 P3) as [E|(_ & _ & E)];
      rewrite Z.add_0_r in E; rewrite Hd in H4; rewrite E in H4.
    - now injection H4 as <-.
    - now apply mask_spec in H4 as [M _]. }
  apply M4, S3; [exact Hc|lia|exact Hc0].
Qed.

(** X22: the early-termination rule: while ending the expression would leave it
    shorter than [min_len], that is when [i + 2 < min_len] and exactly one
    operand is open after the token at position [i], every terminal token is
    forbidden at the next position. *)
Theorem early_mask_terminal (lib : Library) (pre : list Z) (t nxt : Z)
  (rest : list Z) (max_exp_length : nat)
  (expr_length max_const max_len min_len : Z) (P : matrix) (ars : list Z) :
  generate_priors lib (pre ++ t :: nxt :: rest) max_exp_length expr_length
                  max_const max_len min_len = Ok P ->
  arities_of lib (pre ++ [t]) = Ok ars ->
  Z.of_nat (length pre) + 2 < min_len ->
  1 + balance_sum ars = 1 ->
  forall c, c ∈ terminal_tokens lib -> 0 <= c ->
            masked P (S (length pre)) (Z.to_nat c) = true.
Proof.
  unfold generate_priors. intros H Hars Hmin Hd c Hc Hc0.
  bind_inv H. rename a into P0. bind_inv H. rename a into st_f.
  injection H as <-.
  apply priors_loop_app in Ha0 as (st1 & Hpre & Hrest).
  pose proof (priors_loop_dangling _ _ _ _ _ _ _ _ Hpre) as (ars1 & Hars1 & Hd1).
  change (t :: nxt :: rest) with ([t] ++ nxt :: rest) in Hrest.
  apply priors_loop_app in Hrest as (st2 & Hstep & Hrest).
  pose proof (priors_loop_dangling _ _ _ _ _ _ _ _ Hstep) as (ars2 & Hars2 & Hd2).
  simpl in Hstep. bind_inv Hstep. injection Hstep as ->.
  assert (ars = ars1 ++ ars2) as ->.
  { unfold arities_of in *.
    assert (E : mapM (Py.index (arities lib)) (pre ++ [t]) = Ok (ars1 ++ ars2))
      by (apply mapM_app; eauto).
    congruence. }
  rewrite balance_sum_app in Hd. simpl in Hd1.
  rewrite length_app in Ha0. simpl in Ha0.
  eapply priors_loop_mono; [exact Hrest|].
  replace (S (length pre)) with (Z.to_nat (0 + Z.of_nat (length pre) + 1)) by lia.
  eapply priors_step_terminal; [exact Ha0|lia|lia|lia|lia|exact Hc|exact Hc0].
Qed.

Lemma early_mask_terminal_witness :
  masked [[neg_infinity; 0; 0; 0; 0; 0; neg_infinity];
          [neg_infinity; 0; neg_infinity; 0; 0; 0; neg_infinity];
          [0; 0; 0; 0; 0; 0; 0]]%float
         (S (length (@nil Z))) (Z.to_nat 6) = true.
Proof.
  apply (early_mask_terminal example_lib [] 2 0 [0] 3 3 0 10 4 _ [1]).
  - vm_compute. reflexivity.
  - reflexivity.
  - simpl. lia.
  - reflexivity.
  - by_evaluation.
  - lia.
Defined.

Lemma late_mask_binary_witness :
  masked [[neg_infinity; 0; 0; 0; 0; 0; neg_infinity];
          [0; neg_infinity; 0; 0; 0; 0; 0];
          [0; neg_infinity; 0; 0; 0; 0; 0]]%float
         (S (length (@nil Z))) (Z.to_nat 1) = true.
Proof.
  apply (late_mask_binary example_lib [] 1 0 [0] 3 3 0 3 1 _ [2]).
  - vm_compute. reflexivity.
  - reflexivity.
  - vm_compute. discriminate.
  - vm_compute. discriminate.
  - by_evaluation.
  - lia.
Defined.

Lemma generate_priors_shape_witness :
  length [[neg_infinity; 0; 0; 0; 0; 0; neg_infinity];
          [0; neg_infinity; 0; 0; 0; 0; 0];
          [0; neg_infinity; 0; 0; 0; 0; 0]]%float = 3%nat /\
  Forall (fun row => length row = L example_lib)
         [[neg_infinity; 0; 0; 0; 0; 0; neg_infinity];
          [0; neg_infinity; 0; 0; 0; 0; 0];
          [0; neg_infinity; 0; 0; 0; 0; 0]]%float /\
  forall (r : nat) (row : list float) (k : nat) (v : float),
    [[neg_infinity; 0; 0; 0; 0; 0; neg_infinity];
     [0; neg_infinity; 0; 0; 0; 0; 0];
     [0; neg_infinity; 0; 0; 0; 0; 0]]%float !! r = Some row ->
    row !! k = Some v -> v = 0%float \/ v = neg_infinity.
Proof.
  apply (generate_priors_shape example_lib [1; 0; 0] 3 3 0 3 1).
  vm_compute. reflexivity.
Defined.

Lemma generate_priors_rows_past_tokens_witness :
  [0; 0; 0; 0; 0; 0; 0]%float = replicate (L example_lib) 0%float.
Proof.
  apply (generate_priors_rows_past_tokens example_lib [1; 0] 4 2 0 10 1
           [[neg_infinity; 0; 0; 0; 0; 0; neg_infinity];
            [0; 0; 0; 0; 0; 0; 0];
            [0; 0; 0; 0; 0; 0; 0];
            [0; 0; 0; 0; 0; 0; 0]]%float 3).
  - vm_compute. reflexivity.
  - lia.
  - simpl. lia.
  - reflexivity.
Defined.

Lemma generate_priors_only_rules_witness :
  (forall k : nat,
      masked [[neg_infinity; 0; 0; 0; 0; 0; neg_infinity];
              [0; 0; 0; neg_infinity; 0; 0; 0];
              [0; 0; 0; 0; 0; 0; 0]]%float 0 k = true ->
      exists c, c ∈ terminal_tokens example_lib /\
                norm_index (L example_lib) c = Ok k) /\
  (forall i k : nat,
      masked [[neg_infinity; 0; 0; 0; 0; 0; neg_infinity];
              [0; 0; 0; neg_infinity; 0; 0; 0];
              [0; 0; 0; 0; 0; 0; 0]]%float (S i) k = true ->
      exists t c, [4; 0; 0] !! i = Some t /\ (S i < length [4; 0; 0])%nat /\
                  rule_column example_lib t c /\
                  norm_index (L example_lib) c = Ok k).
Proof.
  apply (generate_priors_only_rules example_lib [4; 0; 0] 3 3 0 10 1).
  vm_compute. reflexivity.
Defined.

(* ===================================================================== *)
(** ** [stringify_for_sympy]: the stack loop against the recursive reading *)
(* ===================================================================== *)

Lemma bind_ret {A : Type} (m : result A) : (x <- m ;; Ok x) = m.
Proof. now destruct m. Qed.

Section StringifyFacts.

Variable float_str : float -> string.

Local Abbreviation loop := (stringify_loop float_str).
Local Abbreviation convert := (convert_inverse_prim float_str).
Local Abbreviation send := (deliver float_str).

Lemma stringify_loop_app (l1 l2 : Individual) (st : string * list frame) :
  loop (l1 ++ l2) st = (st' <- loop l1 st ;; loop l2 st').
Proof.
  revert st. induction l1 as [|nd l1 IH]; intros st; simpl; [reflexivity|].
  destruct (visit float_str nd st); simpl; [apply IH|reflexivity].
Qed.

Lemma renders_all_nil (ls : Individual) (ss : list string) :
  renders_all float_str ls ss -> ss = [] -> ls = [].
Proof. intros H. destruct H; [reflexivity|discriminate]. Qed.

(** Reading a complete expression amounts to delivering its text to the
    stack as it stood before; reading the operands of an open entry
    completes that entry. *)
Lemma renders_deliver (l : Individual) (s : string) :
  renders float_str l s ->
  forall (st0 : string) (stack : list frame),
    loop l (st0, stack) = send s stack.
Proof.
  intros H.
  apply (renders_mut float_str
    (fun l s => forall st0 stack, loop l (st0, stack) = send s stack)
    (fun ls ss =>
       forall nd pre st0 stack s, ss <> [] ->
         length (pre ++ ss) = node_arity nd ->
         convert nd (pre ++ ss) = Ok s ->
         loop ls (st0, (nd, pre) :: stack) = send s stack)); [| | |exact H].
  - clear. intros nd ls args s Hall IH Hlen Hconv st0 stack.
    simpl. unfold visit. simpl.
    destruct (node_arity nd) as [|a] eqn:Ha; simpl.
    + destruct args; [|discriminate].
      rewrite (renders_all_nil _ _ Hall eq_refl). rewrite Hconv. simpl.
      apply bind_ret.
    + apply (IH nd [] st0 stack s).
      * intros ->. discriminate.
      * simpl. congruence.
      * exact Hconv.
  - clear. intros nd pre st0 stack s Hne. now destruct Hne.
  - clear. intros l s ls ss Hl IHl Hall IH nd pre st0 stack s' _ Hlen Hconv.
    rewrite stringify_loop_app, IHl. simpl.
    destruct ss as [|s2 ss].
    + rewrite (renders_all_nil _ _ Hall eq_refl). simpl.
      rewrite Hlen, Nat.eqb_refl, Hconv. simpl. apply bind_ret.
    + destruct (Nat.eqb_spec (length (pre ++ [s])) (node_arity nd)) as [E|_].
      * rewrite !length_app in *. simpl in *. lia.
      * simpl. apply (IH nd (pre ++ [s]) s stack s'); [discriminate| |].
        -- now rewrite <- app_assoc.
        -- now rewrite <- app_assoc.
Qed.

(** X28: on a complete prefix expression [stringify_for_sympy] returns the text
    built recursively: each node's formatter applied to the texts of its
    operands. *)
Theorem stringify_renders (l : Individual) (s : string) :
  renders float_str l s -> stringify_for_sympy float_str l = Ok s.
Proof.
  intros H. unfold stringify_for_sympy.
  now rewrite (renders_deliver l s H).
Qed.

(** X29: the formatters of [inv] and [neg] have no field: the text of a unary
    node with one of these names does not mention its operand. *)
Theorem stringify_drops_operand (nd : node) (l : Individual) (s : string) :
  node_arity nd = 1%nat -> renders float_str l s ->
  (node_name nd = "inv" ->
   stringify_for_sympy float_str (nd :: l) = Ok "Pow(-1)") /\
  (node_name nd = "neg" ->
   stringify_for_sympy float_str (nd :: l) = Ok "Mul(-1)").
Proof.
  intros Ha Hl.
  assert (Hall : renders_all float_str l [s]).
  { rewrite <- (app_nil_r l). apply renders_cons; [exact Hl|constructor]. }
  split; intros Hn; unfold stringify_for_sympy;
    rewrite (renders_deliver (nd :: l) _
               (renders_node float_str nd l [s] _ Hall (eq_sym Ha)
                  ltac:(unfold convert_inverse_prim; rewrite Hn; reflexivity)));
    reflexivity.
Qed.

(** After a complete expression the stack is empty and the loop starts
    afresh: of two expressions in a row only the second is returned. *)
Theorem stringify_last_expression (l1 l2 : Individual) (s1 s2 : string) :
  renders float_str l1 s1 -> renders float_str l2 s2 ->
  stringify_for_sympy float_str (l1 ++ l2) = Ok s2.
Proof.
  intros H1 H2. unfold stringify_for_sympy.
  rewrite stringify_loop_app, (renders_deliver l1 s1 H1). simpl.
  now rewrite (renders_deliver l2 s2 H2).
Qed.

(** X30: a node that still waits for operands at the end of the list is not an
    error: the text of the last complete sub-expression is returned. *)
Theorem stringify_open_node (nd : node) (l : Individual) (s : string) :
  (1 < node_arity nd)%nat -> renders float_str l s ->
  stringify_for_sympy float_str (nd :: l) = Ok s.
Proof.
  intros Ha Hl. unfold stringify_for_sympy. simpl. unfold visit.
  destruct (node_arity nd) as [|[|a]] eqn:E; [lia|lia|]. simpl.
  rewrite (renders_deliver l s Hl). simpl. rewrite E. reflexivity.
Qed.

End StringifyFacts.

Lemma renders_x1 : renders example_float_str [x1_node] "x1".
Proof.
  apply (renders_node example_float_str x1_node [] []);
    [constructor|reflexivity|reflexivity].
Qed.

Lemma renders_sub_x1_x1 :
  renders example_float_str [Primitive "sub" 2; x1_node; x1_node]
          "Add(x1, Mul(-1,x1))".
Proof.
  apply (renders_node example_float_str (Primitive "sub" 2)
           [x1_node; x1_node] ["x1"; "x1"]); [|reflexivity|reflexivity].
  apply (renders_cons example_float_str [x1_node] "x1" [x1_node] ["x1"]);
    [exact renders_x1|].
  apply (renders_cons example_float_str [x1_node] "x1" [] []);
    [exact renders_x1|constructor].
Qed.

Lemma stringify_renders_witness :
  stringify_for_sympy example_float_str [Primitive "sub" 2; x1_node; x1_node]
  = Ok "Add(x1, Mul(-1,x1))".
Proof.
  apply (stringify_renders example_float_str
           [Primitive "sub" 2; x1_node; x1_node] "Add(x1, Mul(-1,x1))").
  exact renders_sub_x1_x1.
Defined.

Lemma stringify_drops_operand_witness :
  (node_name (Primitive "neg" 1) = "inv" ->
   stringify_for_sympy example_float_str [Primitive "neg" 1; x1_node]
   = Ok "Pow(-1)") /\
  (node_name (Primitive "neg" 1) = "neg" ->
   stringify_for_sympy example_float_str [Primitive "neg" 1; x1_node]
   = Ok "Mul(-1)").
Proof.
  apply (stringify_drops_operand example_float_str (Primitive "neg" 1)
           [x1_node] "x1"); [reflexivity|exact renders_x1].
Defined.

Lemma stringify_last_expression_witness :
  stringify_for_sympy example_float_str
    ([Primitive "sub" 2; x1_node; x1_node] ++ [x1_node]) = Ok "x1".
Proof.
  apply (stringify_last_expression example_float_str
           [Primitive "sub" 2; x1_node; x1_node] [x1_node]
           "Add(x1, Mul(-1,x1))" "x1");
    [exact renders_sub_x1_x1|exact renders_x1].
Defined.

Lemma stringify_open_node_witness :
  stringify_for_sympy example_float_str [Primitive "add" 2; x1_node] = Ok "x1".
Proof.
  apply (stringify_open_node example_float_str (Primitive "add" 2)
           [x1_node] "x1"); [simpl; lia|exact renders_x1].
Defined.

(* ===================================================================== *)
(** ** [check_const] *)
(* ===================================================================== *)

Lemma balance_after_S (ars : list Z) (q : nat) (a : Z) :
  ars !! q = Some a ->
  balance_after ars (S q) = balance_after ars q + (a - 1).
Proof.
  intros H. unfold balance_after.
  rewrite (take_S_r _ _ _ H), balance_sum_app. unfold balance_sum at 2.
  simpl. lia.
Qed.

Lemma node_arities_lookup (ind : Individual) (q : nat) (nd : node) :
  ind !! q = Some nd ->
  node_arities ind !! q = Some (Z.of_nat (node_arity nd)).
Proof.
  intros H. unfold node_arities.
  change (map ?f ?l) with (f <$> l). now rewrite list_lookup_fmap, H.
Qed.

(** Before its last node the balance of a balanced tree is positive. *)
Lemma balanced_positive (ind : Individual) :
  balanced ind ->
  forall q, (q < length ind)%nat -> 1 <= balance_after (node_arities ind) q.
Proof.
  intros (_ & _ & Hnz) q. induction q as [|q IH]; intros Hq.
  - unfold balance_after. simpl. unfold balance_sum. simpl. lia.
  - destruct (lookup_lt_is_Some_2 ind q ltac:(lia)) as [nd Hnd].
    pose proof (balance_after_S _ _ _ (node_arities_lookup _ _ _ Hnd)) as E.
    specialize (IH ltac:(lia)). specialize (Hnz (S q) ltac:(lia)). lia.
Qed.

(** The balance drops by at most one per node. *)
Lemma balance_drop (ind : Individual) (q d : nat) :
  (q + d <= length ind)%nat ->
  balance_after (node_arities ind) q - Z.of_nat d
  <= balance_after (node_arities ind) (q + d).
Proof.
  induction d as [|d IH]; intros Hd.
  - rewrite Nat.add_0_r. lia.
  - destruct (lookup_lt_is_Some_2 ind (q + d) ltac:(lia)) as [nd Hnd].
    pose proof (balance_after_S _ _ _ (node_arities_lookup _ _ _ Hnd)) as E.
    specialize (IH ltac:(lia)).
    replace (q + S d)%nat with (S (q + d)) by lia. lia.
Qed.

(** In a balanced tree every node is followed by at least as many nodes as
    it has operands. *)
Lemma balanced_room (ind : Individual) (i : nat) (nd : node) :
  balanced ind -> ind !! i = Some nd ->
  (i + node_arity nd < length ind)%nat.
Proof.
  intros Hb Hnd. pose proof (lookup_lt_Some _ _ _ Hnd) as Hi.
  pose proof (balanced_positive ind Hb i Hi) as Hpos.
  pose proof (balance_after_S _ _ _ (node_arities_lookup _ _ _ Hnd)) as E.
  pose proof (balance_drop ind (S i) (length ind - S i) ltac:(lia)) as Hd.
  replace (S i + (length ind - S i))%nat with (length ind) in Hd by lia.
  destruct Hb as (_ & Hz & _). lia.
Qed.

Section CheckConstFacts.

Variables UNARY_TOKENS BINARY_TOKENS : list string.

Local Abbreviation at_position := (check_const_at UNARY_TOKENS BINARY_TOKENS).
Local Abbreviation loop := (check_const_loop UNARY_TOKENS BINARY_TOKENS).
Local Abbreviation parent := (const_parent UNARY_TOKENS BINARY_TOKENS).

Lemma const_child_lookup (names : list string) (j : nat) :
  const_child names j =
  match names !! j with
  | Some c => Ok (contains "const" c)
  | None => Raise IndexError
  end.
Proof.
  unfold const_child. rewrite index_of_nat. now destruct (names !! j).
Qed.

Lemma check_const_at_true (names : list string) (i : nat) (name : string) :
  at_position names (i, name) = Ok true <->
  (name ∈ UNARY_TOKENS /\
   exists c, names !! (i + 1)%nat = Some c /\ contains "const" c = true) \/
  (name ∈ BINARY_TOKENS /\
   exists c1 c2, names !! (i + 1)%nat = Some c1 /\
                 names !! (i + 2)%nat = Some c2 /\
                 contains "const" c1 = true /\ contains "const" c2 = true).
Proof.
  unfold check_const_at. cbn [fst snd]. rewrite !const_child_lookup.
  destruct (bool_decide_reflect (name ∈ UNARY_TOKENS)) as [Hu|Hu];
  destruct (bool_decide_reflect (name ∈ BINARY_TOKENS)) as [Hb|Hb];
  destruct (names !! (i + 1)%nat) as [c1|] eqn:E1;
  destruct (names !! (i + 2)%nat) as [c2|] eqn:E2;
  try destruct (contains "const" c1) eqn:C1;
  try destruct (contains "const" c2) eqn:C2;
  simpl; rewrite ?C1, ?C2; simpl;
  (split; [intros H; try discriminate|
           intros [(Hu' & c & Hc & Hcc)|(Hb' & d1 & d2 & Hd1 & Hd2 & Hc1 & Hc2)];
           try reflexivity; try contradiction; try discriminate;
           congruence]).
  all: try (left; split; [assumption|]; eexists; split; [reflexivity|assumption]).
  all: try (right; split; [assumption|]; do 2 eexists;
            (split; [reflexivity|]); (split; [reflexivity|]);
            split; assumption).
Qed.

Lemma check_const_at_raise (names : list string) (i : nat) (name : string)
  (e : exn) :
  at_position names (i, name) = Raise e ->
  e = IndexError /\
  (((name ∈ UNARY_TOKENS \/ name ∈ BINARY_TOKENS) /\
    names !! (i + 1)%nat = None) \/
   (name ∈ BINARY_TOKENS /\ names !! (i + 2)%nat = None /\
    exists c, names !! (i + 1)%nat = Some c /\ contains "const" c = true)).
Proof.
  unfold check_const_at. cbn [fst snd]. rewrite !const_child_lookup.
  destruct (bool_decide_reflect (name ∈ UNARY_TOKENS)) as [Hu|Hu];
  destruct (bool_decide_reflect (name ∈ BINARY_TOKENS)) as [Hb|Hb];
  destruct (names !! (i + 1)%nat) as [c1|] eqn:E1;
  destruct (names !! (i + 2)%nat) as [c2|] eqn:E2;
  try destruct (contains "const" c1) eqn:C1;
  try destruct (contains "const" c2) eqn:C2;
  simpl; rewrite ?C1, ?C2; simpl; intros H; try discriminate;
  injection H as <-; (split; [reflexivity|]);
  try (left; split; [tauto|reflexivity]);
  right; split; [assumption|]; split; [reflexivity|];
  eexists; split; [reflexivity|assumption].
Qed.

Lemma check_const_at_returns (names : list string) (i : nat) (name : string) :
  (name ∈ UNARY_TOKENS \/ name ∈ BINARY_TOKENS -> (i + 1 < length names)%nat) ->
  (name ∈ BINARY_TOKENS -> (i + 2 < length names)%nat) ->
  exists b, at_position names (i, name) = Ok b.
Proof.
  intros H1 H2. destruct (at_position names (i, name)) as [b|e] eqn:E; [eauto|].
  apply check_const_at_raise in E as (_ & [(Hn & E1)|(Hb & E2 & _)]).
  - apply lookup_ge_None in E1. specialize (H1 Hn). lia.
  - apply lookup_ge_None in E2. specialize (H2 Hb). lia.
Qed.

Lemma check_const_loop_true (names : list string) (ixs : list (nat * string)) :
  loop names ixs = Ok true ->
  exists ix, In ix ixs /\ at_position names ix = Ok true.
Proof.
  induction ixs as [|ix ixs IH]; simpl; [discriminate|]. intros H.
  bind_inv H. destruct a.
  - exists ix. auto.
  - destruct (IH H) as (ix' & Hin & Hat). exists ix'. auto.
Qed.

Lemma check_const_loop_raise (names : list string) (ixs : list (nat * string))
  (e : exn) :
  loop names ixs = Raise e ->
  exists ix, In ix ixs /\ at_position names ix = Raise e.
Proof.
  induction ixs as [|ix ixs IH]; simpl; [discriminate|]. intros H.
  destruct (at_position names ix) as [[|]|e'] eqn:E; simpl in H.
  - discriminate.
  - destruct (IH H) as (ix' & Hin & Hat). exists ix'. auto.
  - injection H as <-. exists ix. auto.
Qed.

Lemma check_const_loop_returns (names : list string) (ixs : list (nat * string)) :
  (forall ix, In ix ixs -> exists b, at_position names ix = Ok b) ->
  exists b, loop names ixs = Ok b.
Proof.
  induction ixs as [|ix ixs IH]; simpl; intros H; [eauto|].
  destruct (H ix (or_introl eq_refl)) as [[|] ->]; simpl; [eauto|].
  apply IH. intros ix' Hin. apply H. now right.
Qed.

(** The loop over the positions from [k] on finds a parent of constants at
    [i >= k]: the positions before [i] do not read past the end, since
    position [i + 1] exists. *)
Lemma check_const_loop_finds (names : list string) (i : nat) :
  parent names i ->
  forall (rest : list string) (k : nat),
    (forall j, rest !! j = names !! (k + j)%nat) -> (k <= i)%nat ->
    loop names (zip (seq k (length rest)) rest) = Ok true.
Proof.
  intros Hp rest. induction rest as [|x rest IH]; intros k Hrest Hk.
  - destruct Hp as (name & Hi & _).
    specialize (Hrest (i - k)%nat). rewrite lookup_nil in Hrest.
    replace (k + (i - k))%nat with i in Hrest by lia. congruence.
  - simpl. destruct (Nat.eq_dec k i) as [->|Hne].
    + destruct Hp as (name & Hi & Hp).
      pose proof (Hrest 0%nat) as H0. simpl in H0. rewrite Nat.add_0_r in H0.
      assert (x = name) as -> by congruence.
      apply check_const_at_true in Hp. now rewrite Hp.
    + assert (Hlen : (i + 1 < length names)%nat).
      { destruct Hp as (name & _ & [(_ & c & Hc & _)|(_ & c & _ & Hc & _)]);
          now apply lookup_lt_Some in Hc. }
      destruct (check_const_at_returns names k x) as [[|] ->];
        [lia|lia|reflexivity|]. simpl.
      apply IH; [|lia]. intros j. specialize (Hrest (S j)). simpl in Hrest.
      now replace (S k + j)%nat with (k + S j)%nat by lia.
Qed.

(** X24: [check_const] returns [True] exactly when some position holds a unary
    name followed by a name with [const] in it, or a binary name followed by
    two such names; no position before such a one raises. *)
Theorem check_const_spec (ind : Individual) :
  check_const UNARY_TOKENS BINARY_TOKENS ind = Ok true <->
  exists i, parent (map node_name ind) i.
Proof.
  unfold check_const. cbv zeta. split.
  - intros H. apply check_const_loop_true in H as ([i name] & Hin & Hat).
    apply In_enumerate in Hin. apply check_const_at_true in Hat.
    exists i, name. auto.
  - intros [i Hp]. unfold enumerate.
    apply (check_const_loop_finds _ i Hp _ 0%nat); [reflexivity|lia].
Qed.

(** X25: on a balanced tree whose unary names have at least one operand and
    whose binary names have at least two, [check_const] does not raise. *)
Theorem check_const_total (ind : Individual) :
  balanced ind ->
  (forall nd, nd ∈ ind -> node_name nd ∈ UNARY_TOKENS ->
              (1 <= node_arity nd)%nat) ->
  (forall nd, nd ∈ ind -> node_name nd ∈ BINARY_TOKENS ->
              (2 <= node_arity nd)%nat) ->
  exists b, check_const UNARY_TOKENS BINARY_TOKENS ind = Ok b.
Proof.
  intros Hb Hu Hbin. unfold check_const. cbv zeta.
  apply check_const_loop_returns. intros [i name] Hin.
  apply In_enumerate in Hin. apply list_lookup_fmap_Some_1 in Hin as (nd & -> & Hnd).
  pose proof (balanced_room ind i nd Hb Hnd) as Hroom.
  pose proof (list_elem_of_lookup_2 _ _ _ Hnd) as Hel.
  apply check_const_at_returns; rewrite length_map.
  - intros [H|H]; [specialize (Hu nd Hel H)|specialize (Hbin nd Hel H)]; lia.
  - intros H. specialize (Hbin nd Hel H). lia.
Qed.

(** [check_const] raises nothing but [IndexError], and only when a position
    reads past the end of the list. *)
Theorem check_const_raise (ind : Individual) (e : exn) :
  check_const UNARY_TOKENS BINARY_TOKENS ind = Raise e ->
  e = IndexError /\
  exists i, reads_past_end UNARY_TOKENS BINARY_TOKENS (map node_name ind) i.
Proof.
  unfold check_const. cbv zeta. intros H.
  apply check_const_loop_raise in H as ([i name] & Hin & Hat).
  apply In_enumerate in Hin. pose proof (lookup_lt_Some _ _ _ Hin) as Hi.
  apply check_const_at_raise in Hat as (-> & [(Hn & E1)|(Hb & E2 & c & Hc & Hcc)]).
  - split; [reflexivity|]. exists i, name. split; [exact Hin|]. left.
    apply lookup_ge_None in E1. split; [lia|exact Hn].
  - split; [reflexivity|]. exists i, name. split; [exact Hin|]. right.
    apply lookup_ge_None in E2. apply lookup_lt_Some in Hc as Hc'.
    split; [lia|]. split; [exact Hb|]. eauto.
Qed.

End CheckConstFacts.

Lemma check_const_total_witness :
  exists b, check_const example_UNARY example_BINARY const_tree = Ok b.
Proof.
  apply (check_const_total example_UNARY example_BINARY const_tree).
  - exact const_tree_balanced.
  - intros nd Hnd Hin. revert Hin.
    apply list_elem_of_In in Hnd. simpl in Hnd.
    destruct Hnd as [<-|[<-|[<-|[]]]]; simpl; intros Hin;
      solve [lia | exfalso; revert Hin; by_evaluation].
  - intros nd Hnd Hin. revert Hin.
    apply list_elem_of_In in Hnd. simpl in Hnd.
    destruct Hnd as [<-|[<-|[<-|[]]]]; simpl; intros Hin;
      solve [lia | exfalso; revert Hin; by_evaluation].
Defined.

Lemma check_const_raise_witness :
  IndexError = IndexError /\
  exists i, reads_past_end example_UNARY example_BINARY
                           (map node_name [Primitive "sin" 1]) i.
Proof.
  apply (check_const_raise example_UNARY example_BINARY [Primitive "sin" 1]).
  reflexivity.
Defined.

(* ===================================================================== *)
(** ** [GenericEvaluate.__call__] *)
(* ===================================================================== *)

Section CallFacts.

Variable compile : Individual -> result (list (list float) -> result (list float)).
Variable X_train : list (list float).
Variable y_train : list float.
Variable mean_squared_diff : list float -> list float -> float.
Variable early_stopping : bool.
Variable hof : list Individual.
Variable threshold : float.
Variable _finish_eval : Individual -> split -> result (list float).
Variable const_opt : (list float -> result float) -> list float -> result (list float).

Local Abbreviation call :=
  (__call__ compile X_train y_train mean_squared_diff true early_stopping hof
            threshold _finish_eval const_opt).
Local Abbreviation stop := (early_stop early_stopping hof threshold _finish_eval).

(** X26: with [optimize] on, a call that returns has not optimised anything:
    either the early-stopping test passed and the result is [(1.0,)], or the
    individual has no [mutable_const] node and the result is that of
    [_finish_eval] on the unchanged individual. Whatever [const_opt] does,
    the call of line 478 passes an argument too many. *)
Theorem call_returns_unoptimised (individual : Individual)
  (fitness : list float) :
  call individual = Ok fitness ->
  (stop = Ok true /\ fitness = [1%float]) \/
  (stop = Ok false /\ const_idxs_of individual = [] /\
   _finish_eval individual Train = Ok fitness).
Proof.
  unfold __call__. cbv zeta. intros H. bind_inv H. destruct a.
  - left. injection H as <-. auto.
  - right. split; [exact Ha|]. simpl in H.
    destruct (const_idxs_of individual) as [|i idxs] eqn:E.
    + simpl in H. auto.
    + exfalso. simpl in H. bind_inv H. discriminate.
Qed.

(** X27: with [optimize] on, no early stop and at least one [mutable_const]
    node, the call raises: the exception of [const_opt] if it raises, else
    [TypeError]. *)
Theorem call_with_constants_raises (individual : Individual) :
  stop = Ok false -> const_idxs_of individual <> [] ->
  call individual =
  match const_opt (obj compile X_train y_train mean_squared_diff individual
                       (const_idxs_of individual))
                  (replicate (length (const_idxs_of individual)) 1%float) with
  | Ok _ => Raise TypeError
  | Raise e => Raise e
  end.
Proof.
  unfold __call__. cbv zeta. intros -> Hne. simpl.
  destruct (const_idxs_of individual) as [|i idxs] eqn:E; [contradiction|].
  simpl. now destruct (const_opt _ _).
Qed.

End CallFacts.

Lemma call_returns_unoptimised_witness :
  (early_stop false [] 0%float (fun _ _ => Ok [0.5%float]) = Ok true /\
   [0.5%float] = [1%float]) \/
  (early_stop false [] 0%float (fun _ _ => Ok [0.5%float]) = Ok false /\
   const_idxs_of [x1_node] = [] /\
   (fun (_ : Individual) (_ : split) => Ok [0.5%float]) [x1_node] Train
   = Ok [0.5%float]).
Proof.
  apply (call_returns_unoptimised
           (fun _ => Raise TypeError) [] [] (fun _ _ => 0%float)
           false [] 0%float (fun _ _ => Ok [0.5%float])
           (fun _ x0 => Ok x0) [x1_node] [0.5%float]).
  reflexivity.
Defined.

Lemma call_with_constants_raises_witness :
  __call__ (fun _ => Raise TypeError) [] [] (fun _ _ => 0%float)
           true false [] 0%float (fun _ _ => Ok [0.5%float])
           (fun _ x0 => Ok x0) const_tree
  = Raise TypeError.
Proof.
  apply (call_with_constants_raises
           (fun _ => Raise TypeError) [] [] (fun _ _ => 0%float)
           false [] 0%float (fun _ _ => Ok [0.5%float])
           (fun _ x0 => Ok x0) const_tree).
  - reflexivity.
  - discriminate.
Defined.

(* ===================================================================== *)
(** ** The masks against the validators, in both directions *)
(* ===================================================================== *)

Lemma mask_row_origin (cols : list Z) (row row' : list float) (k : nat) :
  mask_row row cols = Ok row' -> entry_masked row' k = true ->
  entry_masked row k = true \/ exists c, c ∈ cols /\ column c k.
Proof.
  intros H Hm. apply mask_row_inv in H as [_ H]. unfold entry_masked in *.
  destruct (row' !! k) as [v|] eqn:E; [|discriminate].
  destruct (H k v E) as [Hold|(_ & c & Hc & Hn)].
  - left. now rewrite Hold.
  - right. exists c. split; [exact Hc|]. now exists (length row).
Qed.

(** An entry that is [-inf] after [priors[r, cols] = -inf] was so before or
    lies in row [r] and in one of the columns. *)
Lemma mask_origin (P P' : matrix) (r : Z) (cols : list Z) (r0 k : nat) :
  mask P r cols = Ok P' -> masked P' r0 k = true ->
  masked P r0 k = true \/
  (norm_index (length P) r = Ok r0 /\ exists c, c ∈ cols /\ column c k).
Proof.
  unfold mask. intros H Hm. bind_inv H. rename a into r'.
  pose proof (norm_index_lt _ _ _ Ha) as Hlt.
  destruct (P !! r') as [row|] eqn:Hrow; [|discriminate].
  bind_inv H. rename a into row'. injection H as <-.
  unfold masked in *. destruct (decide (r0 = r')) as [->|Hne].
  - rewrite list_lookup_insert_eq in Hm by exact Hlt. rewrite Hrow.
    destruct (mask_row_origin _ _ _ _ Ha0 Hm) as [Hold|Hnew];
      [now left|right; split; assumption].
  - rewrite list_lookup_insert_ne in Hm by congruence. now left.
Qed.

Lemma masked_zeros (n m r k : nat) :
  masked (replicate n (replicate m 0%float)) r k = false.
Proof.
  unfold masked, entry_masked.
  destruct (replicate n _ !! r) as [row|] eqn:Hr; [|reflexivity].
  apply lookup_replicate in Hr as [-> _].
  destruct (replicate m _ !! k) as [v|] eqn:Hk; [|reflexivity].
  apply lookup_replicate in Hk as [-> _]. reflexivity.
Qed.

Lemma trig_run_snoc (lib : Library) (tr : trig_state) (pre : list Z) (t : Z) :
  trig_run lib tr (pre ++ [t]) = trig_step lib t (trig_run lib tr pre).
Proof. unfold trig_run. now rewrite fold_left_app. Qed.

Lemma mapM_take {A B : Type} (f : A -> result B) (l : list A) (ys : list B)
  (n : nat) :
  mapM f l = Ok ys -> mapM f (take n l) = Ok (take n ys).
Proof.
  revert ys n. induction l as [|x l IH]; intros ys n H; simpl in H.
  - injection H as <-. now destruct n.
  - bind_inv H. bind_inv H. injection H as <-.
    destruct n as [|n]; [reflexivity|]. simpl.
    now rewrite Ha, (IH _ n Ha0).
Qed.

Section MaskReasons.

Variable lib : Library.
Variable tokens : list Z.
Variables max_len min_len : Z.

Local Abbreviation just := (all_justified lib tokens max_len min_len).
Local Abbreviation len := (Z.of_nat (length tokens)).

(** One turn of the loop keeps every [-inf] entry justified, and the loop
    variables are those of the prefix read so far. *)
Lemma priors_step_just (pre : list Z) (t : Z) (rest : list Z)
  (st st' : prior_state) (ars : list Z) :
  tokens = pre ++ t :: rest ->
  just (st_priors st) ->
  arities_of lib pre = Ok ars ->
  st_dangling st = 1 + balance_sum ars ->
  st_trig st = trig_run lib trig_init pre ->
  priors_step lib len max_len min_len (Z.of_nat (length pre)) t st = Ok st' ->
  just (st_priors st') /\
  (exists a, arities_of lib (pre ++ [t]) = Ok (ars ++ [a]) /\
             st_dangling st' = 1 + balance_sum (ars ++ [a])) /\
  (rest <> [] -> st_trig st' = trig_run lib trig_init (pre ++ [t])).
Proof.
  intros E J0 Hars Hd Htr H. unfold priors_step in H. bind_inv H.
  assert (Hars' : arities_of lib (pre ++ [t]) = Ok (ars ++ [a])).
  { unfold arities_of in *. apply mapM_app. exists ars, [a].
    split; [exact Hars|]. split; [|reflexivity]. simpl. now rewrite Ha. }
  assert (Hd' : st_dangling st + (a - 1) = 1 + balance_sum (ars ++ [a])).
  { rewrite balance_sum_app, Hd. unfold balance_sum at 3. simpl. lia. }
  assert (Hlen : length tokens = (length pre + S (length rest))%nat)
    by (rewrite E, length_app; reflexivity).
  destruct (Z.ltb_spec (Z.of_nat (length pre)) (len - 1)) as [Hlt|Hge].
  2:{ injection H as <-. simpl. split; [exact J0|]. split; [eauto|].
      intros Hne. destruct rest; [contradiction|]. simpl in Hlen. lia. }
  bind_inv H. rename a0 into P1, Ha0 into H1.
  bind_inv H. rename a0 into P2, Ha0 into H2.
  bind_inv H. rename a0 into P3, Ha0 into H3.
  bind_inv H. rename a0 into P4, Ha0 into H4.
  injection H as <-. simpl.
  assert (Htake : take (S (length pre)) tokens = pre ++ [t]).
  { rewrite E. change (t :: rest) with ([t] ++ rest). rewrite app_assoc.
    rewrite take_app_length'; [reflexivity|]. rewrite length_app. simpl. lia. }
  assert (Hrun : trig_step lib t (st_trig st)
                 = trig_run lib trig_init (take (S (length pre)) tokens))
    by (rewrite Htake, trig_run_snoc, Htr; reflexivity).
  assert (Hbase : forall (P : matrix) (r : nat) (k : nat),
             norm_index (length P) (Z.of_nat (length pre) + 1) = Ok r ->
             forall reason : Prop,
               (reason ->
                justified lib tokens max_len min_len (S (length pre)) k) ->
               reason -> justified lib tokens max_len min_len r k).
  { intros P r k Hr reason Hj Hreason.
    apply norm_index_nonneg in Hr; [|lia].
    replace r with (S (length pre)) by lia. now apply Hj. }
  assert (Hhere : forall k : nat,
             ((exists c, c ∈ trig_tokens lib /\ column c k /\
                         trig_descendant
                           (trig_run lib trig_init (take (S (length pre)) tokens))
                         = true) \/
              (exists u, inverse_tokens lib !! t = Some u /\ column u k) \/
              (exists c, c ∈ terminal_tokens lib /\ column c k /\
                         Z.of_nat (length pre) + 2 < min_len /\
                         1 + balance_sum (ars ++ [a]) = 1) \/
              (exists c, c ∈ binary_tokens lib /\ column c k /\
                         Z.of_nat (length pre) + 2 >= max_len / 2 /\
                         1 + balance_sum (ars ++ [a])
                         >= max_len - (Z.of_nat (length pre) + 1) - 1)) ->
             justified lib tokens max_len min_len (S (length pre)) k).
  { intros k Hreason. right. exists (length pre), t, (ars ++ [a]).
    split; [reflexivity|]. split; [rewrite E; now apply list_lookup_middle|].
    split; [lia|]. split; [now rewrite Htake|]. exact Hreason. }
  assert (J1 : just P1).
  { destruct (trig_descendant (trig_step lib t (st_trig st))) eqn:Hflag;
      [|now injection H1 as <-].
    intros r k Hm.
    destruct (mask_origin _ _ _ _ _ _ H1 Hm) as [Hold|(Hr & c & Hc & Hcol)];
      [now apply J0|].
    apply (Hbase _ _ _ Hr _ (Hhere k)). left. exists c.
    split; [exact Hc|]. split; [exact Hcol|]. now rewrite <- Hrun. }
  assert (J2 : just P2).
  { destruct (inverse_tokens lib !! t) as [u|] eqn:Hu; [|now injection H2 as <-].
    intros r k Hm.
    destruct (mask_origin _ _ _ _ _ _ H2 Hm) as [Hold|(Hr & c & Hc & Hcol)];
      [now apply J1|].
    apply list_elem_of_singleton in Hc. subst c.
    apply (Hbase _ _ _ Hr _ (Hhere k)). right. left. now exists u. }
  assert (J3 : just P3).
  { destruct (Z.ltb_spec (Z.of_nat (length pre) + 2) min_len) as [Hmin|];
      [|now injection H3 as <-].
    destruct (Z.eqb_spec (st_dangling st + (a - 1)) 1) as [Hone|];
      [|now injection H3 as <-].
    simpl in H3. intros r k Hm.
    destruct (mask_origin _ _ _ _ _ _ H3 Hm) as [Hold|(Hr & c & Hc & Hcol)];
      [now apply J2|].
    apply (Hbase _ _ _ Hr _ (Hhere k)). right. right. left. exists c.
    split; [exact Hc|]. split; [exact Hcol|]. split; [exact Hmin|]. lia. }
  assert (J4 : just P4).
  { destruct (mask_late_cases lib max_len (Z.of_nat (length pre) + 0)
                (st_dangling st + (a - 1)) P3) as [E4|(Hmid & Hbud & E4)];
      rewrite Z.add_0_r in *; rewrite E4 in H4.
    - now injection H4 as <-.
    - intros r k Hm.
      destruct (mask_origin _ _ _ _ _ _ H4 Hm) as [Hold|(Hr & c & Hc & Hcol)];
        [now apply J3|].
      apply (Hbase _ _ _ Hr _ (Hhere k)). right. right. right. exists c.
      split; [exact Hc|]. split; [exact Hcol|]. split; [exact Hmid|]. lia. }
  split; [exact J4|]. split; [exists a; split; [exact Hars'|exact Hd']|].
  intros _. now rewrite trig_run_snoc, Htr.
Qed.

Lemma priors_loop_just (rest : list Z) :
  forall (pre : list Z) (st st' : prior_state) (ars : list Z),
    tokens = pre ++ rest ->
    just (st_priors st) ->
    arities_of lib pre = Ok ars ->
    st_dangling st = 1 + balance_sum ars ->
    (rest <> [] -> st_trig st = trig_run lib trig_init pre) ->
    priors_loop lib len max_len min_len (Z.of_nat (length pre)) rest st = Ok st' ->
    just (st_priors st').
Proof.
  induction rest as [|t rest IH]; intros pre st st' ars E J Hars Hd Htr H;
    simpl in H.
  - now injection H as <-.
  - bind_inv H. rename a into st1.
    destruct (priors_step_just pre t rest st st1 ars E J Hars Hd
                (Htr ltac:(discriminate)) Ha) as (J1 & (a & Hars1 & Hd1) & Htr1).
    apply (IH (pre ++ [t]) st1 st' (ars ++ [a])); try assumption.
    + now rewrite <- app_assoc.
    + rewrite length_app. simpl.
      replace (Z.of_nat (length pre + 1)) with (Z.of_nat (length pre) + 1) by lia.
      exact H.
Qed.

Lemma generate_priors_just (n : nat) (expr_length max_const : Z) (P : matrix) :
  generate_priors lib tokens n expr_length max_const max_len min_len = Ok P ->
  just P.
Proof.
  unfold generate_priors. intros H. bind_inv H. rename a into P0.
  bind_inv H. rename a into st. injection H as <-.
  apply (priors_loop_just tokens [] (PriorState P0 trig_init 1) st []);
    try reflexivity; [|exact Ha0].
  simpl. intros r k Hm.
  destruct (mask_origin _ _ _ _ _ _ Ha Hm) as [Hold|(Hr & c & Hc & Hcol)].
  - now rewrite masked_zeros in Hold.
  - apply norm_index_nonneg in Hr; [|lia]. subst r. left.
    split; [reflexivity|]. now exists c.
Qed.

End MaskReasons.

Lemma balance_after_positive (ars : list Z) (p : nat) :
  Forall (fun a => 0 <= a) ars -> first_zero_at ars p ->
  forall q : nat, (q < p)%nat -> 1 <= balance_after ars q.
Proof.
  intros Hnn (Hp & _ & Hnz) q. induction q as [|q IH]; intros Hq.
  - unfold balance_after, balance_sum. simpl. lia.
  - destruct (lookup_lt_is_Some_2 ars q ltac:(lia)) as [a Ha].
    pose proof (balance_after_S _ _ _ Ha) as E.
    pose proof (Forall_lookup_1 _ _ _ _ Hnn Ha) as Ha0. simpl in Ha0.
    specialize (IH ltac:(lia)). specialize (Hnz (S q) ltac:(lia)). lia.
Qed.

Lemma balance_after_slow (ars : list Z) (q d : nat) :
  Forall (fun a => 0 <= a) ars -> (q + d <= length ars)%nat ->
  balance_after ars q - Z.of_nat d <= balance_after ars (q + d).
Proof.
  intros Hnn. induction d as [|d IH]; intros Hd.
  - rewrite Nat.add_0_r. lia.
  - destruct (lookup_lt_is_Some_2 ars (q + d) ltac:(lia)) as [a Ha].
    pose proof (balance_after_S _ _ _ Ha) as E.
    pose proof (Forall_lookup_1 _ _ _ _ Hnn Ha) as Ha0. simpl in Ha0.
    specialize (IH ltac:(lia)).
    replace (q + S d)%nat with (S (q + d)) by lia. lia.
Qed.

Lemma column_nonneg (c : Z) (k : nat) : 0 <= c -> column c k -> k = Z.to_nat c.
Proof. intros Hc [m Hm]. now apply norm_index_nonneg in Hm. Qed.

Lemma index_nonneg_lookup {A : Type} (l : list A) (t : Z) (x : A) :
  0 <= t -> Py.index l t = Ok x -> l !! Z.to_nat t = Some x.
Proof.
  intros Ht H. apply index_norm in H as (k & Hk & Hx).
  apply norm_index_nonneg in Hk; [|exact Ht]. now subst k.
Qed.

Lemma token_names_lookup_l (lib : Library) (tokens : list Z) :
  forall (ns : list string) (i : nat) (t : Z),
    token_names lib tokens = Some ns -> tokens !! i = Some t ->
    exists a, ns !! i = Some a /\ token_name lib t = Some a.
Proof.
  induction tokens as [|t0 tokens IH]; intros ns i t H Hi; [discriminate|].
  apply token_names_cons in H as (a0 & nr & -> & Ht & Hr).
  destruct i as [|i]; simpl in Hi.
  - injection Hi as <-. now exists a0.
  - now apply (IH nr i t).
Qed.

Lemma token_names_app (lib : Library) (l1 l2 : list Z) :
  forall ns : list string,
    token_names lib (l1 ++ l2) = Some ns ->
    exists n1 n2, ns = n1 ++ n2 /\ token_names lib l1 = Some n1 /\
                  token_names lib l2 = Some n2.
Proof.
  induction l1 as [|t l1 IH]; intros ns H.
  - now exists [], ns.
  - change ((t :: l1) ++ l2) with (t :: (l1 ++ l2)) in H.
    apply token_names_cons in H as (a & nr & -> & Ht & Hr).
    apply IH in Hr as (n1 & n2 & -> & H1 & H2).
    exists (a :: n1), n2. split; [reflexivity|]. split; [|exact H2].
    simpl. now rewrite Ht, H1.
Qed.

Lemma library_exact_spec (lib : Library) :
  library_exact lib = true ->
  (forall c, c ∈ terminal_tokens lib \/ c ∈ binary_tokens lib \/
             c ∈ trig_tokens lib -> 0 <= c) /\
  Forall (fun a => 0 <= a) (arities lib) /\
  (forall t, 0 <= t < Z.of_nat (length (arities lib)) ->
             (t ∈ terminal_tokens lib <-> arities lib !! Z.to_nat t = Some 0)) /\
  (forall c, c ∈ binary_tokens lib -> arities lib !! Z.to_nat c = Some 2) /\
  (forall t u, inverse_tokens lib !! t = Some u ->
               0 <= u /\
               exists a b, token_name lib t = Some a /\
                           token_name lib u = Some b /\
                           dict_get INVERSE_TOKENS a = Some b).
Proof.
  unfold library_exact. intros H.
  apply andb_true_iff in H as [H Hinv].
  apply andb_true_iff in H as [H Hbin].
  apply andb_true_iff in H as [H Hterm].
  apply andb_true_iff in H as [Hsets Hars].
  rewrite forallb_forall in Hsets, Hars, Hterm, Hbin, Hinv.
  assert (Harity : forall t a, arity_is lib t a = true <->
                               arities lib !! Z.to_nat t = Some a).
  { intros t a. unfold arity_is.
    destruct (arities lib !! Z.to_nat t) as [a'|]; [|split; discriminate].
    split; [intros E; apply Z.eqb_eq in E; now subst|].
    intros [= ->]. apply Z.eqb_refl. }
  split; [|split; [|split; [|split]]].
  - intros c Hc. apply Z.leb_le, Hsets, list_elem_of_In.
    rewrite !elem_of_app. tauto.
  - apply Forall_forall. intros a Ha. apply Z.leb_le, Hars.
    now apply list_elem_of_In.
  - intros t Ht.
    assert (Hin : In t (seqZ 0 (Z.of_nat (length (arities lib)))))
      by (apply list_elem_of_In, elem_of_seqZ; lia).
    apply Hterm, Bool.eqb_prop in Hin.
    rewrite <- member_elem, Hin. apply Harity.
  - intros c Hc. apply Harity, Hbin. now apply list_elem_of_In.
  - intros t u Htu.
    assert (Hin : In (t, u) (map_to_list (inverse_tokens lib)))
      by (apply list_elem_of_In, elem_of_map_to_list; exact Htu).
    apply Hinv in Hin. unfold inverse_named in Hin. cbn [fst snd] in Hin.
    apply andb_true_iff in Hin as [Hu Hin]. apply Z.leb_le in Hu.
    split; [exact Hu|].
    destruct (token_name lib t) as [a|]; [|discriminate].
    destruct (token_name lib u) as [b|]; [|discriminate].
    destruct (dict_get INVERSE_TOKENS a) as [b'|] eqn:Hb; [|discriminate].
    apply String.eqb_eq in Hin. subst b'. now exists a, b.
Qed.

(** Row 0 masks every terminal token. *)
Lemma terminals_masked_first (lib : Library) (tokens : list Z) (n : nat)
  (expr_length max_const max_len min_len : Z) (P : matrix) (c : Z) :
  generate_priors lib tokens n expr_length max_const max_len min_len = Ok P ->
  c ∈ terminal_tokens lib -> 0 <= c ->
  masked P 0 (Z.to_nat c) = true.
Proof.
  unfold generate_priors. intros H Hc Hc0. bind_inv H. rename a into P0.
  bind_inv H. rename a into st. injection H as <-.
  eapply priors_loop_mono; [exact Ha0|]. simpl.
  apply mask_spec in Ha as [_ Hnew]. now apply (Hnew c Hc).
Qed.

(** The early-termination rule masks the terminal tokens. *)
Lemma terminals_masked_early (lib : Library) (pre : list Z) (t nxt : Z)
  (rest : list Z) (n : nat) (expr_length max_const max_len min_len : Z)
  (P : matrix) (ars : list Z) (c : Z) :
  generate_priors lib (pre ++ t :: nxt :: rest) n expr_length max_const
                  max_len min_len = Ok P ->
  arities_of lib (pre ++ [t]) = Ok ars ->
  Z.of_nat (length pre) + 2 < min_len ->
  1 + balance_sum ars = 1 ->
  c ∈ terminal_tokens lib -> 0 <= c ->
  masked P (S (length pre)) (Z.to_nat c) = true.
Proof.
  unfold generate_priors. intros H Hars Hmin Hd Hc Hc0.
  bind_inv H. rename a into P0. bind_inv H. rename a into st_f.
  injection H as <-.
  apply priors_loop_app in Ha0 as (st1 & Hpre & Hrest).
  pose proof (priors_loop_dangling _ _ _ _ _ _ _ _ Hpre) as (ars1 & Hars1 & Hd1).
  change (t :: nxt :: rest) with ([t] ++ nxt :: rest) in Hrest.
  apply priors_loop_app in Hrest as (st2 & Hstep & Hrest).
  pose proof (priors_loop_dangling _ _ _ _ _ _ _ _ Hstep) as (ars2 & Hars2 & Hd2).
  simpl in Hstep. bind_inv Hstep. injection Hstep as ->.
  assert (ars = ars1 ++ ars2) as ->.
  { unfold arities_of in *.
    assert (E : mapM (Py.index (arities lib)) (pre ++ [t]) = Ok (ars1 ++ ars2))
      by (apply mapM_app; eauto).
    congruence. }
  rewrite balance_sum_app in Hd. simpl in Hd1.
  rewrite length_app in Ha0. simpl in Ha0.
  eapply priors_loop_mono; [exact Hrest|].
  replace (S (length pre)) with (Z.to_nat (0 + Z.of_nat (length pre) + 1)) by lia.
  eapply priors_step_terminal; [exact Ha0|lia|lia|lia|lia|exact Hc|exact Hc0].
Qed.

Section BothWays.

Variables UNARY_TOKENS BINARY_TOKENS : list string.
Variable lib : Library.

Hypothesis consistent : library_consistent UNARY_TOKENS BINARY_TOKENS lib = true.

Local Abbreviation loop := (check_trig_loop UNARY_TOKENS BINARY_TOKENS).

(** Until it returns [True], the loop of [check_trig] carries the state
    that the loop of [generate_priors] carries. *)
Lemma check_trig_in_step (pre : list Z) :
  forall (st : trig_state) (np nr : list string),
    token_names lib pre = Some np ->
    loop st (np ++ nr) = true \/
    loop st (np ++ nr) = loop (trig_run lib st pre) nr.
Proof.
  induction pre as [|t pre IH]; intros st np nr Hnp.
  - injection Hnp as <-. now right.
  - apply token_names_cons in Hnp as (a & np' & -> & Hta & Hnp').
    destruct (consistent_spec UNARY_TOKENS BINARY_TOKENS lib consistent t a Hta)
      as (Htr & Hbin & Hun & _).
    change ((a :: np') ++ nr) with (a :: (np' ++ nr)).
    rewrite loop_cons.
    change (trig_run lib st (t :: pre))
      with (trig_run lib (trig_step lib t st) pre).
    unfold trig_step. rewrite Htr, Hbin, Hun.
    destruct (bool_decide (a ∈ TRIG_TOKENS));
      destruct (trig_descendant st); try (now left); now apply IH.
Qed.

(** A trig token read while the flag is set makes [check_trig] reject. *)
Lemma check_trig_flagged (pre : list Z) (t : Z) (rest : list Z)
  (ns : list string) :
  token_names lib (pre ++ t :: rest) = Some ns ->
  trig_descendant (trig_run lib trig_init pre) = true ->
  t ∈ trig_tokens lib ->
  check_trig UNARY_TOKENS BINARY_TOKENS ns = true.
Proof.
  intros Hns Hflag Ht.
  apply token_names_app in Hns as (np & nr & -> & Hnp & Hnr).
  apply token_names_cons in Hnr as (a & nr' & -> & Hta & _).
  destruct (consistent_spec UNARY_TOKENS BINARY_TOKENS lib consistent t a Hta)
    as (Htr & _).
  apply member_elem in Ht. rewrite Ht in Htr.
  unfold check_trig.
  destruct (check_trig_in_step pre trig_init np (a :: nr') Hnp) as [H|H];
    [exact H|].
  rewrite H, loop_cons, <- Htr, Hflag. reflexivity.
Qed.

(** When [check_trig] rejects, it does so at a trig token that is read
    while the flag is set. *)
Lemma check_trig_true_flagged (rest : list Z) :
  forall (st : trig_state) (nr : list string),
    token_names lib rest = Some nr -> loop st nr = true ->
    exists (mid : list Z) (t : Z) (rest' : list Z),
      rest = mid ++ t :: rest' /\
      trig_descendant (trig_run lib st mid) = true /\ t ∈ trig_tokens lib.
Proof.
  induction rest as [|t rest IH]; intros st nr Hnr H.
  - injection Hnr as <-. discriminate.
  - apply token_names_cons in Hnr as (a & nr' & -> & Hta & Hnr').
    destruct (consistent_spec UNARY_TOKENS BINARY_TOKENS lib consistent t a Hta)
      as (Htr & Hbin & Hun & _).
    rewrite loop_cons in H.
    assert (Hnext : loop (trig_step lib t st) nr' = true ->
                    exists mid t2 rest',
                      t :: rest = mid ++ t2 :: rest' /\
                      trig_descendant (trig_run lib st mid) = true /\
                      t2 ∈ trig_tokens lib).
    { intros H'.
      destruct (IH _ nr' Hnr' H') as (mid & t2 & rest' & -> & Hflag & Ht2).
      exists (t :: mid), t2, rest'. split; [reflexivity|].
      split; [exact Hflag|exact Ht2]. }
    unfold trig_step in Hnext. rewrite Htr, Hbin, Hun in Hnext.
    destruct (bool_decide (a ∈ TRIG_TOKENS)) eqn:Ha;
      destruct (trig_descendant st) eqn:Hd; try (now apply Hnext).
    exists [], t, rest. split; [reflexivity|]. split; [exact Hd|].
    apply member_elem. now rewrite Htr.
Qed.

(** The mask is computed for the array [tokens]; the expression is made of
    its first [p] tokens, what follows is padding. *)
Variable tokens : list Z.
Variable p : nat.
Variable ns : list string.
Variable max_exp_length : nat.
Variables expr_length max_const max_len min_len : Z.
Variable P : matrix.

Local Abbreviation expr := (take p tokens).

Hypothesis within : (p <= length tokens)%nat.
Hypothesis named : token_names lib expr = Some ns.
Hypothesis priors_ok :
  generate_priors lib tokens max_exp_length expr_length max_const max_len min_len
  = Ok P.

Lemma expr_lookup (i : nat) (t : Z) :
  expr !! i = Some t -> tokens !! i = Some t /\ (i < p)%nat.
Proof. intros H. now apply lookup_take_Some in H. Qed.

Lemma token_nonneg (i : nat) (t : Z) : expr !! i = Some t -> 0 <= t.
Proof.
  intros Hi. destruct (token_names_lookup_l lib expr ns i t named Hi)
    as (a & _ & Ha).
  pose proof (token_name_range lib t a Ha). lia.
Qed.

(** An allowed expression has no inverse pair. *)
Lemma allowed_no_inverse_pair : permitted P expr -> check_inv ns = false.
Proof.
  intros Hall. destruct (check_inv ns) eqn:E; [|reflexivity]. exfalso.
  apply check_inv_sound in E as (i & a & b & Hi & Hab & Hn).
  destruct (token_names_lookup _ _ _ _ _ named Hi) as (t & Hti & Hta).
  destruct (token_names_lookup _ _ _ _ _ named Hn) as (u & Hui & Hub).
  destruct (consistent_spec UNARY_TOKENS BINARY_TOKENS lib consistent t a Hta)
    as (_ & _ & _ & Hinv).
  specialize (Hinv u b Hub Hab).
  destruct (expr_lookup _ _ Hti) as [Hti' _].
  destruct (expr_lookup _ _ Hui) as [Hui' _].
  destruct (lookup_two_split tokens i t u Hti' Hui') as (pre & rest & E & <-).
  pose proof priors_ok as HP. rewrite E in HP.
  apply generate_priors_next in HP as [_ HP].
  pose proof (token_nonneg _ _ Hui) as Hu0.
  specialize (HP u Hinv Hu0).
  rewrite (Hall _ _ Hui) in HP. discriminate.
Qed.

(** An allowed expression has no nested trig token. *)
Lemma allowed_no_nested_trig :
  permitted P expr -> check_trig UNARY_TOKENS BINARY_TOKENS ns = false.
Proof.
  intros Hall.
  destruct (check_trig UNARY_TOKENS BINARY_TOKENS ns) eqn:E; [|reflexivity].
  exfalso. unfold check_trig in E.
  destruct (check_trig_true_flagged expr trig_init ns named E)
    as (mid & t & rest' & Hsplit & Hflag & Ht).
  destruct mid as [|t' pre _] using rev_ind; [discriminate|].
  assert (Hti : expr !! S (length pre) = Some t).
  { rewrite Hsplit, <- app_assoc. simpl.
    rewrite lookup_app_r by lia.
    now replace (S (length pre) - length pre)%nat with 1%nat by lia. }
  assert (E' : tokens = pre ++ t' :: t :: (rest' ++ drop p tokens)).
  { rewrite <- (take_drop p tokens) at 1. rewrite Hsplit, <- !app_assoc.
    reflexivity. }
  pose proof priors_ok as HP. rewrite E' in HP.
  apply generate_priors_next in HP as [HP _].
  pose proof (token_nonneg _ _ Hti) as Ht0.
  specialize (HP Hflag t Ht Ht0).
  rewrite (Hall _ _ Hti) in HP. discriminate.
Qed.

Variable ars : list Z.

Hypothesis exact : library_exact lib = true.
Hypothesis arities_ok : arities_of lib expr = Ok ars.

Lemma token_arity (i : nat) (t : Z) :
  expr !! i = Some t ->
  exists a, ars !! i = Some a /\ arities lib !! Z.to_nat t = Some a /\
            0 <= t < Z.of_nat (length (arities lib)).
Proof.
  intros Hi. pose proof (token_nonneg i t Hi) as Ht.
  destruct (mapM_lookup _ _ _ arities_ok i t Hi) as (a & Ha & Hidx).
  exists a. apply index_nonneg_lookup in Hidx; [|exact Ht].
  split; [exact Ha|]. split; [exact Hidx|].
  apply lookup_lt_Some in Hidx. lia.
Qed.

Lemma arities_length : length ars = p.
Proof.
  pose proof (mapM_length _ _ _ arities_ok) as H.
  now rewrite length_take_le in H by exact within.
Qed.

Lemma arities_nonneg : Forall (fun a => 0 <= a) ars.
Proof.
  destruct (library_exact_spec lib exact) as (_ & Hnn & _).
  apply Forall_lookup_2. intros i a Ha.
  pose proof (mapM_length _ _ _ arities_ok) as Hlen.
  destruct (lookup_lt_is_Some_2 expr i) as [t Ht];
    [apply lookup_lt_Some in Ha; lia|].
  destruct (token_arity i t Ht) as (a' & Ha' & Hlib & _).
  assert (a' = a) as -> by congruence.
  apply (Forall_lookup_1 _ _ _ _ Hnn Hlib).
Qed.

Lemma prefix_balance (j : nat) (ars_j : list Z) :
  (j <= p)%nat ->
  arities_of lib (take j tokens) = Ok ars_j ->
  1 + balance_sum ars_j = balance_after ars j.
Proof.
  intros Hj H. pose proof (mapM_take _ _ _ j arities_ok) as H'.
  rewrite take_take in H'. replace (j `min` p)%nat with j in H' by lia.
  unfold arities_of in H. rewrite H' in H. injection H as <-. reflexivity.
Qed.

Hypothesis complete : first_zero_at ars p.

(** A complete expression that the mask allows does not start with a
    terminal token and is not shorter than [min_len]. *)
Lemma permitted_long_enough :
  permitted P expr ->
  starts_with_operator lib expr /\ min_len <= Z.of_nat p.
Proof.
  intros Hall.
  destruct (library_exact_spec lib exact) as (_ & _ & Hterm & _).
  assert (Hstart : starts_with_operator lib expr).
  { intros t Ht Hin. pose proof (token_nonneg 0 t Ht) as Ht0.
    pose proof (terminals_masked_first _ _ _ _ _ _ _ _ t priors_ok Hin Ht0) as Hm.
    rewrite (Hall 0%nat t Ht) in Hm. discriminate. }
  split; [exact Hstart|].
  pose proof arities_length as Hlen.
  pose proof complete as (Hp & Hz & Hnz).
  destruct (Z.le_gt_cases min_len (Z.of_nat p)) as [|Hshort];
    [assumption|exfalso].
  remember (p - 1)%nat as m eqn:Em.
  assert (Hm : p = S m) by lia.
  destruct (lookup_lt_is_Some_2 expr m) as [tl Htl];
    [rewrite length_take_le by exact within; lia|].
  destruct (token_arity m tl Htl) as (al & Hal & Hlib & Hrange).
  pose proof (balance_after_S _ _ _ Hal) as Estep.
  pose proof (Forall_lookup_1 _ _ _ _ arities_nonneg Hal) as Hal0.
  simpl in Hal0.
  pose proof (balance_after_positive ars _ arities_nonneg complete m
                ltac:(lia)) as Hpos.
  rewrite Hm in Hz.
  assert (al = 0) as -> by lia.
  assert (Hone : balance_after ars m = 1) by lia.
  assert (Hterm_tl : tl ∈ terminal_tokens lib) by (now apply Hterm).
  destruct m as [|j].
  - exact (Hstart tl Htl Hterm_tl).
  - destruct (lookup_lt_is_Some_2 expr j) as [t Ht];
      [rewrite length_take_le by exact within; lia|].
    destruct (expr_lookup _ _ Ht) as [Ht' _].
    destruct (expr_lookup _ _ Htl) as [Htl' _].
    destruct (lookup_two_split tokens j t tl Ht' Htl') as (pre & rest & E & Hpre).
    assert (Htake : arities_of lib (pre ++ [t]) = Ok (take (S j) ars)).
    { pose proof (mapM_take _ _ _ (S j) arities_ok) as H.
      rewrite take_take in H. replace (S j `min` p)%nat with (S j) in H by lia.
      rewrite E in H. change (t :: tl :: rest) with ([t] ++ tl :: rest) in H.
      rewrite app_assoc, take_app_length' in H; [exact H|].
      rewrite length_app. simpl. lia. }
    pose proof priors_ok as HP. rewrite E in HP.
    pose proof (terminals_masked_early lib pre t tl rest _ _ _ _ _ P
                  (take (S j) ars) tl HP Htake ltac:(lia) Hone Hterm_tl
                  ltac:(lia)) as Hmask.
    rewrite Hpre in Hmask. rewrite (Hall (S j) tl Htl) in Hmask. discriminate.
Qed.

(** A complete expression that does not start with a terminal token, has a
    length within the bounds and passes [check_inv] and [check_trig] is
    allowed by the mask at every position. *)
Lemma valid_is_permitted :
  starts_with_operator lib expr ->
  min_len <= Z.of_nat p <= max_len ->
  check_inv ns = false ->
  check_trig UNARY_TOKENS BINARY_TOKENS ns = false ->
  permitted P expr.
Proof.
  intros Hstart Hbounds Hinv Htrig i t Hi.
  destruct (masked P i (Z.to_nat t)) eqn:Hm; [exfalso|reflexivity].
  destruct (library_exact_spec lib exact) as (Hsets & _ & Hterm & Hbin & Hinvs).
  pose proof (token_nonneg i t Hi) as Ht0.
  pose proof arities_length as Hlen.
  pose proof complete as (Hp & Hz & Hnz).
  destruct (expr_lookup _ _ Hi) as [Hi' Hip].
  assert (Hsame : forall c, 0 <= c -> column c (Z.to_nat t) -> c = t).
  { intros c Hc Hcol. apply column_nonneg in Hcol; [|exact Hc]. lia. }
  destruct (generate_priors_just lib tokens max_len min_len _ _ _ _ priors_ok
              i _ Hm)
    as [(-> & c & Hc & Hcol)
       |(j & t' & ars_j & -> & Hj' & Hlt & Harsj & Hreason)].
  - assert (c = t) as -> by (apply Hsame; [apply Hsets; tauto|exact Hcol]).
    exact (Hstart t Hi Hc).
  - assert (Hj : expr !! j = Some t')
      by (rewrite lookup_take_lt by lia; exact Hj').
    destruct (lookup_two_split expr j t' t Hj Hi) as (pre & rest & E & Hpre).
    assert (Htake : take (S j) tokens = pre ++ [t']).
    { replace (take (S j) tokens) with (take (S j) expr)
        by (rewrite take_take; f_equal; lia).
      rewrite E. change (t' :: t :: rest) with ([t'] ++ t :: rest).
      rewrite app_assoc, take_app_length'; [reflexivity|].
      rewrite length_app. simpl. lia. }
    pose proof (prefix_balance (S j) ars_j ltac:(lia) Harsj) as Hbal.
    destruct (token_arity (S j) t Hi) as (a & Ha & Hlib & Hrange).
    pose proof (balance_after_S _ _ _ Ha) as Estep.
    destruct Hreason as [(c & Hc & Hcol & Hflag)
                        |[(u & Hu & Hcol)
                         |[(c & Hc & Hcol & Hmin & Hone)
                          |(c & Hc & Hcol & Hmid & Hbud)]]].
    + assert (c = t) as -> by (apply Hsame; [apply Hsets; tauto|exact Hcol]).
      rewrite Htake in Hflag.
      assert (Hns : token_names lib ((pre ++ [t']) ++ t :: rest) = Some ns)
        by (rewrite <- app_assoc; simpl; rewrite <- E; exact named).
      rewrite (check_trig_flagged (pre ++ [t']) t rest ns Hns Hflag Hc) in Htrig.
      discriminate.
    + destruct (Hinvs t' u Hu) as (Hu0 & a' & b & Hta & Hub & Hab).
      assert (u = t) as -> by (now apply Hsame).
      destruct (token_names_lookup_l lib expr ns j t' named Hj)
        as (a1 & Hn1 & Ht1).
      destruct (token_names_lookup_l lib expr ns (S j) t named Hi)
        as (b1 & Hn2 & Ht2).
      assert (a1 = a') as -> by congruence.
      assert (b1 = b) as -> by congruence.
      rewrite check_inv_complete in Hinv; [discriminate|].
      now exists j, a', b.
    + assert (c = t) as -> by (apply Hsame; [apply Hsets; tauto|exact Hcol]).
      apply (Hterm t Hrange) in Hc. assert (a = 0) as -> by congruence.
      destruct (decide (S (S j) = p)) as [Hend|Hmore]; [lia|].
      apply (Hnz (S (S j))); lia.
    + assert (c = t) as -> by (apply Hsame; [apply Hsets; tauto|exact Hcol]).
      apply Hbin in Hc. assert (a = 2) as -> by congruence.
      pose proof (balance_after_slow ars (S (S j)) (p - S (S j))
                    arities_nonneg ltac:(lia)) as Hslow.
      replace (S (S j) + (p - S (S j)))%nat with p in Hslow by lia.
      lia.
Qed.

End BothWays.

(** C3 (amended): let the library's index sets and inverse map agree with
    the validators' name tables, let [P] be the mask that [generate_priors]
    computes for a token array, and let the expression be the first [p]
    tokens of the array, the rest being padding ([p] is the length of the
    array when there is none). If every token of the expression is allowed
    by [P], the expression has no token directly followed by its inverse and
    no trig token beneath another trig token. If moreover the index sets
    describe the arities and the expression is complete, then an allowed
    expression does not start with a terminal token and is not shorter than
    [min_len]; and conversely the expression is allowed at every position as
    soon as it does not start with a terminal token, its length lies between
    [min_len] and [max_len], and it has neither an inverse pair nor a nested
    trig token. *)
Theorem priors_agree_with_validators
  (UNARY_TOKENS BINARY_TOKENS : list string) (lib : Library)
  (tokens : list Z) (p : nat) (ns : list string) (max_exp_length : nat)
  (expr_length max_const max_len min_len : Z) (P : matrix) :
  library_consistent UNARY_TOKENS BINARY_TOKENS lib = true ->
  (p <= length tokens)%nat ->
  token_names lib (take p tokens) = Some ns ->
  generate_priors lib tokens max_exp_length expr_length max_const max_len min_len
  = Ok P ->
  (permitted P (take p tokens) ->
   check_inv ns = false /\ check_trig UNARY_TOKENS BINARY_TOKENS ns = false) /\
  (forall ars : list Z,
      library_exact lib = true ->
      arities_of lib (take p tokens) = Ok ars ->
      first_zero_at ars p ->
      (permitted P (take p tokens) ->
       starts_with_operator lib (take p tokens) /\ min_len <= Z.of_nat p) /\
      (starts_with_operator lib (take p tokens) ->
       min_len <= Z.of_nat p <= max_len ->
       check_inv ns = false ->
       check_trig UNARY_TOKENS BINARY_TOKENS ns = false ->
       permitted P (take p tokens))).
Proof.
  intros Hc Hp Hns HP. split.
  - intros Hall. split.
    + eapply allowed_no_inverse_pair; eassumption.
    + eapply allowed_no_nested_trig; eassumption.
  - intros ars Hexact Hars Hcomplete. split.
    + eapply permitted_long_enough; eassumption.
    + eapply valid_is_permitted; eassumption.
Qed.

Lemma priors_agree_with_validators_witness :
  (check_inv ["add"; "sin"; "x1"; "log"; "x1"] = false /\
   check_trig example_UNARY example_BINARY ["add"; "sin"; "x1"; "log"; "x1"]
   = false) /\
  (starts_with_operator example_lib (take 5 [1; 2; 0; 3; 0; 0; 0]) /\
   2 <= Z.of_nat 5) /\
  permitted [[neg_infinity; 0; 0; 0; 0; 0; neg_infinity];
             [0; 0; 0; 0; 0; 0; 0];
             [0; 0; neg_infinity; 0; 0; 0; 0];
             [0; 0; 0; 0; 0; 0; 0];
             [0; 0; 0; 0; neg_infinity; 0; 0];
             [0; 0; 0; 0; 0; 0; 0];
             [0; 0; 0; 0; 0; 0; 0]]%float (take 5 [1; 2; 0; 3; 0; 0; 0]).
Proof.
  destruct (priors_agree_with_validators example_UNARY example_BINARY
              example_lib [1; 2; 0; 3; 0; 0; 0] 5
              ["add"; "sin"; "x1"; "log"; "x1"] 7 5 0 10 2
              [[neg_infinity; 0; 0; 0; 0; 0; neg_infinity];
               [0; 0; 0; 0; 0; 0; 0];
               [0; 0; neg_infinity; 0; 0; 0; 0];
               [0; 0; 0; 0; 0; 0; 0];
               [0; 0; 0; 0; neg_infinity; 0; 0];
               [0; 0; 0; 0; 0; 0; 0];
               [0; 0; 0; 0; 0; 0; 0]]%float) as [Hforward Hboth].
  - vm_compute. reflexivity.
  - simpl. lia.
  - reflexivity.
  - vm_compute. reflexivity.
  - destruct (Hboth [2; 1; 0; 1; 0]) as [Hlong Hback].
    + vm_compute. reflexivity.
    + reflexivity.
    + split; [simpl; lia|]. split; [reflexivity|].
      intros [|[|[|[|[|q]]]]] Hq; try (simpl in Hq; lia); vm_compute;
        discriminate.
    + assert (Hall : permitted
                       [[neg_infinity; 0; 0; 0; 0; 0; neg_infinity];
                        [0; 0; 0; 0; 0; 0; 0];
                        [0; 0; neg_infinity; 0; 0; 0; 0];
                        [0; 0; 0; 0; 0; 0; 0];
                        [0; 0; 0; 0; neg_infinity; 0; 0];
                        [0; 0; 0; 0; 0; 0; 0];
                        [0; 0; 0; 0; 0; 0; 0]]%float
                       (take 5 [1; 2; 0; 3; 0; 0; 0]))
        by (apply permittedb_sound; vm_compute; reflexivity).
      split; [exact (Hforward Hall)|]. split; [exact (Hlong Hall)|].
      apply Hback.
      * intros t [= <-]. by_evaluation.
      * simpl. lia.
      * reflexivity.
      * reflexivity.
Defined.
